(** * Change detection of the WordPress content exporter

    A shallow embedding of [plugins/wordpress-tools/scripts/lib/checksum.js]:
    the SHA-256 entry points [hashString], [hashFile] and [hashObject], the
    canonicalisation [sortObjectKeys], the builder [generateChecksums] and the
    differ [compareChecksums], together with the parts of the JavaScript
    runtime they rely on (UTF-16 strings, own-property order of ordinary
    objects, [JSON.stringify], the [crypto] hash object, a directory tree). *)

From Stdlib Require Import List NArith Bool Ascii String Lia Permutation Sorted.
From Stdlib Require Import Strings.Byte.
Import ListNotations.

Local Open Scope N_scope.

(** ** JavaScript strings

    A JavaScript string is a sequence of UTF-16 code units; each code unit is
    an [N] below [2^16]. *)
Module JsString.

Definition code_unit := N.
Definition jsstring := list code_unit.

(** An ASCII literal of the source, as a JavaScript string. *)
Definition js (s : string) : jsstring :=
  map N_of_ascii (list_ascii_of_string s).

(** Same, with every apostrophe read as a double quote; used to write down
    expected JSON texts. *)
Definition jsq (s : string) : jsstring :=
  map (fun c => if c =? 39 then 34 else c) (js s).

Definition eqb (a b : jsstring) : bool :=
  if list_eq_dec N.eq_dec a b then true else false.

(** The order of the relational operators on strings, which is also the
    order of [Array.prototype.sort] without a comparator: code unit by code
    unit, a proper prefix first. *)
Fixpoint ltb (a b : jsstring) : bool :=
  match a, b with
  | _, [] => false
  | [], _ :: _ => true
  | x :: a', y :: b' =>
      if x <? y then true else if y <? x then false else ltb a' b'
  end.

Definition leb (a b : jsstring) : bool := negb (ltb b a).

Definition is_digit (c : code_unit) : bool := (48 <=? c) && (c <=? 57).

(** Decimal digits of a number, least significant first. *)
Fixpoint digits_rev (fuel : nat) (n : N) : jsstring :=
  match fuel with
  | O => []
  | S fuel' =>
      (48 + n mod 10) :: (if n <? 10 then [] else digits_rev fuel' (n / 10))
  end.

(** [ToString] of a non-negative integer. *)
Definition of_N (n : N) : jsstring :=
  rev (digits_rev (S (N.to_nat (N.log2 n))) n).

(** Value of a string of decimal digits. *)
Definition to_N (s : jsstring) : N :=
  fold_left (fun acc c => 10 * acc + (c - 48)) s 0.

Definition is_high_surrogate (c : code_unit) : bool :=
  (0xD800 <=? c) && (c <=? 0xDBFF).
Definition is_low_surrogate (c : code_unit) : bool :=
  (0xDC00 <=? c) && (c <=? 0xDFFF).

Definition byte_of_N (n : N) : byte :=
  match Byte.of_N (n mod 256) with
  | Some b => b
  | None => x00
  end.

Definition utf8_1 (c : N) : list byte := [byte_of_N c].
Definition utf8_2 (c : N) : list byte :=
  [byte_of_N (N.lor 0xC0 (N.shiftr c 6));
   byte_of_N (N.lor 0x80 (N.land c 0x3F))].
Definition utf8_3 (c : N) : list byte :=
  [byte_of_N (N.lor 0xE0 (N.shiftr c 12));
   byte_of_N (N.lor 0x80 (N.land (N.shiftr c 6) 0x3F));
   byte_of_N (N.lor 0x80 (N.land c 0x3F))].
Definition utf8_4 (c : N) : list byte :=
  [byte_of_N (N.lor 0xF0 (N.shiftr c 18));
   byte_of_N (N.lor 0x80 (N.land (N.shiftr c 12) 0x3F));
   byte_of_N (N.lor 0x80 (N.land (N.shiftr c 6) 0x3F));
   byte_of_N (N.lor 0x80 (N.land c 0x3F))].

(** U+FFFD, which the encoder writes for a surrogate without its partner. *)
Definition utf8_replacement : list byte := utf8_3 0xFFFD.

(** The ['utf8'] encoding of a string, as [Buffer.from(s, 'utf8')] and
    [hash.update(s, 'utf8')] compute it. *)
Fixpoint utf8_encode (s : jsstring) : list byte :=
  match s with
  | [] => []
  | c :: rest =>
      if c <? 0x80 then utf8_1 c ++ utf8_encode rest
      else if c <? 0x800 then utf8_2 c ++ utf8_encode rest
      else if is_high_surrogate c then
        match rest with
        | d :: rest' =>
            if is_low_surrogate d
            then utf8_4 (0x10000 + N.shiftl (c - 0xD800) 10 + (d - 0xDC00))
                   ++ utf8_encode rest'
            else utf8_replacement ++ utf8_encode rest
        | [] => utf8_replacement
        end
      else if is_low_surrogate c then utf8_replacement ++ utf8_encode rest
      else utf8_3 c ++ utf8_encode rest
  end.

End JsString.
Export JsString.

(** ** SHA-256 (FIPS 180-4), the algorithm behind [createHash('sha256')] *)
Module Sha256.

Definition mask32 : N := 0xFFFFFFFF.
Definition add32 (a b : N) : N := N.land (a + b) mask32.
Definition rotr (n x : N) : N :=
  N.lor (N.shiftr x n) (N.land (N.shiftl x (32 - n)) mask32).
Definition not32 (x : N) : N := N.lxor x mask32.

Definition Ch (x y z : N) : N := N.lxor (N.land x y) (N.land (not32 x) z).
Definition Maj (x y z : N) : N :=
  N.lxor (N.lxor (N.land x y) (N.land x z)) (N.land y z).
Definition Sigma0 (x : N) : N := N.lxor (N.lxor (rotr 2 x) (rotr 13 x)) (rotr 22 x).
Definition Sigma1 (x : N) : N := N.lxor (N.lxor (rotr 6 x) (rotr 11 x)) (rotr 25 x).
Definition sigma0 (x : N) : N := N.lxor (N.lxor (rotr 7 x) (rotr 18 x)) (N.shiftr x 3).
Definition sigma1 (x : N) : N := N.lxor (N.lxor (rotr 17 x) (rotr 19 x)) (N.shiftr x 10).

(** The first 64 primes. *)
Definition primes : list N :=
  [2; 3; 5; 7; 11; 13; 17; 19; 23; 29; 31; 37; 41; 43; 47; 53;
   59; 61; 67; 71; 73; 79; 83; 89; 97; 101; 103; 107; 109; 113; 127; 131;
   137; 139; 149; 151; 157; 163; 167; 173; 179; 181; 191; 193; 197; 199; 211; 223;
   227; 229; 233; 239; 241; 251; 257; 263; 269; 271; 277; 281; 283; 293; 307; 311].

(** Integer cube root, one bit at a time from bit [bits - 1] down. *)
Fixpoint cube_root (bits : nat) (x r : N) : N :=
  match bits with
  | O => r
  | S bits' =>
      let r' := r + N.shiftl 1 (N.of_nat bits') in
      cube_root bits' x (if r' * r' * r' <=? x then r' else r)
  end.

(** The round constants: the first 32 bits of the fractional parts of the
    cube roots of the first 64 primes. *)
Definition K : list N :=
  Eval vm_compute in
    map (fun p => N.land (cube_root 36 (N.shiftl p 96) 0) mask32) primes.

Definition state := (N * N * N * N * N * N * N * N)%type.

(** The initial hash value: the first 32 bits of the fractional parts of
    the square roots of the first 8 primes. *)
Definition frac_sqrt (p : N) : N := N.land (N.sqrt (N.shiftl p 64)) mask32.

Definition H0 : state :=
  Eval vm_compute in
    (frac_sqrt 2, frac_sqrt 3, frac_sqrt 5, frac_sqrt 7,
     frac_sqrt 11, frac_sqrt 13, frac_sqrt 17, frac_sqrt 19).

(** Message padding: a [1] bit, zeros, and the bit length on 64 bits, up to
    a multiple of 64 bytes. *)
Fixpoint be_bytes (k : nat) (n : N) : list N :=
  match k with
  | O => []
  | S k' => N.land (N.shiftr n (8 * N.of_nat k')) 0xFF :: be_bytes k' n
  end.

Definition pad (msg : list byte) : list N :=
  let len := N.of_nat (List.length msg) in
  let zeros := (64 - (len + 9) mod 64) mod 64 in
  map Byte.to_N msg ++ [0x80] ++ repeat 0 (N.to_nat zeros) ++ be_bytes 8 (8 * len).

Fixpoint words (bs : list N) : list N :=
  match bs with
  | b0 :: b1 :: b2 :: b3 :: rest =>
      (N.shiftl b0 24 + N.shiftl b1 16 + N.shiftl b2 8 + b3) :: words rest
  | _ => []
  end.

(** The message schedule, most recent word first. *)
Fixpoint extend (n : nat) (w : list N) : list N :=
  match n with
  | O => w
  | S n' =>
      let x := add32 (add32 (sigma1 (nth 1 w 0)) (nth 6 w 0))
                     (add32 (sigma0 (nth 14 w 0)) (nth 15 w 0)) in
      extend n' (x :: w)
  end.

Definition schedule (block : list N) : list N := rev (extend 48 (rev block)).

Definition round (s : state) (kw : N * N) : state :=
  let '(a, b, c, d, e, f, g, h) := s in
  let t1 := add32 (add32 (add32 h (Sigma1 e)) (add32 (Ch e f g) (fst kw))) (snd kw) in
  let t2 := add32 (Sigma0 a) (Maj a b c) in
  (add32 t1 t2, a, b, c, add32 d t1, e, f, g).

Definition compress (s : state) (block : list N) : state :=
  let '(a, b, c, d, e, f, g, h) := fold_left round (combine K (schedule block)) s in
  let '(a0, b0, c0, d0, e0, f0, g0, h0) := s in
  (add32 a0 a, add32 b0 b, add32 c0 c, add32 d0 d,
   add32 e0 e, add32 f0 f, add32 g0 g, add32 h0 h).

Fixpoint blocks (n : nat) (ws : list N) (s : state) : state :=
  match n with
  | O => s
  | S n' => blocks n' (skipn 16 ws) (compress s (firstn 16 ws))
  end.

Definition sha256 (msg : list byte) : state :=
  let ws := words (pad msg) in
  blocks (Nat.div (List.length ws) 16) ws H0.

Definition hex_digit (n : N) : code_unit :=
  if n <? 10 then 48 + n else 87 + n.

Definition hex_word (w : N) : jsstring :=
  map (fun i => hex_digit (N.land (N.shiftr w (4 * i)) 0xF)) [7; 6; 5; 4; 3; 2; 1; 0].

(** [digest('hex')]: the eight words in lower-case hexadecimal. *)
Definition hex (s : state) : jsstring :=
  let '(a, b, c, d, e, f, g, h) := s in
  hex_word a ++ hex_word b ++ hex_word c ++ hex_word d ++
  hex_word e ++ hex_word f ++ hex_word g ++ hex_word h.

End Sha256.


(** ** Ordinary objects

    An object used as a map is the list of its own enumerable properties in
    the order [Object.keys], [Object.entries], the spread syntax and
    [JSON.stringify] visit them ([OrdinaryOwnPropertyKeys]): array indices
    first, in ascending numeric order, then the other string keys in the order
    in which they were created. *)
Module JsObject.

Definition key := jsstring.
Definition obj (V : Type) := list (key * V).

(** A key [k] is an array index when [ToString(ToUint32(k))] is [k] and
    the number is not [2^32 - 1]: the decimal text, without leading zeros,
    of an integer between [0] and [2^32 - 2]. *)
Definition array_index (k : key) : option N :=
  if forallb is_digit k
     && JsString.eqb (JsString.of_N (to_N k)) k
     && (to_N k <? 0xFFFFFFFF)
  then Some (to_N k)
  else None.

Definition is_index (k : key) : bool :=
  match array_index k with Some _ => true | None => false end.

(** The properties of [Object.prototype], which every object literal and
    every object made by [JSON.parse] inherits. *)
Definition object_prototype_names : list key :=
  map js ["constructor"; "__defineGetter__"; "__defineSetter__";
          "hasOwnProperty"; "__lookupGetter__"; "__lookupSetter__";
          "isPrototypeOf"; "propertyIsEnumerable"; "toString"; "valueOf";
          "__proto__"; "toLocaleString"]%string.

Definition includes (l : list jsstring) (x : jsstring) : bool :=
  existsb (JsString.eqb x) l.

(** The result of reading [o[k]]. *)
Inductive lookup (V : Type) : Type :=
| Own (v : V)       (* an own property *)
| Inherited         (* a function or object found on [Object.prototype] *)
| Undefined.
Arguments Own {V} v.
Arguments Inherited {V}.
Arguments Undefined {V}.

Section Properties.
Context {V : Type}.

Definition keys (o : obj V) : list key := map fst o.
Definition entries (o : obj V) : list (key * V) := o.

Fixpoint own_get (o : obj V) (k : key) : option V :=
  match o with
  | [] => None
  | (k', v) :: rest => if JsString.eqb k k' then Some v else own_get rest k
  end.

Definition has_own (o : obj V) (k : key) : bool :=
  match own_get o k with Some _ => true | None => false end.

(** [o[k]] on an object whose prototype is [Object.prototype]. *)
Definition get (o : obj V) (k : key) : lookup V :=
  match own_get o k with
  | Some v => Own v
  | None => if includes object_prototype_names k then Inherited else Undefined
  end.

Fixpoint replace (k : key) (v : V) (o : obj V) : obj V :=
  match o with
  | [] => []
  | (k', v') :: rest =>
      if JsString.eqb k k' then (k, v) :: rest else (k', v') :: replace k v rest
  end.

(** Place of a new array index [n]: before the first larger index, and
    before every key that is not an index. *)
Fixpoint insert_index (n : N) (k : key) (v : V) (o : obj V) : obj V :=
  match o with
  | [] => [(k, v)]
  | (k', v') :: rest =>
      match array_index k' with
      | Some m =>
          if n <? m then (k, v) :: o else (k', v') :: insert_index n k v rest
      | None => (k, v) :: o
      end
  end.

(** [CreateDataProperty]: an existing property keeps its place. *)
Definition define (o : obj V) (k : key) (v : V) : obj V :=
  if has_own o k then replace k v o
  else match array_index k with
       | Some n => insert_index n k v o
       | None => o ++ [(k, v)]
       end.

(** [o[k] = v] on an object whose prototype is [Object.prototype].  For
    the key [__proto__] that is not an own property the assignment runs
    the setter inherited from [Object.prototype], which changes the
    prototype (or does nothing for a primitive) and creates no property;
    the other inherited properties are writable data properties, so the
    assignment creates an own property as for any other key. *)
Definition assign (o : obj V) (k : key) (v : V) : obj V :=
  if JsString.eqb k (js "__proto__") && negb (has_own o k) then o
  else define o k v.

(** [delete o[k]]. *)
Definition delete (o : obj V) (k : key) : obj V :=
  filter (fun kv => negb (JsString.eqb k (fst kv))) o.

End Properties.

(** [Array.prototype.sort] without a comparator, on an array of strings.
    The algorithm is the engine's; every sort gives the same result on
    strings, which [ltb] orders totally. *)
Fixpoint insert_sorted (k : key) (l : list key) : list key :=
  match l with
  | [] => [k]
  | x :: rest => if JsString.ltb x k then x :: insert_sorted k rest else k :: l
  end.

Definition sort (l : list key) : list key := fold_right insert_sorted [] l.

End JsObject.
Export JsObject.

(** ** JSON values and [JSON.stringify] *)
Module Json.

(** A value as [JSON.parse] returns it.  A number is carried as the text
    [JSON.stringify] writes for it ([Number::toString]), which is all the
    program observes of a number. *)
#[local] Unset Elimination Schemes.
Inductive json : Type :=
| JNull
| JBool (b : bool)
| JNum (text : jsstring)
| JStr (s : jsstring)
| JArr (l : list json)
| JObj (o : obj json).
#[local] Set Elimination Schemes.

Definition hex4 (c : N) : jsstring :=
  map (fun i => Sha256.hex_digit (N.land (N.shiftr c (4 * i)) 0xF)) [3; 2; 1; 0].

Definition unicode_escape (c : code_unit) : jsstring := js "\u" ++ hex4 c.

Definition escape_unit (c : code_unit) : jsstring :=
  if c =? 8 then js "\b"
  else if c =? 9 then js "\t"
  else if c =? 10 then js "\n"
  else if c =? 12 then js "\f"
  else if c =? 13 then js "\r"
  else if c =? 34 then [92; 34]
  else if c =? 92 then [92; 92]
  else if c <? 32 then unicode_escape c
  else [c].

Fixpoint quote_body (s : jsstring) : jsstring :=
  match s with
  | [] => []
  | c :: rest =>
      if is_high_surrogate c then
        match rest with
        | d :: rest' =>
            if is_low_surrogate d then c :: d :: quote_body rest'
            else unicode_escape c ++ quote_body rest
        | [] => unicode_escape c
        end
      else if is_low_surrogate c then unicode_escape c ++ quote_body rest
      else escape_unit c ++ quote_body rest
  end.

(** [QuoteJSONString]. *)
Definition quote (s : jsstring) : jsstring := [34] ++ quote_body s ++ [34].

Fixpoint join (sep : jsstring) (l : list jsstring) : jsstring :=
  match l with
  | [] => []
  | [x] => x
  | x :: rest => x ++ sep ++ join sep rest
  end.

(** [JSON.stringify(v)] with no replacer and no indentation: the members of
    an object are written in the order of its own keys. *)
Fixpoint stringify (v : json) : jsstring :=
  match v with
  | JNull => js "null"
  | JBool true => js "true"
  | JBool false => js "false"
  | JNum text => text
  | JStr s => quote s
  | JArr l => js "[" ++ join (js ",") (map stringify l) ++ js "]"
  | JObj o =>
      js "{"
      ++ join (js ",") (map (fun kv => quote (fst kv) ++ js ":" ++ stringify (snd kv)) o)
      ++ js "}"
  end.

(** A map from names to strings, as a JSON value. *)
Definition of_strings (o : obj jsstring) : json :=
  JObj (map (fun kv => (fst kv, JStr (snd kv))) o).

End Json.
Export Json.

(** ** The [crypto] hash object *)
Module Crypto.

(** A hash object holds the bytes it has been fed. *)
Record Hash := { fed : list byte }.

(** [createHash('sha256')]. *)
Definition createHash : Hash := {| fed := [] |}.

(** [hash.update(text, 'utf8')]. *)
Definition update_utf8 (h : Hash) (text : jsstring) : Hash :=
  {| fed := fed h ++ utf8_encode text |}.

(** [hash.update(buffer)]. *)
Definition update (h : Hash) (buffer : list byte) : Hash :=
  {| fed := fed h ++ buffer |}.

(** [hash.digest('hex')]. *)
Definition digest_hex (h : Hash) : jsstring := Sha256.hex (Sha256.sha256 (fed h)).

End Crypto.

(** ** Failing operations *)
Module Result.

Inductive error : Type :=
| ENOENT        (* no such file or directory *)
| EISDIR        (* read of a directory *)
| ENOTDIR       (* listing of a file *)
| SyntaxError.  (* malformed JSON document *)

Inductive result (A : Type) : Type :=
| Ok (a : A)
| Err (e : error).
Arguments Ok {A} a.
Arguments Err {A} e.

Definition bind {A B : Type} (r : result A) (f : A -> result B) : result B :=
  match r with
  | Ok a => f a
  | Err e => Err e
  end.

(** A [for ... of] loop whose body awaits: the first failure ends it. *)
Fixpoint for_of {A S : Type} (l : list A) (body : S -> A -> result S) (s : S)
  : result S :=
  match l with
  | [] => Ok s
  | x :: rest => bind (body s x) (for_of rest body)
  end.

End Result.
Export Result.

Declare Scope result_scope.
Notation "x <- c1 ;; c2" := (Result.bind c1 (fun x => c2))
  (at level 61, c1 at next level, right associativity) : result_scope.
Local Open Scope result_scope.

(** ** The file system, as [fs-extra] reads it

    A tree of regular files that can be read and directories that can be
    listed, which does not change during a call.  Links, permissions and
    entries that come or go between two operations are outside the model:
    here an operation fails only on a path that does not exist or is of the
    wrong kind, while the real [fs.stat] and [fs.readFile] can also reject
    on an entry that is listed.  The statements about [generateChecksums]
    are therefore about the records it returns, not about when it
    throws. *)
Module Fs.

#[local] Unset Elimination Schemes.
Inductive node : Type :=
| File (content : list byte)
| Dir (listing : list (jsstring * node)).
#[local] Set Elimination Schemes.

Definition path := list jsstring.

(** [path.join(dir, name)] for a single name. *)
Definition join (dir : path) (name : jsstring) : path := dir ++ [name].

Fixpoint child (listing : list (jsstring * node)) (name : jsstring) : option node :=
  match listing with
  | [] => None
  | (n, x) :: rest => if JsString.eqb name n then Some x else child rest name
  end.

Fixpoint resolve (root : node) (p : path) : option node :=
  match p with
  | [] => Some root
  | name :: p' =>
      match root with
      | Dir listing =>
          match child listing name with
          | Some x => resolve x p'
          | None => None
          end
      | File _ => None
      end
  end.

Definition pathExists (root : node) (p : path) : bool :=
  match resolve root p with Some _ => true | None => false end.

Definition readFile (root : node) (p : path) : result (list byte) :=
  match resolve root p with
  | Some (File content) => Ok content
  | Some (Dir _) => Err EISDIR
  | None => Err ENOENT
  end.

(** The names come in the order the operating system lists them. *)
Definition readdir (root : node) (p : path) : result (list jsstring) :=
  match resolve root p with
  | Some (Dir listing) => Ok (map fst listing)
  | Some (File _) => Err ENOTDIR
  | None => Err ENOENT
  end.

(** [(await fs.stat(p)).isFile()]. *)
Definition stat_isFile (root : node) (p : path) : result bool :=
  match resolve root p with
  | Some (File _) => Ok true
  | Some (Dir _) => Ok false
  | None => Err ENOENT
  end.

End Fs.

(** ** [checksum.js] *)
Module Checksum.

Import Crypto.

Definition hashString (content : jsstring) : jsstring :=
  digest_hex (update_utf8 createHash content).

(** [root] is the file system at the time of the call. *)
Definition hashFile (root : Fs.node) (filePath : Fs.path) : result jsstring :=
  content <- Fs.readFile root filePath ;;
  Ok (digest_hex (update createHash content)).

(** The object [sorted] that the loop of [sortObjectKeys] builds from the
    properties of [o], whose values are already sorted. *)
Definition sorted_object (o : obj json) : obj json :=
  fold_left
    (fun sorted key =>
       match own_get o key with
       | Some v => assign sorted key v
       | None => sorted
       end)
    (JsObject.sort (keys o)) [].

(** A mapping has its values sorted first and the loop run over the result,
    which is the loop of the source, [sorted[key] = sortObjectKeys(obj[key])]
    for [key] in [Object.keys(obj).sort()] (lemma [sortObjectKeys_loop]),
    in a form that recurses on the values where they stand. *)
Fixpoint sortObjectKeys (v : json) : json :=
  match v with
  | JArr l => JArr (map sortObjectKeys l)
  | JObj o => JObj (sorted_object (map (fun kv => (fst kv, sortObjectKeys (snd kv))) o))
  | _ => v
  end.

(** [{ ...v }]: the own enumerable properties of [v], copied in order.  An
    array and a string have their elements under the indices; [null], a
    boolean and a number have none. *)
Definition indexed (l : list json) : obj json :=
  combine (map JsString.of_N (map N.of_nat (seq 0 (List.length l)))) l.

Definition spread (v : json) : obj json :=
  match v with
  | JObj o => fold_left (fun copy kv => define copy (fst kv) (snd kv)) (entries o) []
  | JArr l => indexed l
  | JStr s => indexed (map (fun c => JStr [c]) s)
  | _ => []
  end.

Definition alwaysExcluded : list key :=
  map js ["id"; "date"; "modified"; "guid"; "link"]%string.

(** The value [sorted] of [hashObject], which [JSON.stringify] receives. *)
Definition canonical (v : json) (excludeKeys : list key) : json :=
  let filtered := spread v in
  let dynamicFields := alwaysExcluded ++ excludeKeys in
  let filtered := fold_left delete dynamicFields filtered in
  sortObjectKeys (JObj filtered).

Definition hashObject (v : json) (excludeKeys : list key) : jsstring :=
  hashString (stringify (canonical v excludeKeys)).

Record Checksums : Type := {
  version : N;
  generated : jsstring;
  files : option (obj jsstring);
  media : option (obj jsstring);
  combined : jsstring
}.

(** [m || {}]. *)
Definition or_empty (m : option (obj jsstring)) : obj jsstring :=
  match m with
  | Some o => o
  | None => []
  end.

Definition endsWith (s suffix : jsstring) : bool :=
  JsString.eqb (skipn (List.length s - List.length suffix) s) suffix
  && Nat.leb (List.length suffix) (List.length s).

Definition reserved : list jsstring :=
  map js ["metadata.json"; "media-mapping.json"; "checksums.json"]%string.

Section Generate.

(** [JSON.parse] on the bytes of a file, [None] for a document that is not
    JSON; and the text [new Date().toISOString()] gives at the call. *)
Variable parse : list byte -> option json.
Variable now : jsstring.

Definition readJson (root : Fs.node) (p : Fs.path) : result json :=
  content <- Fs.readFile root p ;;
  match parse content with
  | Some v => Ok v
  | None => Err SyntaxError
  end.

Definition generateChecksums (root : Fs.node) (contentDir : Fs.path)
  : result Checksums :=
  let files0 : obj jsstring := [] in
  let bodyPath := Fs.join contentDir (js "body.html") in
  files1 <-
    (if Fs.pathExists root bodyPath
     then h <- hashFile root bodyPath ;; Ok (assign files0 (js "body.html") h)
     else Ok files0) ;;
  let metadataPath := Fs.join contentDir (js "metadata.json") in
  files2 <-
    (if Fs.pathExists root metadataPath
     then metadata <- readJson root metadataPath ;;
          Ok (assign files1 (js "metadata.json") (hashObject metadata []))
     else Ok files1) ;;
  names <- Fs.readdir root contentDir ;;
  files3 <-
    for_of names
      (fun found file =>
         if endsWith file (js ".json") && negb (includes reserved file)
         then
           let filePath := Fs.join contentDir file in
           isFile <- Fs.stat_isFile root filePath ;;
           if (isFile : bool)
           then h <- hashFile root filePath ;; Ok (assign found file h)
           else Ok found
         else Ok found)
      files2 ;;
  let mediaDir := Fs.join contentDir (js "media") in
  media0 <-
    (if Fs.pathExists root mediaDir
     then
       mediaFiles <- Fs.readdir root mediaDir ;;
       m <- for_of mediaFiles
              (fun m file =>
                 let filePath := Fs.join mediaDir file in
                 isFile <- Fs.stat_isFile root filePath ;;
                 if (isFile : bool)
                 then h <- hashFile root filePath ;; Ok (assign m file h)
                 else Ok m)
              [] ;;
       Ok (Some m)
     else Ok None) ;;
  Ok {| version := 1;
        generated := now;
        files := Some files3;
        media := media0;
        combined :=
          hashString (stringify (of_strings files3)
                      ++ stringify (of_strings (or_empty media0))) |}.

End Generate.

Record DiffResult : Type := {
  changed : bool;
  reason : jsstring;
  details_files : list jsstring;
  details_media : list jsstring
}.

(** [x !== hash] for [x] read from a map and [hash] a string. *)
Definition differs (x : lookup jsstring) (hash : jsstring) : bool :=
  match x with
  | Own v => negb (JsString.eqb v hash)
  | Inherited | Undefined => true
  end.

(** [!x]: [undefined] and the empty string are falsy. *)
Definition falsy (x : lookup jsstring) : bool :=
  match x with
  | Own v => match v with [] => true | _ => false end
  | Inherited => false
  | Undefined => true
  end.

Definition push (l : list jsstring) (x : jsstring) : list jsstring := l ++ [x].

Definition isEmpty (l : list jsstring) : bool :=
  match l with [] => true | _ => false end.

(** What a loop over [Object.entries(exported)] collects: the names whose
    digest in [remote] is missing or different, in order. *)
Definition changed_entries (remote exported : obj jsstring) : list jsstring :=
  map fst (filter (fun fh => differs (get remote (fst fh)) (snd fh)) exported).

(** The loop over [Object.keys(exportMedia)] that adds the new files to
    the names already found. *)
Definition new_entries (remote : obj jsstring) (names : list jsstring)
    (found : list jsstring) : list jsstring :=
  fold_left
    (fun acc file =>
       if falsy (get remote file)
       then (if negb (includes acc file) then push acc file else acc)
       else acc)
    names found.

Definition compareChecksums (exportChecksums : Checksums)
    (remoteChecksums : option Checksums) : DiffResult :=
  match remoteChecksums with
  | None =>
      {| changed := true;
         reason := js "no-remote-checksums";
         details_files := [];
         details_media := [] |}
  | Some remote =>
      if JsString.eqb (combined exportChecksums) (combined remote)
      then {| changed := false;
              reason := js "combined-match";
              details_files := [];
              details_media := [] |}
      else
        let exportFiles := or_empty (files exportChecksums) in
        let remoteFiles := or_empty (files remote) in
        let changedFiles :=
          fold_left
            (fun acc fh =>
               if differs (get remoteFiles (fst fh)) (snd fh)
               then push acc (fst fh) else acc)
            (entries exportFiles) [] in
        let exportMedia := or_empty (media exportChecksums) in
        let remoteMedia := or_empty (media remote) in
        let changedMedia :=
          fold_left
            (fun acc fh =>
               if differs (get remoteMedia (fst fh)) (snd fh)
               then push acc (fst fh) else acc)
            (entries exportMedia) [] in
        let changedMedia :=
          fold_left
            (fun acc file =>
               if falsy (get remoteMedia file)
               then (if negb (includes acc file) then push acc file else acc)
               else acc)
            (keys exportMedia) changedMedia in
        let changed := negb (isEmpty changedFiles) || negb (isEmpty changedMedia) in
        {| changed := changed;
           reason := if changed then js "content-changed" else js "match";
           details_files := changedFiles;
           details_media := changedMedia |}
  end.

End Checksum.
Export Checksum.

(** ** The specification's vocabulary *)
Module Spec.

(** The specification's [digestOfBytes]: the 256-bit hash of a byte
    sequence, in hexadecimal. *)
Definition digestOfBytes (bytes : list byte) : jsstring :=
  Sha256.hex (Sha256.sha256 bytes).

(** The specification's [digestOfText], by its own words [digestOfBytes]
    over the UTF-8 encoding of the text. *)
Definition digestOfText (text : jsstring) : jsstring :=
  digestOfBytes (utf8_encode text).

(** The specification's [stableSerialize] of a map of digests: plain
    structural serialisation. *)
Definition stableSerialize (m : obj jsstring) : jsstring :=
  stringify (of_strings m).

(** A copy of a record with one of its maps replaced. *)
Definition set_files (c : Checksums) (m : option (obj jsstring)) : Checksums :=
  {| version := version c; generated := generated c;
     files := m; media := media c; combined := combined c |}.

Definition set_media (c : Checksums) (m : option (obj jsstring)) : Checksums :=
  {| version := version c; generated := generated c;
     files := files c; media := m; combined := combined c |}.

(** The keys of a list are pairwise distinct, as the keys of an object
    are. *)
Fixpoint distinct (l : list key) : bool :=
  match l with
  | [] => true
  | k :: rest => negb (includes rest k) && distinct rest
  end.

(** A structured value: every mapping in it, at every depth, has distinct
    keys. *)
Fixpoint well_formed (v : json) : bool :=
  match v with
  | JArr l => forallb well_formed l
  | JObj o => distinct (keys o) && forallb (fun kv => well_formed (snd kv)) o
  | _ => true
  end.

(** [reordered v v']: [v'] is [v] with the keys of its mappings written in
    another order, at the top and at every depth; the fields are the same. *)
#[local] Unset Elimination Schemes.
Inductive reordered : json -> json -> Prop :=
| ro_null : reordered JNull JNull
| ro_bool b : reordered (JBool b) (JBool b)
| ro_num text : reordered (JNum text) (JNum text)
| ro_str s : reordered (JStr s) (JStr s)
| ro_arr l l' :
    Forall2 reordered l l' -> reordered (JArr l) (JArr l')
| ro_obj o m o' :
    Permutation o m ->
    Forall2 (fun kv kv' => fst kv = fst kv' /\ reordered (snd kv) (snd kv')) m o' ->
    reordered (JObj o) (JObj o').
#[local] Set Elimination Schemes.

(** [p] holds of the key list of every mapping of the value. *)
Fixpoint every_object (p : list key -> bool) (v : json) : bool :=
  match v with
  | JArr l => forallb (every_object p) l
  | JObj o => p (keys o) && forallb (fun kv => every_object p (snd kv)) o
  | _ => true
  end.

(** Each element is below the next one. *)
Fixpoint ascending {A : Type} (lt : A -> A -> bool) (l : list A) : bool :=
  match l with
  | a :: (b :: _) as rest => lt a b && ascending lt rest
  | _ => true
  end.

(** Ascending lexicographic order of the keys. *)
Definition keys_ascending (ks : list key) : bool := ascending JsString.ltb ks.

Definition index_ltb (a b : key) : bool :=
  match array_index a, array_index b with
  | Some n, Some m => n <? m
  | _, _ => false
  end.

Definition keys_eqb (a b : list key) : bool :=
  if list_eq_dec (list_eq_dec N.eq_dec) a b then true else false.

(** The order in which the canonical value has its keys: the array indices
    first, in ascending numeric order, then the other keys in ascending
    lexicographic order. *)
Definition indices_then_ascending (ks : list key) : bool :=
  let indices := filter is_index ks in
  let names := filter (fun k => negb (is_index k)) ks in
  keys_eqb ks (indices ++ names)
  && ascending index_ltb indices
  && ascending JsString.ltb names.

(** Ascending lexicographic order, asked only of a mapping without
    array-index keys. *)
Definition ascending_without_indices (ks : list key) : bool :=
  existsb is_index ks || keys_ascending ks.

End Spec.
Export Spec.

(** ** Sample data *)
Module Sample.

Definition text (t : string) : Fs.node := Fs.File (utf8_encode (js t)).

(** A content directory [post] with a body, a metadata document, an
    extension document, two files that are not hashed, and media. *)
Definition tree : Fs.node :=
  Fs.Dir [(js "post",
           Fs.Dir [(js "body.html", text "<p>Hi</p>");
                   (js "checksums.json", text "{}");
                   (js "media", Fs.Dir [(js "photo.jpg", Fs.File [x89; x50; x4e; x47]);
                                        (js "thumbs", Fs.Dir [])]);
                   (js "metadata.json", text "{}");
                   (js "seo.json", text "{}");
                   (js "notes.txt", text "n")])].

(** The parsed metadata document of the end-to-end scenario. *)
Definition metadata : json :=
  JObj [(js "id", JNum (js "1")); (js "title", JStr (js "Hi"));
        (js "date", JStr (js "2024-01-01"))].

Definition parse_metadata (_ : list byte) : option json := Some metadata.

Definition digest_a : jsstring := hashString (js "a").
Definition digest_b : jsstring := hashString (js "b").
Definition digest_c : jsstring := hashString (js "c").

Definition record (f m : option (obj jsstring)) (c : jsstring) : Checksums :=
  {| version := 1; generated := js "2024-01-01T00:00:00.000Z";
     files := f; media := m; combined := c |}.

(** Two records with the same content, built in different orders. *)
Definition fresh_ab : Checksums :=
  record (Some [(js "body.html", digest_a); (js "seo.json", digest_b)]) None
         (hashString (js "ab")).
Definition stored_ba : Checksums :=
  record (Some [(js "seo.json", digest_b); (js "body.html", digest_a)]) (Some [])
         (hashString (js "ab")).

(** Records with an absent map on each side. *)
Definition fresh_no_media : Checksums :=
  record (Some [(js "body.html", digest_a)]) None (hashString (js "1")).
Definition stored_no_files : Checksums :=
  record None (Some [(js "photo.jpg", digest_a)]) (hashString (js "0")).

(** A stored record that has everything the fresh one has, and more. *)
Definition fresh_subset : Checksums :=
  record (Some [(js "body.html", digest_a); (js "metadata.json", digest_b)])
         (Some [(js "photo.jpg", digest_c)]) (hashString (js "1")).
Definition stored_superset : Checksums :=
  record (Some [(js "metadata.json", digest_b); (js "body.html", digest_a);
                (js "old.json", digest_c)])
         (Some [(js "gone.png", digest_a); (js "photo.jpg", digest_c)])
         (hashString (js "0")).

(** A fresh record with a media file the stored record does not have. *)
Definition fresh_new_photo : Checksums :=
  record (Some [(js "body.html", digest_a)])
         (Some [(js "photo.jpg", digest_b); (js "logo.png", digest_a)])
         (hashString (js "1")).
Definition stored_old : Checksums :=
  record (Some [(js "body.html", digest_a)]) (Some [(js "logo.png", digest_a)])
         (hashString (js "0")).

(** A value and a copy with the keys of its mappings in another order. *)
Definition inner : json := JObj [(js "y", JNull); (js "x", JBool true)].
Definition inner' : json := JObj [(js "x", JBool true); (js "y", JNull)].
Definition meta : json := JObj [(js "b", JNum (js "1")); (js "a", JArr [inner])].
Definition meta' : json := JObj [(js "a", JArr [inner']); (js "b", JNum (js "1"))].
Definition post : json := JObj [(js "title", JStr (js "t")); (js "meta", meta)].
Definition post' : json := JObj [(js "meta", meta'); (js "title", JStr (js "t"))].

(** Two exports of one post that differ in dynamic fields only. *)
Definition export1 : obj json :=
  [(js "id", JNum (js "1")); (js "date", JStr (js "x"));
   (js "title", JStr (js "t")); (js "slug", JStr (js "a"))].
Definition export2 : obj json :=
  [(js "title", JStr (js "t")); (js "id", JNum (js "2"));
   (js "link", JStr (js "http://example.org/?p=2"))].

(** Mappings with integer-like keys. *)
Definition ten_and_two : json :=
  JObj [(js "2", JStr (js "b")); (js "10", JStr (js "a"))].
Definition mixed_keys : json :=
  JObj [(js "title", JStr (js "t"));
        (js "10", JNum (js "1"));
        (js "2", JArr [JObj [(js "b", JNull); (js "a", JBool false); (js "7", JNull)]]);
        (js "id", JNum (js "5"))].

End Sample.

(** ** Vocabulary of the proofs *)

(** The order of [ltb] as a relation. *)
Definition str_lt (a b : jsstring) : Prop := JsString.ltb a b = true.

(** The key that [assign] treats apart. *)
Definition proto : key := js "__proto__".

(** One turn of the loop of [sortObjectKeys], over values already sorted. *)
Definition sorted_step (o : obj json) (sorted : obj json) (k : key) : obj json :=
  match own_get o k with
  | Some v => assign sorted k v
  | None => sorted
  end.

Definition map_values (f : json -> json) (o : obj json) : obj json :=
  map (fun kv => (fst kv, f (snd kv))) o.

(** Two fields with the same key and the same canonical value. *)
Definition same_canonical (kv kv' : key * json) : Prop :=
  fst kv = fst kv' /\ sortObjectKeys (snd kv) = sortObjectKeys (snd kv').

Definition canonical_under_reordering (x : json) : Prop :=
  forall x', reordered x x' -> sortObjectKeys x = sortObjectKeys x'.

(** The keys of a list that are not array indices, in their order. *)
Definition names (ks : list key) : list key :=
  filter (fun k => negb (is_index k)) ks.

(** A list of keys in the order of own properties: array indices in
    ascending numeric order, then the other keys. *)
Inductive own_order : list key -> Prop :=
| oo_names ks :
    Forall (fun k => is_index k = false) ks -> own_order ks
| oo_index k n rest :
    array_index k = Some n ->
    Forall (fun k' => forall m, array_index k' = Some m -> n < m) rest ->
    own_order rest ->
    own_order (k :: rest).

(** ** Vocabulary of the exclusion of the dynamic fields *)

(** A place in a value: a field of a mapping or an element of a sequence;
    a path leads from the value to a value inside it. *)
Inductive place : Type :=
| Field (k : key)
| Element (i : nat).

Fixpoint at_path (v : json) (p : list place) : option json :=
  match p with
  | [] => Some v
  | Field k :: rest =>
      match v with
      | JObj o =>
          match own_get o k with
          | Some x => at_path x rest
          | None => None
          end
      | _ => None
      end
  | Element i :: rest =>
      match v with
      | JArr l =>
          match nth_error l i with
          | Some x => at_path x rest
          | None => None
          end
      | _ => None
      end
  end.

(** No field of the path is named [__proto__]. *)
Definition proto_free (p : list place) : bool :=
  forallb (fun s => match s with
                    | Field k => negb (JsString.eqb k proto)
                    | Element _ => true
                    end) p.

(** A string of 16-bit code units. *)
Definition is_text (s : jsstring) : bool := forallb (fun c => c <? 0x10000) s.

(** The characters of the text of a finite number ([Number::toString]):
    digits, the signs, the point and [e]. *)
Definition number_char (c : code_unit) : bool :=
  is_digit c || (c =? 43) || (c =? 45) || (c =? 46) || (c =? 101).

Definition is_number_text (t : jsstring) : bool :=
  match t with
  | [] => false
  | _ => forallb number_char t
  end.

(** A value as [JSON.parse] delivers it: its strings and keys are strings
    of 16-bit code units and its numbers are finite. *)
Fixpoint proper (v : json) : bool :=
  match v with
  | JNum text => is_number_text text
  | JStr s => is_text s
  | JArr l => forallb proper l
  | JObj o => forallb (fun kv => is_text (fst kv) && proper (snd kv)) o
  | _ => true
  end.

(** The bytes that [hashObject] hands to SHA-256. *)
Definition hashed_bytes (v : json) (excludeKeys : list key) : list byte :=
  utf8_encode (stringify (canonical v excludeKeys)).

(** A check of [p] on every number below [2 ^ bits]. *)
Fixpoint below (bits : nat) (p : N -> bool) : bool :=
  match bits with
  | O => p 0
  | S b => below b (fun n => p (2 * n)) && below b (fun n => p (2 * n + 1))
  end.

(** Reading back a quoted string: the string and what follows the closing
    quote. *)
Definition unhex_digit (c : code_unit) : N :=
  if c <? 58 then c - 48 else c - 87.

Definition unhex4 (a b c d : code_unit) : code_unit :=
  ((unhex_digit a * 16 + unhex_digit b) * 16 + unhex_digit c) * 16 + unhex_digit d.

Definition unescape (x : code_unit) : code_unit :=
  if x =? 98 then 8
  else if x =? 116 then 9
  else if x =? 110 then 10
  else if x =? 102 then 12
  else if x =? 114 then 13
  else x.

Definition read_unit (c : code_unit) (r : option (jsstring * jsstring))
  : option (jsstring * jsstring) :=
  match r with
  | Some (s, rest) => Some (c :: s, rest)
  | None => None
  end.

Fixpoint read_string (t : jsstring) : option (jsstring * jsstring) :=
  match t with
  | [] => None
  | c :: t1 =>
      if c =? 34 then Some ([], t1)
      else if c =? 92 then
        match t1 with
        | x :: t2 =>
            if x =? 117 then
              match t2 with
              | h3 :: h2 :: h1 :: h0 :: t3 =>
                  read_unit (unhex4 h3 h2 h1 h0) (read_string t3)
              | _ => None
              end
            else read_unit (unescape x) (read_string t2)
        | [] => None
        end
      else read_unit c (read_string t1)
  end.

(** What may follow a value in a JSON text: nothing, a comma or a closing
    bracket. *)
Definition closes (r : jsstring) : bool :=
  match r with
  | [] => true
  | c :: _ => (c =? 44) || (c =? 93) || (c =? 125)
  end.

(** The members after the first, each with its comma. *)
Definition more {A : Type} (enc : A -> jsstring) (l : list A) : jsstring :=
  flat_map (fun a => 44 :: enc a) l.

(** No surrogate without its partner. *)
Fixpoint paired (s : jsstring) : bool :=
  match s with
  | [] => true
  | c :: rest =>
      if is_high_surrogate c then
        match rest with
        | d :: rest' => is_low_surrogate d && paired rest'
        | [] => false
        end
      else negb (is_low_surrogate c) && paired rest
  end.

(** Reading back UTF-8. *)
Definition utf8_decode_2 (b0 b1 : N) : jsstring :=
  [(b0 - 0xC0) * 64 + (b1 - 0x80)].

Definition utf8_decode_3 (b0 b1 b2 : N) : jsstring :=
  [((b0 - 0xE0) * 64 + (b1 - 0x80)) * 64 + (b2 - 0x80)].

Definition utf8_decode_4 (b0 b1 b2 b3 : N) : jsstring :=
  let cp := (((b0 - 0xF0) * 64 + (b1 - 0x80)) * 64 + (b2 - 0x80)) * 64 + (b3 - 0x80) in
  [0xD800 + (cp - 0x10000) / 0x400; 0xDC00 + (cp - 0x10000) mod 0x400].

Fixpoint utf8_decode (bs : list byte) : jsstring :=
  match bs with
  | [] => []
  | b0 :: r0 =>
      let n0 := Byte.to_N b0 in
      if n0 <? 0x80 then n0 :: utf8_decode r0
      else match r0 with
           | [] => []
           | b1 :: r1 =>
               if n0 <? 0xE0
               then utf8_decode_2 n0 (Byte.to_N b1) ++ utf8_decode r1
               else match r1 with
                    | [] => []
                    | b2 :: r2 =>
                        if n0 <? 0xF0
                        then utf8_decode_3 n0 (Byte.to_N b1) (Byte.to_N b2)
                               ++ utf8_decode r2
                        else match r2 with
                             | [] => []
                             | b3 :: r3 =>
                                 utf8_decode_4 n0 (Byte.to_N b1) (Byte.to_N b2)
                                   (Byte.to_N b3) ++ utf8_decode r3
                             end
                    end
           end
  end.

(** The first character of the text of a value. *)
Definition opener (v : json) (c : code_unit) : bool :=
  match v with
  | JNull => c =? 110
  | JBool true => c =? 116
  | JBool false => c =? 102
  | JNum _ => number_char c
  | JStr _ => c =? 34
  | JArr _ => c =? 91
  | JObj _ => c =? 123
  end.

Definition kind (v : json) : nat :=
  match v with
  | JNull => 0
  | JBool true => 1
  | JBool false => 2
  | JNum _ => 3
  | JStr _ => 4
  | JArr _ => 5
  | JObj _ => 6
  end.

(** A member of an object, as [JSON.stringify] writes it. *)
Definition member (kv : key * json) : jsstring :=
  quote (fst kv) ++ 58 :: stringify (snd kv).

(** [enc a] can be read back from a text in which it is followed by a comma
    or a closing bracket. *)
Definition delimited {A : Type} (enc : A -> jsstring) (ok : A -> Prop) (a : A)
  : Prop :=
  forall a' r r',
    ok a' -> closes r = true -> closes r' = true ->
    enc a ++ r = enc a' ++ r' -> a = a' /\ r = r'.

(** A string of 16-bit code units in which every surrogate has its
    partner. *)
Definition clean (s : jsstring) : bool := is_text s && paired s.

(** Sample data: two values that differ in the [id] of a mapping inside a
    sequence, and two that differ in the [id] of a mapping stored under the
    key [__proto__]. *)
Definition nested_id (n : string) : obj json :=
  [(js "title", JStr (js "t"));
   (js "authors", JArr [JObj [(js "id", JNum (js n)); (js "name", JStr (js "a"))]])].

Definition id_under_proto (n : string) : obj json :=
  [(js "title", JStr (js "t"));
   (js "__proto__", JObj [(js "id", JNum (js n))])].

(** ** Vocabulary of the further properties *)

(** The numeric order of array indices, as a relation. *)
Definition index_lt (a b : key) : Prop := index_ltb a b = true.

(** A digest as [digest('hex')] writes it: 64 characters among [0-9a-f]. *)
Definition is_hex (c : code_unit) : bool :=
  ((48 <=? c) && (c <=? 57)) || ((97 <=? c) && (c <=? 102)).

Definition is_digest (h : jsstring) : bool :=
  Nat.eqb (List.length h) 64 && forallb is_hex h.

(** The steps of [generateChecksums], named. *)
Definition body_part (root : Fs.node) (contentDir : Fs.path)
  : result (obj jsstring) :=
  if Fs.pathExists root (Fs.join contentDir (js "body.html"))
  then h <- hashFile root (Fs.join contentDir (js "body.html")) ;;
       Ok (assign [] (js "body.html") h)
  else Ok [].

Definition metadata_part (parse : list byte -> option json)
    (root : Fs.node) (contentDir : Fs.path) (files1 : obj jsstring)
  : result (obj jsstring) :=
  if Fs.pathExists root (Fs.join contentDir (js "metadata.json"))
  then metadata <- readJson parse root (Fs.join contentDir (js "metadata.json")) ;;
       Ok (assign files1 (js "metadata.json") (hashObject metadata []))
  else Ok files1.

(** A name the loop over the directory hashes, if it is a regular file. *)
Definition is_extension (file : jsstring) : bool :=
  endsWith file (js ".json") && negb (includes reserved file).

Definition extension_step (root : Fs.node) (contentDir : Fs.path)
    (found : obj jsstring) (file : jsstring) : result (obj jsstring) :=
  if is_extension file
  then
    isFile <- Fs.stat_isFile root (Fs.join contentDir file) ;;
    if (isFile : bool)
    then h <- hashFile root (Fs.join contentDir file) ;; Ok (assign found file h)
    else Ok found
  else Ok found.

Definition media_step (root : Fs.node) (mediaDir : Fs.path)
    (m : obj jsstring) (file : jsstring) : result (obj jsstring) :=
  isFile <- Fs.stat_isFile root (Fs.join mediaDir file) ;;
  if (isFile : bool)
  then h <- hashFile root (Fs.join mediaDir file) ;; Ok (assign m file h)
  else Ok m.

Definition media_part (root : Fs.node) (contentDir : Fs.path)
  : result (option (obj jsstring)) :=
  if Fs.pathExists root (Fs.join contentDir (js "media"))
  then
    mediaFiles <- Fs.readdir root (Fs.join contentDir (js "media")) ;;
    m <- for_of mediaFiles (media_step root (Fs.join contentDir (js "media"))) [] ;;
    Ok (Some m)
  else Ok None.

(** The bytes of a regular file. *)
Definition file_bytes (n : option Fs.node) : option (list byte) :=
  match n with
  | Some (Fs.File content) => Some content
  | _ => None
  end.

(** What one entry of the directory adds to [files] in the loop. *)
Definition extension_entry (found : obj jsstring) (e : jsstring * Fs.node)
  : obj jsstring :=
  if is_extension (fst e)
  then match snd e with
       | Fs.File content => assign found (fst e) (digestOfBytes content)
       | Fs.Dir _ => found
       end
  else found.

Definition media_entry (m : obj jsstring) (e : jsstring * Fs.node)
  : obj jsstring :=
  match snd e with
  | Fs.File content => assign m (fst e) (digestOfBytes content)
  | Fs.Dir _ => m
  end.

(** The digest [files] holds under a name, for the content directory [l]. *)
Definition expected_file (parse : list byte -> option json)
    (l : list (jsstring * Fs.node)) (f : jsstring) : option jsstring :=
  if JsString.eqb f (js "body.html")
  then option_map digestOfBytes (file_bytes (Fs.child l f))
  else if JsString.eqb f (js "metadata.json")
  then match file_bytes (Fs.child l f) with
       | Some b => option_map (fun metadata => hashObject metadata []) (parse b)
       | None => None
       end
  else if is_extension f
  then option_map digestOfBytes (file_bytes (Fs.child l f))
  else None.

(** The digest [media] holds under a name, for the media directory [ml]. *)
Definition expected_media (ml : list (jsstring * Fs.node)) (f : jsstring)
  : option jsstring :=
  if JsString.eqb f (js "__proto__") then None
  else option_map digestOfBytes (file_bytes (Fs.child ml f)).

(** The entries of a content directory that [generateChecksums] looks at. *)
Definition relevant (e : jsstring * Fs.node) : bool :=
  JsString.eqb (fst e) (js "body.html")
  || JsString.eqb (fst e) (js "metadata.json")
  || JsString.eqb (fst e) (js "media")
  || (is_extension (fst e) && match snd e with Fs.File _ => true | Fs.Dir _ => false end).

(** Sample data: the content directory of [Sample.tree] on its own, and
    under another path of another tree. *)
Definition sample_post : Fs.node :=
  match Fs.resolve Sample.tree [js "post"] with
  | Some n => n
  | None => Fs.Dir []
  end.

Definition sample_site : Fs.node :=
  Fs.Dir [(js "readme.txt", Sample.text "r");
          (js "export", Fs.Dir [(js "42", sample_post)])].

(** A step on the entries of a directory, run from the names, as the loops
    of [generateChecksums] do with [fs.stat] and [fs.readFile]. *)
Definition by_name (step : obj jsstring -> jsstring * Fs.node -> obj jsstring)
    (l : list (jsstring * Fs.node)) (acc : obj jsstring) (file : jsstring)
  : obj jsstring :=
  match Fs.child l file with
  | Some n => step acc (file, n)
  | None => acc
  end.

(** A map as the builder grows it: distinct keys, no key [__proto__]. *)
Definition plain (o : obj jsstring) : Prop :=
  NoDup (keys o) /\ has_own o proto = false.

(** Sample data: the content directory after a save of [checksums.json] and
    of a media mapping, without the notes. *)
Definition sample_post_saved : Fs.node :=
  Fs.Dir [(js "body.html", Sample.text "<p>Hi</p>");
          (js "media", Fs.Dir [(js "photo.jpg", Fs.File [x89; x50; x4e; x47]);
                               (js "thumbs", Fs.Dir [])]);
          (js "media-mapping.json", Sample.text "{}");
          (js "metadata.json", Sample.text "{}");
          (js "seo.json", Sample.text "{}");
          (js "checksums.json", Sample.text "{ }")].

(** Every value of the map is a digest. *)
Definition all_digests (o : obj jsstring) : Prop :=
  forall f h, In (f, h) o -> is_digest h = true.

(** A record with another time of generation. *)
Definition set_generated (c : Checksums) (time : jsstring) : Checksums :=
  {| version := version c; generated := time;
     files := files c; media := media c; combined := combined c |}.

(** Sample data: a re-export of [Sample.tree] in which only the dynamic
    fields of the metadata changed, and a parser that tells the two
    metadata documents apart. *)
Definition sample_reexport : Fs.node :=
  Fs.Dir [(js "body.html", Sample.text "<p>Hi</p>");
          (js "checksums.json", Sample.text "{}");
          (js "media", Fs.Dir [(js "photo.jpg", Fs.File [x89; x50; x4e; x47]);
                               (js "thumbs", Fs.Dir [])]);
          (js "metadata.json", Sample.text "{'id':99}");
          (js "seo.json", Sample.text "{}");
          (js "notes.txt", Sample.text "n")].

Definition sample_parse (b : list byte) : option json :=
  if Nat.eqb (List.length b) 2
  then Some (JObj [(js "id", JNum (js "1")); (js "title", JStr (js "Hi"));
                   (js "date", JStr (js "2024-01-01"))])
  else Some (JObj [(js "date", JStr (js "2024-06-30")); (js "id", JNum (js "99"));
                   (js "title", JStr (js "Hi"))]).

(** ** The REST plugin [expose-all-meta-to-rest.php]

    The two [get_callback] functions of the field [all_meta].  A PHP string
    is a [string] (bytes); a PHP array is the list of its entries in
    insertion order; [get_post_meta] and [maybe_unserialize] belong to
    WordPress and are parameters. *)
Module Plugin.

Definition parray (V : Type) := list (string * V).

Fixpoint array_get {V : Type} (a : parray V) (k : string) : option V :=
  match a with
  | [] => None
  | (k', v) :: rest => if String.eqb k k' then Some v else array_get rest k
  end.

(** [$a[$k] = $v]: an existing key keeps its place, a new key goes last. *)
Fixpoint array_set {V : Type} (a : parray V) (k : string) (v : V) : parray V :=
  match a with
  | [] => [(k, v)]
  | (k', v') :: rest =>
      if String.eqb k k' then (k, v) :: rest else (k', v') :: array_set rest k v
  end.

Definition array_keys {V : Type} (a : parray V) : list string := map fst a.

(** [strpos($haystack, $needle)]: the place of the first occurrence, or
    [false]. *)
Definition strpos (haystack needle : string) : option nat :=
  String.index 0 needle haystack.

(** [strpos($key, '_edit_') === 0 || strpos($key, '_wp_') === 0]. *)
Definition is_zero (r : option nat) : bool :=
  match r with
  | Some O => true
  | _ => false
  end.

Definition hidden (key : string) : bool :=
  is_zero (strpos key "_edit_") || is_zero (strpos key "_wp_").

Section Callbacks.

Variable value : Type.
Variable maybe_unserialize : string -> value.
Variable get_post_meta : nat -> parray (list string).

(** What a key is exposed as: the one value, or the array of the values. *)
Inductive exposed : Type :=
| One (v : value)
| Many (vs : list value).

(** [count($values) === 1 ? maybe_unserialize($values[0])
                          : array_map('maybe_unserialize', $values)]. *)
Definition expose (values : list string) : exposed :=
  match values with
  | [v] => One (maybe_unserialize v)
  | _ => Many (map maybe_unserialize values)
  end.

(** The [get_callback] registered for [post] and [page]. *)
Definition get_callback (post_id : nat) : parray exposed :=
  let meta := get_post_meta post_id in
  fold_left
    (fun result kv =>
       if hidden (fst kv) then result
       else array_set result (fst kv) (expose (snd kv)))
    meta [].

(** The [get_callback] registered for the custom post types. *)
Definition get_callback_custom (post_id : nat) : parray exposed :=
  let meta := get_post_meta post_id in
  fold_left
    (fun result kv => array_set result (fst kv) (expose (snd kv)))
    meta [].

End Callbacks.

Definition custom_post_types : list string :=
  ["wpcf7_contact_form"; "acf-field-group"; "wpforms"; "frm_form"]%string.

(** Which callback [register_rest_field] has for each post type once the
    action has run; [post_type_exists] is WordPress's. *)
Inductive callback : Type := Filtered | Unfiltered.

Definition registered (post_type_exists : string -> bool)
  : parray callback :=
  fold_left
    (fun fields post_type =>
       if post_type_exists post_type
       then fields ++ [(post_type, Unfiltered)]
       else fields)
    custom_post_types
    [("post", Filtered); ("page", Filtered)]%string.

(** Sample data. *)
Definition sample_meta (_ : nat) : parray (list string) :=
  [("_edit_lock", ["1700000000:1"]); ("subtitle", ["Hello"]);
   ("_wp_page_template", ["default"]); ("gallery", ["a"; "b"]);
   ("my_edit_note", ["n"])]%string.

End Plugin.

(** * Properties *)

(** ** Sanity of the hash: the test vectors of FIPS 180-4 *)

Example sha256_empty :
  Sha256.hex (Sha256.sha256 []) =
  js "e3b0c44298fc1c149afbf4c8996fb92427ae41e4649b934ca495991b7852b855".
Proof. vm_compute. reflexivity. Qed.

Example sha256_abc :
  Sha256.hex (Sha256.sha256 (utf8_encode (js "abc"))) =
  js "ba7816bf8f01cfea414140de5dae2223b00361a396177a9cb410ff61f20015ad".
Proof. vm_compute. reflexivity. Qed.

Example sha256_two_blocks :
  Sha256.hex (Sha256.sha256 (utf8_encode
    (js "abcdbcdecdefdefgefghfghighijhijkijkljklmklmnlmnomnopnopq"))) =
  js "248d6a61d20638b8e5c026930c3e6039a33ce45964ff2167f6ecedd419db06c1".
Proof. vm_compute. reflexivity. Qed.

(** ** Strings *)

Lemma eqb_eq a b : JsString.eqb a b = true <-> a = b.
Proof.
  unfold JsString.eqb. destruct (list_eq_dec N.eq_dec a b); split; congruence.
Qed.

Lemma eqb_refl a : JsString.eqb a a = true.
Proof. now apply eqb_eq. Qed.

Lemma eqb_neq a b : JsString.eqb a b = false <-> a <> b.
Proof.
  unfold JsString.eqb. destruct (list_eq_dec N.eq_dec a b); split; congruence.
Qed.

Lemma eqb_sym a b : JsString.eqb a b = JsString.eqb b a.
Proof.
  destruct (JsString.eqb b a) eqn:E.
  - apply eqb_eq in E. subst. apply eqb_refl.
  - apply eqb_neq in E. apply eqb_neq. congruence.
Qed.

(** ** The two hash entry points *)

(** C9: for every string [t], [hashString t] is the specification's
    [digestOfBytes] of the UTF-8 encoding of [t], and [hashFile] on a file
    whose bytes are that encoding returns the same digest. *)
Theorem hashString_digestOfBytes_utf8 (t : jsstring) :
  hashString t = digestOfBytes (utf8_encode t) /\
  hashString t = digestOfText t /\
  forall root filePath,
    Fs.readFile root filePath = Ok (utf8_encode t) ->
    hashFile root filePath = Ok (hashString t).
Proof.
  split; [reflexivity|]. split; [reflexivity|].
  intros root filePath Hread. unfold hashFile. rewrite Hread. reflexivity.
Qed.

Lemma hashString_digestOfBytes_utf8_witness :
  Fs.readFile Sample.tree [js "post"; js "body.html"] = Ok (utf8_encode (js "<p>Hi</p>")) /\
  hashFile Sample.tree [js "post"; js "body.html"] = Ok (hashString (js "<p>Hi</p>")).
Proof.
  split.
  - vm_compute. reflexivity.
  - apply (hashString_digestOfBytes_utf8 (js "<p>Hi</p>")). vm_compute. reflexivity.
Defined.

(** ** The differ *)

(** C6 as the specification words it does not hold: the reason the code
    gives for a missing stored record is not the text [no-remote-digest]. *)
Lemma compareChecksums_absent_reason_counterexample :
  compareChecksums Sample.fresh_ab None <>
  {| changed := true; reason := js "no-remote-digest";
     details_files := []; details_media := [] |}.
Proof. vm_compute. discriminate. Qed.

(** C6 (amended): for every fresh record, [compareChecksums] with no stored
    record returns exactly [changed = true], the reason
    [no-remote-checksums] and two empty lists; a missing stored record is
    an ordinary input, decided before anything else is looked at. *)
Theorem compareChecksums_absent (fresh : Checksums) :
  compareChecksums fresh None =
  {| changed := true; reason := js "no-remote-checksums";
     details_files := []; details_media := [] |}.
Proof. reflexivity. Qed.

(** C5: when the two combined digests are equal, [compareChecksums] returns
    exactly [changed = false], the reason [combined-match] and two empty
    lists, whatever the two records hold in [files] and [media]. *)
Theorem compareChecksums_combined_match (fresh stored : Checksums) :
  combined fresh = combined stored ->
  compareChecksums fresh (Some stored) =
  {| changed := false; reason := js "combined-match";
     details_files := []; details_media := [] |}.
Proof.
  intros H. unfold compareChecksums. rewrite H, eqb_refl. reflexivity.
Qed.

Lemma compareChecksums_combined_match_witness :
  compareChecksums Sample.fresh_ab (Some Sample.stored_ba) =
  {| changed := false; reason := js "combined-match";
     details_files := []; details_media := [] |}.
Proof.
  apply (compareChecksums_combined_match Sample.fresh_ab Sample.stored_ba).
  vm_compute. reflexivity.
Defined.

(** C10: a record whose [files] or [media] map is absent is compared exactly
    as the record with an empty map in its place, on either side.  On two
    present records the comparison only reads properties and writes to its
    own two arrays, none of which can throw: [compareChecksums] is a total
    function of the two records, so it returns on every such input. *)
Theorem compareChecksums_absent_map_as_empty (fresh stored : Checksums) :
  (media fresh = None ->
   compareChecksums fresh (Some stored) =
   compareChecksums (set_media fresh (Some [])) (Some stored)) /\
  (files fresh = None ->
   compareChecksums fresh (Some stored) =
   compareChecksums (set_files fresh (Some [])) (Some stored)) /\
  (media stored = None ->
   compareChecksums fresh (Some stored) =
   compareChecksums fresh (Some (set_media stored (Some [])))) /\
  (files stored = None ->
   compareChecksums fresh (Some stored) =
   compareChecksums fresh (Some (set_files stored (Some [])))).
Proof.
  split; [|split; [|split]]; intros H;
    unfold compareChecksums, set_media, set_files;
    cbn [combined files media]; rewrite H; reflexivity.
Qed.

Lemma compareChecksums_absent_map_as_empty_witness :
  compareChecksums Sample.fresh_no_media (Some Sample.stored_no_files) =
  compareChecksums (set_media Sample.fresh_no_media (Some []))
                   (Some Sample.stored_no_files) /\
  compareChecksums Sample.fresh_no_media (Some Sample.stored_no_files) =
  compareChecksums Sample.fresh_no_media
                   (Some (set_files Sample.stored_no_files (Some []))).
Proof.
  destruct (compareChecksums_absent_map_as_empty
              Sample.fresh_no_media Sample.stored_no_files) as (H1 & _ & _ & H4).
  split; [apply H1 | apply H4]; vm_compute; reflexivity.
Defined.


(** ** The order of strings *)

Lemma ltb_irrefl a : JsString.ltb a a = false.
Proof.
  induction a as [|x a IH]; simpl; [reflexivity|].
  rewrite N.ltb_irrefl. exact IH.
Qed.

Lemma ltb_trans a : forall b c,
  JsString.ltb a b = true -> JsString.ltb b c = true -> JsString.ltb a c = true.
Proof.
  induction a as [|x a IH]; intros [|y b] [|z c]; simpl; try discriminate; auto.
  destruct (N.ltb_spec x y), (N.ltb_spec y x), (N.ltb_spec y z), (N.ltb_spec z y),
    (N.ltb_spec x z), (N.ltb_spec z x);
    try lia; try discriminate; auto.
  intros; eapply IH; eauto.
Qed.

Lemma ltb_connex a : forall b,
  JsString.ltb a b = false -> JsString.ltb b a = false -> a = b.
Proof.
  induction a as [|x a IH]; intros [|y b]; simpl; try discriminate; auto.
  destruct (N.ltb_spec x y), (N.ltb_spec y x); try lia; try discriminate.
  intros. assert (x = y) by lia. subst. f_equal. auto.
Qed.

Lemma ltb_asym a b : JsString.ltb a b = true -> JsString.ltb b a = false.
Proof.
  intros H. destruct (JsString.ltb b a) eqn:E; [|reflexivity].
  pose proof (ltb_trans _ _ _ H E) as C. rewrite ltb_irrefl in C. discriminate.
Qed.

(** ** Sorting *)

Lemma insert_sorted_perm k l : Permutation (insert_sorted k l) (k :: l).
Proof.
  induction l as [|x l IH]; simpl; [reflexivity|].
  destruct (JsString.ltb x k); [|reflexivity].
  rewrite IH. apply perm_swap.
Qed.

Lemma sort_perm l : Permutation (JsObject.sort l) l.
Proof.
  induction l as [|x l IH]; simpl; [reflexivity|].
  rewrite insert_sorted_perm. now constructor.
Qed.

Lemma insert_sorted_sorted k l :
  ~ In k l -> StronglySorted str_lt l -> StronglySorted str_lt (insert_sorted k l).
Proof.
  intros Hk Hs. induction Hs as [|x l Hs IH Hx]; simpl.
  - repeat constructor.
  - destruct (JsString.ltb x k) eqn:E.
    + constructor.
      * apply IH. intros C. apply Hk. now right.
      * rewrite Forall_forall in *. intros y Hy.
        apply (Permutation_in _ (insert_sorted_perm k l)) in Hy.
        destruct Hy as [<-|Hy]; [exact E | now apply Hx].
    + assert (Hkx : str_lt k x).
      { unfold str_lt. destruct (JsString.ltb k x) eqn:E'; [reflexivity|].
        exfalso. apply Hk. left. now apply ltb_connex. }
      constructor; [now constructor|].
      constructor; [exact Hkx|].
      rewrite Forall_forall in *. intros y Hy.
      eapply ltb_trans; [exact Hkx | now apply Hx].
Qed.

Lemma sort_sorted l : NoDup l -> StronglySorted str_lt (JsObject.sort l).
Proof.
  induction 1 as [|x l Hx Hl IH]; simpl; [constructor|].
  apply insert_sorted_sorted; [|exact IH].
  intros C. apply Hx. eapply Permutation_in; [apply sort_perm | exact C].
Qed.

(** Two ascending lists with the same elements are the same list. *)
Lemma sorted_perm_eq l : forall l',
  StronglySorted str_lt l -> StronglySorted str_lt l' -> Permutation l l' -> l = l'.
Proof.
  induction l as [|a l IH]; intros l' Hs Hs' Hp.
  - apply Permutation_nil in Hp. now subst.
  - destruct l' as [|b l'].
    { apply Permutation_sym, Permutation_nil in Hp. discriminate. }
    inversion Hs as [|? ? Hsl Ha]; subst.
    inversion Hs' as [|? ? Hsl' Hb]; subst.
    assert (a = b) as ->.
    { assert (Hin : In a (b :: l')) by (eapply Permutation_in; [exact Hp | now left]).
      assert (Hin' : In b (a :: l))
        by (eapply Permutation_in; [apply Permutation_sym; exact Hp | now left]).
      destruct Hin as [->|Hin]; [reflexivity|].
      destruct Hin' as [->|Hin']; [reflexivity|].
      rewrite Forall_forall in Ha, Hb.
      pose proof (Ha _ Hin') as H1. pose proof (Hb _ Hin) as H2.
      apply ltb_asym in H1. unfold str_lt in H2. congruence. }
    f_equal. apply IH; auto. eapply Permutation_cons_inv; exact Hp.
Qed.

Lemma sort_perm_eq l l' :
  NoDup l -> Permutation l l' -> JsObject.sort l = JsObject.sort l'.
Proof.
  intros Hnd Hp. apply sorted_perm_eq.
  - now apply sort_sorted.
  - apply sort_sorted. eapply Permutation_NoDup; eauto.
  - rewrite (sort_perm l), (sort_perm l'). exact Hp.
Qed.

Lemma sorted_filter (p : key -> bool) l :
  StronglySorted str_lt l -> StronglySorted str_lt (filter p l).
Proof.
  induction 1 as [|x l Hs IH Hx]; simpl; [constructor|].
  destruct (p x); [|exact IH].
  constructor; [exact IH|]. rewrite Forall_forall in *.
  intros y Hy. apply filter_In in Hy. now apply Hx.
Qed.

Lemma sorted_ascending l :
  StronglySorted str_lt l -> ascending JsString.ltb l = true.
Proof.
  induction 1 as [|x l Hs IH Hx]; [reflexivity|].
  destruct l as [|y l]; [reflexivity|].
  change (JsString.ltb x y && ascending JsString.ltb (y :: l) = true).
  rewrite IH, andb_true_r.
  inversion Hx; subst. assumption.
Qed.


(** ** Own properties *)

Lemma includes_In l k : includes l k = true <-> In k l.
Proof.
  unfold includes. rewrite existsb_exists. split.
  - intros (x & Hx & E). apply eqb_eq in E. now subst.
  - intros H. exists k. split; [exact H | apply eqb_refl].
Qed.

Lemma includes_false l k : includes l k = false <-> ~ In k l.
Proof.
  rewrite <- includes_In. destruct (includes l k); split; congruence.
Qed.

Lemma distinct_NoDup l : distinct l = true <-> NoDup l.
Proof.
  induction l as [|k l IH]; simpl.
  - split; [constructor | reflexivity].
  - rewrite andb_true_iff, negb_true_iff, includes_false, IH. split.
    + intros [? ?]. now constructor.
    + inversion 1; subst. now split.
Qed.

Section OwnProperties.
Context {V : Type}.
Implicit Types (o : obj V) (k : key) (v : V).

Lemma own_get_In o k v : own_get o k = Some v -> In (k, v) o.
Proof.
  induction o as [|[k' v'] o IH]; simpl; [discriminate|].
  destruct (JsString.eqb k k') eqn:E.
  - apply eqb_eq in E. subst. intros [= ->]. now left.
  - intros H. right. now apply IH.
Qed.

Lemma own_get_None o k : own_get o k = None <-> ~ In k (keys o).
Proof.
  induction o as [|[k' v'] o IH]; simpl; [tauto|].
  destruct (JsString.eqb k k') eqn:E.
  - apply eqb_eq in E. subst. split; [discriminate | intros C; exfalso; auto].
  - apply eqb_neq in E. rewrite IH. split; [intros H [C|C]; congruence | tauto].
Qed.

Lemma has_own_In o k : has_own o k = true <-> In k (keys o).
Proof.
  unfold has_own. destruct (own_get o k) eqn:E.
  - split; [|reflexivity]. intros _. apply own_get_In in E.
    apply (in_map fst) in E. exact E.
  - apply own_get_None in E. split; [discriminate | tauto].
Qed.

Lemma has_own_false o k : has_own o k = false <-> ~ In k (keys o).
Proof.
  rewrite <- has_own_In. destruct (has_own o k); split; congruence.
Qed.

Lemma In_own_get o k v : NoDup (keys o) -> In (k, v) o -> own_get o k = Some v.
Proof.
  induction o as [|[k' v'] o IH]; simpl; [tauto|].
  intros Hnd [H|H]; inversion Hnd as [|? ? Hk Hnd']; subst.
  - inversion H; subst. now rewrite eqb_refl.
  - destruct (JsString.eqb k k') eqn:E; [|now apply IH].
    apply eqb_eq in E. subst. exfalso. apply Hk.
    apply (in_map fst) in H. exact H.
Qed.

Lemma NoDup_keys_entries o : NoDup (keys o) -> NoDup o.
Proof. apply NoDup_map_inv. Qed.

(** A map is its lookup function: two key-distinct lists with the same
    lookups hold the same entries. *)
Lemma same_lookups_perm o o' :
  NoDup (keys o) -> NoDup (keys o') ->
  (forall k, own_get o k = own_get o' k) -> Permutation o o'.
Proof.
  intros H H' Hget. apply NoDup_Permutation; try now apply NoDup_keys_entries.
  intros [k v]. split; intros Hin.
  - apply own_get_In. rewrite <- Hget. now apply In_own_get.
  - apply own_get_In. rewrite Hget. now apply In_own_get.
Qed.

Lemma perm_same_lookups o o' k :
  NoDup (keys o) -> Permutation o o' -> own_get o k = own_get o' k.
Proof.
  intros Hnd Hp.
  assert (Hnd' : NoDup (keys o')).
  { eapply Permutation_NoDup; [apply Permutation_map; exact Hp | exact Hnd]. }
  destruct (own_get o k) as [v|] eqn:E.
  - symmetry. apply In_own_get; [exact Hnd'|].
    eapply Permutation_in; [exact Hp | now apply own_get_In].
  - symmetry. apply own_get_None. apply own_get_None in E. intros C. apply E.
    eapply Permutation_in; [apply Permutation_sym, Permutation_map; exact Hp | exact C].
Qed.

Lemma keys_replace k v o : keys (replace k v o) = keys o.
Proof.
  unfold keys. induction o as [|[k' v'] o IH]; simpl; [reflexivity|].
  destruct (JsString.eqb k k') eqn:E; simpl.
  - apply eqb_eq in E. now subst.
  - now rewrite IH.
Qed.

Lemma own_get_replace k' v o k :
  has_own o k' = true ->
  own_get (replace k' v o) k = if JsString.eqb k k' then Some v else own_get o k.
Proof.
  unfold has_own. induction o as [|[k2 v2] o IH]; simpl; [discriminate|].
  destruct (JsString.eqb k' k2) eqn:E; simpl.
  - apply eqb_eq in E. subst. intros _. now destruct (JsString.eqb k k2).
  - intros H. specialize (IH H).
    destruct (JsString.eqb k k2) eqn:E2; [|exact IH].
    apply eqb_eq in E2. subst.
    rewrite eqb_sym, E. reflexivity.
Qed.

Lemma insert_index_perm n k v o : Permutation (insert_index n k v o) ((k, v) :: o).
Proof.
  induction o as [|[k' v'] o IH]; simpl; [reflexivity|].
  destruct (array_index k'); [|reflexivity].
  destruct (n <? n0); [reflexivity|].
  rewrite IH. apply perm_swap.
Qed.

Lemma define_fresh_perm o k v :
  has_own o k = false -> Permutation (define o k v) ((k, v) :: o).
Proof.
  intros H. unfold define. rewrite H.
  destruct (array_index k).
  - apply insert_index_perm.
  - apply Permutation_sym, Permutation_cons_append.
Qed.

Lemma keys_define_NoDup o k v : NoDup (keys o) -> NoDup (keys (define o k v)).
Proof.
  intros Hnd. destruct (has_own o k) eqn:E.
  - unfold define. rewrite E, keys_replace. exact Hnd.
  - eapply Permutation_NoDup.
    + apply Permutation_sym, Permutation_map, define_fresh_perm, E.
    + simpl. constructor; [now apply has_own_false | exact Hnd].
Qed.

Lemma own_get_define o k' v k :
  NoDup (keys o) ->
  own_get (define o k' v) k = if JsString.eqb k k' then Some v else own_get o k.
Proof.
  intros Hnd. destruct (has_own o k') eqn:E.
  - unfold define. rewrite E. now apply own_get_replace.
  - rewrite (perm_same_lookups (define o k' v) ((k', v) :: o)).
    + reflexivity.
    + now apply keys_define_NoDup.
    + now apply define_fresh_perm.
Qed.

Lemma In_define o k' v' k v :
  In (k, v) (define o k' v') -> (k, v) = (k', v') \/ In (k, v) o.
Proof.
  destruct (has_own o k') eqn:E.
  - unfold define. rewrite E. clear E.
    induction o as [|[k2 v2] o IH]; simpl; [tauto|].
    destruct (JsString.eqb k' k2); simpl; intuition.
  - intros H. apply (Permutation_in _ (define_fresh_perm o k' v' E)) in H.
    destruct H; auto.
Qed.

Lemma own_get_delete o k' k :
  own_get (delete o k') k = if JsString.eqb k' k then None else own_get o k.
Proof.
  induction o as [|[k2 v2] o IH]; simpl.
  - now destruct (JsString.eqb k' k).
  - destruct (JsString.eqb k' k2) eqn:E; simpl.
    + apply eqb_eq in E. subst. rewrite IH.
      rewrite (eqb_sym k k2). now destruct (JsString.eqb k2 k).
    + rewrite IH. destruct (JsString.eqb k k2) eqn:E2; [|reflexivity].
      apply eqb_eq in E2. subst. now rewrite E.
Qed.

Lemma keys_delete o k' :
  keys (delete o k') = filter (fun k => negb (JsString.eqb k' k)) (keys o).
Proof.
  unfold keys. induction o as [|[k2 v2] o IH]; simpl; [reflexivity|].
  destruct (JsString.eqb k' k2); simpl; now rewrite IH.
Qed.

Lemma delete_NoDup o k' : NoDup (keys o) -> NoDup (keys (delete o k')).
Proof. rewrite keys_delete. apply NoDup_filter. Qed.

Lemma own_get_delete_all ks : forall o k,
  own_get (fold_left delete ks o) k = if includes ks k then None else own_get o k.
Proof.
  induction ks as [|k' ks IH]; intros o k; simpl; [reflexivity|].
  rewrite IH, own_get_delete. rewrite (eqb_sym k k').
  destruct (includes ks k) eqn:E.
  - now rewrite orb_true_r.
  - rewrite orb_false_r. reflexivity.
Qed.

Lemma delete_all_NoDup ks : forall o,
  NoDup (keys o) -> NoDup (keys (fold_left delete ks o)).
Proof.
  induction ks as [|k' ks IH]; intros o H; simpl; [exact H|].
  apply IH. now apply delete_NoDup.
Qed.

Lemma In_delete_all ks : forall o kv, In kv (fold_left delete ks o) -> In kv o.
Proof.
  induction ks as [|k' ks IH]; intros o kv H; simpl in *; [exact H|].
  apply IH in H. unfold delete in H. now apply filter_In in H.
Qed.

(** The spread copy of a key-distinct list. *)
Lemma copy_NoDup (l : list (key * V)) : forall o,
  NoDup (keys o) ->
  NoDup (keys (fold_left (fun copy kv => define copy (fst kv) (snd kv)) l o)).
Proof.
  induction l as [|[k v] l IH]; intros o H; simpl; [exact H|].
  apply IH. now apply keys_define_NoDup.
Qed.

Lemma own_get_copy (l : list (key * V)) : forall o k,
  NoDup (keys o) -> NoDup (keys l) -> (forall x, In x (keys l) -> ~ In x (keys o)) ->
  own_get (fold_left (fun copy kv => define copy (fst kv) (snd kv)) l o) k =
  match own_get o k with Some v => Some v | None => own_get l k end.
Proof.
  induction l as [|[k' v'] l IH]; intros o k Ho Hl Hd; simpl.
  - now destruct (own_get o k).
  - inversion Hl as [|? ? Hk' Hl']; subst.
    rewrite IH; [| now apply keys_define_NoDup | exact Hl' |].
    + rewrite own_get_define by exact Ho.
      destruct (JsString.eqb k k') eqn:E; [|reflexivity].
      apply eqb_eq in E. subst.
      assert (own_get o k' = None) as ->; [|reflexivity].
      apply own_get_None. apply Hd. now left.
    + intros x Hx C. apply has_own_In in C. unfold has_own in C.
      rewrite own_get_define in C by exact Ho.
      destruct (JsString.eqb x k') eqn:E.
      * apply eqb_eq in E. subst. contradiction.
      * fold (has_own o x) in C. apply has_own_In in C.
        apply (Hd x); [now right | exact C].
Qed.

End OwnProperties.


(** ** The loop of [sortObjectKeys] *)

Lemma fold_left_ext {A B : Type} (f g : A -> B -> A) l :
  (forall a x, f a x = g a x) -> forall a, fold_left f l a = fold_left g l a.
Proof.
  intros H. induction l as [|x l IH]; intros a; simpl; [reflexivity|].
  now rewrite H, IH.
Qed.

Lemma sorted_object_fold o :
  sorted_object o = fold_left (sorted_step o) (JsObject.sort (keys o)) [].
Proof. reflexivity. Qed.

(** The object built depends on the properties only, not on their order. *)
Lemma sorted_object_perm o o' :
  NoDup (keys o) -> Permutation o o' -> sorted_object o = sorted_object o'.
Proof.
  intros Hnd Hp. rewrite !sorted_object_fold.
  rewrite (sort_perm_eq (keys o) (keys o') Hnd) by now apply Permutation_map.
  apply fold_left_ext. intros a k. unfold sorted_step.
  now rewrite (perm_same_lookups o o' k Hnd Hp).
Qed.

Lemma own_get_assign (o : obj json) k' v k :
  NoDup (keys o) -> has_own o proto = false ->
  own_get (assign o k' v) k =
  if JsString.eqb k k' && negb (JsString.eqb k proto) then Some v else own_get o k.
Proof.
  intros Hnd Hp. unfold assign. fold proto.
  destruct (JsString.eqb k' proto) eqn:E.
  - apply eqb_eq in E. subst k'. rewrite Hp. simpl.
    destruct (JsString.eqb k proto); reflexivity.
  - simpl. rewrite own_get_define by exact Hnd.
    destruct (JsString.eqb k k') eqn:E2; [|reflexivity].
    apply eqb_eq in E2. subst. now rewrite E.
Qed.

Lemma assign_NoDup (o : obj json) k v : NoDup (keys o) -> NoDup (keys (assign o k v)).
Proof.
  intros H. unfold assign.
  destruct (JsString.eqb k (js "__proto__") && negb (has_own o k)); [exact H|].
  now apply keys_define_NoDup.
Qed.

Lemma assign_no_proto (o : obj json) k v :
  NoDup (keys o) -> has_own o proto = false -> has_own (assign o k v) proto = false.
Proof.
  intros Hnd Hp. unfold has_own. rewrite own_get_assign by assumption.
  rewrite eqb_refl, andb_false_r. exact Hp.
Qed.

Lemma includes_cons k' ks k :
  includes (k' :: ks) k = JsString.eqb k k' || includes ks k.
Proof. reflexivity. Qed.

Lemma own_get_sorted_fold o k ks : forall acc,
  NoDup (keys acc) -> has_own acc proto = false ->
  own_get (fold_left (sorted_step o) ks acc) k =
  if includes ks k && negb (JsString.eqb k proto) && has_own o k
  then own_get o k else own_get acc k.
Proof.
  induction ks as [|k' ks IH]; intros acc Hnd Hp; [reflexivity|].
  cbn [fold_left]. rewrite includes_cons.
  assert (Hstep : NoDup (keys (sorted_step o acc k')) /\
                  has_own (sorted_step o acc k') proto = false).
  { unfold sorted_step. destruct (own_get o k'); [|now split].
    split; [now apply assign_NoDup | now apply assign_no_proto]. }
  destruct Hstep as [Hnd' Hp']. rewrite (IH _ Hnd' Hp').
  destruct (includes ks k && negb (JsString.eqb k proto) && has_own o k) eqn:E.
  - apply andb_true_iff in E as [E1 E3]. apply andb_true_iff in E1 as [E1 E2].
    now rewrite E1, E2, E3, orb_true_r.
  - unfold sorted_step. destruct (JsString.eqb k k') eqn:Ek.
    + apply eqb_eq in Ek. subst k'. rewrite orb_true_l. unfold has_own.
      destruct (own_get o k) as [v|] eqn:Eo.
      * rewrite own_get_assign by assumption. rewrite eqb_refl. simpl.
        destruct (JsString.eqb k proto); reflexivity.
      * now rewrite andb_false_r.
    + rewrite orb_false_l, E.
      destruct (own_get o k') as [v|]; [|reflexivity].
      rewrite own_get_assign by assumption. now rewrite Ek.
Qed.

(** The canonical object has the fields of the object it is built from,
    except a field [__proto__], which the assignment does not create. *)
Lemma own_get_sorted_object o k :
  own_get (sorted_object o) k =
  if JsString.eqb k proto then None else own_get o k.
Proof.
  rewrite sorted_object_fold, own_get_sorted_fold; [|constructor|reflexivity].
  simpl. destruct (JsString.eqb k proto); simpl.
  - rewrite andb_false_r. reflexivity.
  - rewrite andb_true_r. unfold has_own.
    destruct (own_get o k) eqn:E.
    + assert (includes (JsObject.sort (keys o)) k = true) as ->; [|reflexivity].
      apply includes_In. eapply Permutation_in; [apply Permutation_sym, sort_perm|].
      apply own_get_In in E. apply (in_map fst) in E. exact E.
    + now rewrite andb_false_r.
Qed.

Lemma In_sorted_fold o kv ks : forall acc,
  In kv (fold_left (sorted_step o) ks acc) -> In kv acc \/ In kv o.
Proof.
  induction ks as [|k' ks IH]; intros acc H; simpl in H; [now left|].
  apply IH in H. destruct H as [H|H]; [|now right].
  unfold sorted_step in H. destruct (own_get o k') as [v|] eqn:E; [|now left].
  unfold assign in H.
  destruct (JsString.eqb k' (js "__proto__") && negb (has_own acc k')); [now left|].
  destruct kv as [k x]. apply In_define in H. destruct H as [H|H]; [|now left].
  inversion H; subst. right. now apply own_get_In.
Qed.

Lemma In_sorted_object o kv : In kv (sorted_object o) -> In kv o.
Proof.
  intros H. rewrite sorted_object_fold in H. apply In_sorted_fold in H.
  destruct H as [[]|H]. exact H.
Qed.

Lemma sorted_fold_NoDup o ks : forall acc,
  NoDup (keys acc) -> NoDup (keys (fold_left (sorted_step o) ks acc)).
Proof.
  induction ks as [|k' ks IH]; intros acc H; simpl; [exact H|].
  apply IH. unfold sorted_step. destruct (own_get o k'); [|exact H].
  now apply assign_NoDup.
Qed.

Lemma sorted_object_NoDup o : NoDup (keys (sorted_object o)).
Proof. rewrite sorted_object_fold. apply sorted_fold_NoDup. constructor. Qed.

(** ** Induction on structured values *)

Lemma json_ind' (P : json -> Prop) :
  P JNull ->
  (forall b, P (JBool b)) ->
  (forall text, P (JNum text)) ->
  (forall s, P (JStr s)) ->
  (forall l, Forall P l -> P (JArr l)) ->
  (forall o, Forall (fun kv => P (snd kv)) o -> P (JObj o)) ->
  forall v, P v.
Proof.
  intros Hnull Hbool Hnum Hstr Harr Hobj.
  fix IH 1. intros [| b | text | s | l | o].
  - exact Hnull.
  - apply Hbool.
  - apply Hnum.
  - apply Hstr.
  - apply Harr. induction l as [|x l IHl]; constructor; [apply IH | exact IHl].
  - apply Hobj. induction o as [|[k x] o IHo]; constructor; [apply IH | exact IHo].
Qed.

Lemma keys_map_values f o : keys (map_values f o) = keys o.
Proof. unfold keys, map_values. rewrite map_map. reflexivity. Qed.

Lemma sortObjectKeys_obj o :
  sortObjectKeys (JObj o) = JObj (sorted_object (map_values sortObjectKeys o)).
Proof. reflexivity. Qed.

(** The equation of the source: [sorted[key] = sortObjectKeys(obj[key])] for
    the keys of [obj] in sorted order. *)
Lemma sortObjectKeys_loop o :
  sortObjectKeys (JObj o) =
  JObj (fold_left
          (fun sorted key =>
             match own_get o key with
             | Some v => assign sorted key (sortObjectKeys v)
             | None => sorted
             end)
          (JsObject.sort (keys o)) []).
Proof.
  rewrite sortObjectKeys_obj, sorted_object_fold, keys_map_values. f_equal.
  apply fold_left_ext. intros a k. unfold sorted_step.
  assert (H : own_get (map_values sortObjectKeys o) k =
              option_map sortObjectKeys (own_get o k)).
  { induction o as [|[k' x] o IH]; simpl; [reflexivity|].
    destruct (JsString.eqb k k'); [reflexivity | exact IH]. }
  rewrite H. now destruct (own_get o k).
Qed.


(** ** Canonical values *)

Lemma well_formed_obj o :
  well_formed (JObj o) = true ->
  NoDup (keys o) /\ Forall (fun kv => well_formed (snd kv) = true) o.
Proof.
  simpl. rewrite andb_true_iff, distinct_NoDup, forallb_forall, Forall_forall. tauto.
Qed.

Lemma well_formed_arr l :
  well_formed (JArr l) = true -> Forall (fun x => well_formed x = true) l.
Proof. simpl. rewrite forallb_forall, Forall_forall. tauto. Qed.

Lemma own_get_map_values f o k :
  own_get (map_values f o) k = option_map f (own_get o k).
Proof.
  induction o as [|[k' x] o IH]; simpl; [reflexivity|].
  destruct (JsString.eqb k k'); [reflexivity | exact IH].
Qed.

(** Two objects with the same keys, whose fields have the same canonical
    values, have the same canonical value. *)
Lemma canonical_by_lookups o o' :
  NoDup (keys o) -> NoDup (keys o') ->
  (forall k, option_map sortObjectKeys (own_get o k) =
             option_map sortObjectKeys (own_get o' k)) ->
  sortObjectKeys (JObj o) = sortObjectKeys (JObj o').
Proof.
  intros Hnd Hnd' Hget. rewrite !sortObjectKeys_obj. f_equal.
  apply sorted_object_perm; [now rewrite keys_map_values|].
  apply same_lookups_perm; rewrite ?keys_map_values; auto.
  intros k. rewrite !own_get_map_values. apply Hget.
Qed.

Lemma same_canonical_keys m o' : Forall2 same_canonical m o' -> keys m = keys o'.
Proof.
  induction 1 as [|[k x] [k' x'] m o' [Hk _] _ IH]; simpl; [reflexivity|].
  simpl in Hk. subst. f_equal. exact IH.
Qed.

Lemma same_canonical_lookups m o' k :
  Forall2 same_canonical m o' ->
  option_map sortObjectKeys (own_get m k) = option_map sortObjectKeys (own_get o' k).
Proof.
  induction 1 as [|[k1 x] [k' x'] m o' [Hk Hx] _ IH]; simpl; [reflexivity|].
  simpl in Hk, Hx. subst k'. destruct (JsString.eqb k k1); [|exact IH].
  simpl. now rewrite Hx.
Qed.

Lemma same_canonical_map_values m o' :
  Forall2 same_canonical m o' ->
  map_values sortObjectKeys m = map_values sortObjectKeys o'.
Proof.
  induction 1 as [|[k1 x] [k' x'] m o' [Hk Hx] _ IH]; simpl; [reflexivity|].
  simpl in Hk, Hx. subst k'. now rewrite Hx, IH.
Qed.

Lemma same_canonical_delete_all ks : forall m o',
  Forall2 same_canonical m o' ->
  Forall2 same_canonical (fold_left delete ks m) (fold_left delete ks o').
Proof.
  induction ks as [|k ks IH]; intros m o' H; simpl; [exact H|].
  apply IH. clear IH. unfold delete.
  induction H as [|[k1 x] [k' x'] m o' [Hk Hx] _ IHf]; simpl; [constructor|].
  simpl in Hk. subst k'. destruct (JsString.eqb k k1); simpl; [exact IHf|].
  constructor; [now split | exact IHf].
Qed.

Lemma same_canonical_indexed l l' :
  Forall2 (fun x x' => sortObjectKeys x = sortObjectKeys x') l l' ->
  Forall2 same_canonical (indexed l) (indexed l').
Proof.
  unfold indexed. intros H.
  rewrite <- (Forall2_length H). generalize (List.length l) at 1 2.
  intros n. generalize 0%nat.
  revert n. induction H as [|x x' l l' Hx _ IH]; intros n s.
  - rewrite !combine_nil. constructor.
  - destruct n as [|n]; simpl; [constructor|].
    constructor; [now split | apply IH].
Qed.

Lemma reordered_elements l l' :
  Forall canonical_under_reordering l ->
  Forall2 reordered l l' ->
  Forall2 (fun x x' => sortObjectKeys x = sortObjectKeys x') l l'.
Proof.
  intros H Hf. induction Hf as [|x x' l l' Hx _ IH]; constructor.
  - inversion H; subst. auto.
  - apply IH. now inversion H.
Qed.

Lemma reordered_fields o m o' :
  Forall (fun kv => canonical_under_reordering (snd kv)) o ->
  Permutation o m ->
  Forall2 (fun kv kv' => fst kv = fst kv' /\ reordered (snd kv) (snd kv')) m o' ->
  Forall2 same_canonical m o'.
Proof.
  intros H Hp Hf.
  assert (Hm : Forall (fun kv => canonical_under_reordering (snd kv)) m).
  { rewrite Forall_forall in *. intros kv Hkv. apply H.
    eapply Permutation_in; [apply Permutation_sym; exact Hp | exact Hkv]. }
  clear H Hp. induction Hf as [|kv kv' m o' [Hk Hx] _ IH]; constructor.
  - inversion Hm; subst. split; auto.
  - apply IH. now inversion Hm.
Qed.

Lemma canonical_fields o m o' :
  NoDup (keys o) -> Permutation o m -> Forall2 same_canonical m o' ->
  NoDup (keys o') /\
  forall k, option_map sortObjectKeys (own_get o k) =
            option_map sortObjectKeys (own_get o' k).
Proof.
  intros Hnd Hp Hs. split.
  - rewrite <- (same_canonical_keys m o' Hs).
    eapply Permutation_NoDup; [apply Permutation_map; exact Hp | exact Hnd].
  - intros k. rewrite (perm_same_lookups o m k Hnd Hp).
    now apply same_canonical_lookups.
Qed.

Lemma Forall_impl2 {A : Type} (P Q R : A -> Prop) l :
  (forall x, P x -> Q x -> R x) -> Forall P l -> Forall Q l -> Forall R l.
Proof.
  intros H HP HQ. rewrite Forall_forall in *. auto.
Qed.

(** Reordering the keys of a value, at any depth, does not change what
    [sortObjectKeys] returns. *)
Lemma sortObjectKeys_reordered v :
  well_formed v = true -> canonical_under_reordering v.
Proof.
  unfold canonical_under_reordering.
  induction v as [| b | text | s | l IH | o IH] using json_ind';
    intros Hwf v' Hr; inversion Hr; subst; try reflexivity.
  - (* sequences *)
    simpl. f_equal. apply well_formed_arr in Hwf.
    assert (Hc : Forall canonical_under_reordering l)
      by (eapply Forall_impl2; [|exact IH|exact Hwf]; simpl; auto).
    match goal with Hf : Forall2 reordered _ _ |- _ =>
      pose proof (reordered_elements _ _ Hc Hf) as He end.
    clear - He. induction He as [|x x' l l' Hx _ IHl]; simpl; [reflexivity|].
    now rewrite Hx, IHl.
  - (* mappings *)
    apply well_formed_obj in Hwf as [Hnd Hwf].
    assert (Hc : Forall (fun kv => canonical_under_reordering (snd kv)) o)
      by (eapply Forall_impl2; [|exact IH|exact Hwf]; simpl; auto).
    match goal with Hp : Permutation o _, Hf : Forall2 _ m _ |- _ =>
      pose proof (reordered_fields _ _ _ Hc Hp Hf) as Hs;
      destruct (canonical_fields _ _ _ Hnd Hp Hs) as [Hnd' Hget] end.
    now apply canonical_by_lookups.
Qed.

Lemma copy_lookups (o : obj json) k :
  NoDup (keys o) ->
  own_get (fold_left (fun copy kv => define copy (fst kv) (snd kv)) o []) k = own_get o k.
Proof.
  intros H. rewrite own_get_copy; auto. constructor.
Qed.

Lemma copy_keys_NoDup (o : obj json) :
  NoDup (keys (fold_left (fun copy kv => define copy (fst kv) (snd kv)) o [])).
Proof. apply copy_NoDup. constructor. Qed.

Lemma well_formed_canonical_under_reordering l :
  Forall (fun x => well_formed x = true) l -> Forall canonical_under_reordering l.
Proof.
  apply Forall_impl. intros x. apply sortObjectKeys_reordered.
Qed.

(** C1: [hashObject] is a function of its two arguments, so repeated calls
    agree; and for every structured value [v] (the keys of each mapping
    distinct) and every exclusion list, a copy [v'] of [v] whose mappings
    list their keys in another order, at the top or at any depth, has the
    same digest. *)
Theorem hashObject_key_order_invariant (v v' : json) (excludeKeys : list key) :
  well_formed v = true ->
  reordered v v' ->
  hashObject v excludeKeys = hashObject v' excludeKeys.
Proof.
  intros Hwf Hr. unfold hashObject. do 2 f_equal. unfold canonical.
  inversion Hr; subst; try reflexivity.
  - (* a sequence at the top: its elements sit under the indices *)
    rewrite !sortObjectKeys_obj. do 2 f_equal.
    apply same_canonical_map_values, same_canonical_delete_all.
    unfold spread. apply same_canonical_indexed.
    apply reordered_elements; [|assumption].
    apply well_formed_canonical_under_reordering, well_formed_arr, Hwf.
  - (* a mapping at the top *)
    apply well_formed_obj in Hwf as [Hnd Hwf].
    assert (Hc : Forall (fun kv => canonical_under_reordering (snd kv)) o).
    { revert Hwf. apply Forall_impl. intros kv. apply sortObjectKeys_reordered. }
    match goal with Hp : Permutation o _, Hf : Forall2 _ m _ |- _ =>
      pose proof (reordered_fields _ _ _ Hc Hp Hf) as Hs;
      destruct (canonical_fields _ _ _ Hnd Hp Hs) as [Hnd' Hget] end.
    apply canonical_by_lookups.
    + apply delete_all_NoDup, copy_keys_NoDup.
    + apply delete_all_NoDup, copy_keys_NoDup.
    + intros k. rewrite !own_get_delete_all. unfold spread, entries.
      destruct (includes (alwaysExcluded ++ excludeKeys) k); [reflexivity|].
      rewrite !copy_lookups by assumption. apply Hget.
Qed.


Lemma hashObject_key_order_invariant_witness :
  hashObject Sample.post [js "slug"] = hashObject Sample.post' [js "slug"].
Proof.
  apply (hashObject_key_order_invariant Sample.post Sample.post' [js "slug"]).
  - vm_compute. reflexivity.
  - apply ro_obj with (m := [(js "meta", Sample.meta); (js "title", JStr (js "t"))]).
    + apply perm_swap.
    + constructor; [split; [reflexivity|] | constructor; [split; [reflexivity|apply ro_str] | constructor]].
      apply ro_obj with (m := [(js "a", JArr [Sample.inner]); (js "b", JNum (js "1"))]).
      * apply perm_swap.
      * constructor; [split; [reflexivity|] | constructor; [split; [reflexivity|apply ro_num] | constructor]].
        apply ro_arr. constructor; [|constructor].
        apply ro_obj with (m := [(js "x", JBool true); (js "y", JNull)]).
        -- apply perm_swap.
        -- constructor; [split; [reflexivity|apply ro_bool] | constructor; [split; [reflexivity|apply ro_null] | constructor]].
Defined.

(** ** Exclusion of the dynamic fields *)

Lemma canonical_obj_lookup o excludeKeys :
  distinct (keys o) = true ->
  exists c, canonical (JObj o) excludeKeys = JObj c /\
    forall k, own_get c k =
              if JsString.eqb k proto || includes (alwaysExcluded ++ excludeKeys) k
              then None else option_map sortObjectKeys (own_get o k).
Proof.
  intros Hd. apply distinct_NoDup in Hd. unfold canonical.
  rewrite sortObjectKeys_obj. eexists. split; [reflexivity|].
  intros k. rewrite own_get_sorted_object, own_get_map_values, own_get_delete_all.
  unfold spread, entries. rewrite copy_lookups by exact Hd.
  destruct (JsString.eqb k proto); [reflexivity|].
  now destruct (includes (alwaysExcluded ++ excludeKeys) k).
Qed.

Lemma canonical_excluded o o' excludeKeys :
  distinct (keys o) = true -> distinct (keys o') = true ->
  (forall k, includes (alwaysExcluded ++ excludeKeys) k = false ->
             own_get o k = own_get o' k) ->
  canonical (JObj o) excludeKeys = canonical (JObj o') excludeKeys.
Proof.
  intros Hd Hd' Hsame. apply distinct_NoDup in Hd, Hd'. unfold canonical.
  apply canonical_by_lookups.
  - apply delete_all_NoDup, copy_keys_NoDup.
  - apply delete_all_NoDup, copy_keys_NoDup.
  - intros k. rewrite !own_get_delete_all. unfold spread, entries.
    destruct (includes (alwaysExcluded ++ excludeKeys) k) eqn:E; [reflexivity|].
    rewrite !copy_lookups by assumption. now rewrite Hsame.
Qed.

(** ** Array indices *)

Lemma to_N_app l c : to_N (l ++ [c]) = 10 * to_N l + (c - 48).
Proof. unfold to_N. rewrite fold_left_app. reflexivity. Qed.

Lemma to_N_digits_rev fuel : forall n,
  n < 2 ^ N.of_nat fuel -> to_N (rev (digits_rev fuel n)) = n.
Proof.
  induction fuel as [|fuel IH]; intros n Hn.
  - simpl in Hn. assert (n = 0) by lia. now subst.
  - cbn [digits_rev rev]. rewrite to_N_app.
    rewrite (N.add_comm 48), N.add_sub.
    destruct (N.ltb_spec n 10) as [Hlt|Hge].
    + cbn. rewrite N.mod_small by exact Hlt. reflexivity.
    + rewrite IH.
      * symmetry. apply N.div_mod. discriminate.
      * rewrite Nat2N.inj_succ, N.pow_succ_r' in Hn.
        apply N.Div0.div_lt_upper_bound. lia.
Qed.

Lemma to_N_of_N n : to_N (JsString.of_N n) = n.
Proof.
  unfold JsString.of_N. apply to_N_digits_rev.
  rewrite Nat2N.inj_succ, N2Nat.id.
  destruct n as [|p]; [reflexivity|].
  apply N.log2_spec. reflexivity.
Qed.

Lemma of_N_inj n m : JsString.of_N n = JsString.of_N m -> n = m.
Proof. intros H. rewrite <- (to_N_of_N n), <- (to_N_of_N m). now rewrite H. Qed.

Lemma array_index_of_N k n : array_index k = Some n -> k = JsString.of_N n.
Proof.
  unfold array_index.
  destruct (forallb is_digit k); simpl; [|discriminate].
  destruct (JsString.eqb (JsString.of_N (to_N k)) k) eqn:E; simpl; [|discriminate].
  destruct (to_N k <? 0xFFFFFFFF); [|discriminate].
  intros [= <-]. apply eqb_eq in E. now symmetry.
Qed.

Lemma array_index_inj a b n :
  array_index a = Some n -> array_index b = Some n -> a = b.
Proof.
  intros Ha Hb. apply array_index_of_N in Ha, Hb. congruence.
Qed.

Lemma keys_combine {V : Type} (ks : list key) : forall (l : list V),
  List.length ks = List.length l -> keys (combine ks l) = ks.
Proof.
  unfold keys. induction ks as [|k ks IH]; intros [|x l] H; simpl in *;
    try discriminate; [reflexivity|].
  f_equal. apply IH. lia.
Qed.

Lemma keys_indexed l :
  keys (indexed l) = map JsString.of_N (map N.of_nat (seq 0 (List.length l))).
Proof.
  unfold indexed. apply keys_combine. now rewrite !length_map, length_seq.
Qed.

Lemma indexed_NoDup l : NoDup (keys (indexed l)).
Proof.
  rewrite keys_indexed, map_map.
  apply NoDup_map_NoDup_ForallPairs; [|apply seq_NoDup].
  intros a b _ _ H. apply of_N_inj in H. lia.
Qed.

(** ** The order of the keys of a canonical object *)

Lemma is_index_false k : is_index k = false <-> array_index k = None.
Proof. unfold is_index. destruct (array_index k); split; congruence. Qed.

Lemma is_index_true k : is_index k = true <-> exists n, array_index k = Some n.
Proof.
  unfold is_index. destruct (array_index k) as [n|]; split; try congruence.
  - intros _. now exists n.
  - intros [n C]. discriminate.
Qed.

Section KeyOrder.
Context {V : Type}.
Implicit Types (o : obj V) (k : key) (v : V).

Lemma In_keys_insert_index n k v o x :
  In x (keys (insert_index n k v o)) -> x = k \/ In x (keys o).
Proof.
  intros H.
  apply (Permutation_in _ (Permutation_map fst (insert_index_perm n k v o))) in H.
  destruct H as [H|H]; [left; now symmetry | now right].
Qed.

Lemma insert_index_order n k v o :
  array_index k = Some n -> ~ In k (keys o) ->
  own_order (keys o) -> own_order (keys (insert_index n k v o)).
Proof.
  intros Hk. induction o as [|[k' v'] o IH]; intros Hfresh Ho.
  - simpl. apply oo_index with (n := n); [exact Hk | constructor | now constructor].
  - cbn [insert_index]. destruct (array_index k') as [m|] eqn:Ek'.
    + assert (Hrest : Forall (fun k2 => forall m2, array_index k2 = Some m2 -> m < m2) (keys o)
                      /\ own_order (keys o)).
      { inversion Ho as [ks Hall|k2 n2 rest Hk2 Hall Hrest]; subst.
        - inversion Hall as [|? ? Hn _]; subst.
          apply is_index_false in Hn. congruence.
        - rewrite Ek' in Hk2. injection Hk2 as <-. now split. }
      destruct Hrest as [Hall Hrest].
      destruct (N.ltb_spec n m) as [Hlt|Hge].
      * apply oo_index with (n := n); [exact Hk | | exact Ho].
        constructor.
        -- intros m2 Hm2. simpl in Hm2. rewrite Ek' in Hm2. injection Hm2 as <-. exact Hlt.
        -- rewrite Forall_forall in *. intros x Hx m2 Hm2.
           specialize (Hall x Hx m2 Hm2). lia.
      * assert (Hne : n <> m).
        { intros ->. apply Hfresh. left. simpl.
          eapply array_index_inj; eauto. }
        change (own_order (k' :: keys (insert_index n k v o))).
        apply oo_index with (n := m); [exact Ek' | |].
        -- rewrite Forall_forall in *. intros x Hx m2 Hm2.
           apply In_keys_insert_index in Hx. destruct Hx as [->|Hx].
           ++ rewrite Hk in Hm2. injection Hm2 as <-. lia.
           ++ now apply (Hall x Hx).
        -- apply IH; [|exact Hrest]. intros C. apply Hfresh. now right.
    + change (own_order (k :: keys ((k', v') :: o))).
      apply oo_index with (n := n); [exact Hk | | exact Ho].
      inversion Ho as [ks Hall|k2 n2 rest Hk2 Hall Hrest]; subst.
      * rewrite Forall_forall in *. intros x Hx m2 Hm2.
        specialize (Hall x Hx). apply is_index_false in Hall. congruence.
      * simpl in Hk2. congruence.
Qed.

Lemma append_name_order ks k :
  is_index k = false -> own_order ks -> own_order (ks ++ [k]).
Proof.
  intros Hk. induction 1 as [ks Hall|k' n rest Hk' Hall Hrest IH].
  - apply oo_names. apply Forall_app. split; [exact Hall | now repeat constructor].
  - simpl. apply oo_index with (n := n); [exact Hk' | | exact IH].
    apply Forall_app. split; [exact Hall|]. repeat constructor.
    intros m Hm. apply is_index_false in Hk. congruence.
Qed.

Lemma define_order o k v : own_order (keys o) -> own_order (keys (define o k v)).
Proof.
  intros Ho. unfold define. destruct (has_own o k) eqn:E.
  - now rewrite keys_replace.
  - apply has_own_false in E. destruct (array_index k) as [n|] eqn:Ek.
    + now apply insert_index_order.
    + unfold keys. rewrite map_app. apply append_name_order; [|exact Ho].
      now apply is_index_false.
Qed.

Lemma names_insert_index n k v o :
  is_index k = true -> names (keys (insert_index n k v o)) = names (keys o).
Proof.
  intros Hk. induction o as [|[k' v'] o IH]; cbn [insert_index].
  - simpl. unfold names. simpl. now rewrite Hk.
  - destruct (array_index k') as [m|] eqn:Ek'.
    + destruct (n <? m).
      * unfold names. simpl. now rewrite Hk.
      * unfold names in *. unfold keys in *. simpl. now rewrite IH.
    + unfold names. simpl. now rewrite Hk.
Qed.

(** A key that is not an index is created last; everything else leaves
    the names where they are. *)
Lemma names_define o k v :
  names (keys (define o k v)) = names (keys o) \/
  (~ In k (keys o) /\ names (keys (define o k v)) = names (keys o) ++ [k]).
Proof.
  unfold define. destruct (has_own o k) eqn:E.
  - left. now rewrite keys_replace.
  - destruct (array_index k) as [n|] eqn:Ek.
    + left. apply names_insert_index. apply is_index_true. now exists n.
    + right. split; [now apply has_own_false|].
      unfold names, keys. rewrite map_app, filter_app. simpl.
      apply is_index_false in Ek. now rewrite Ek.
Qed.

Lemma In_keys_define o k v x :
  In x (keys (define o k v)) -> x = k \/ In x (keys o).
Proof.
  unfold keys. intros H. apply in_map_iff in H as ([k' v'] & <- & H).
  apply In_define in H. destruct H as [H|H].
  - left. now inversion H.
  - right. apply (in_map fst) in H. exact H.
Qed.

End KeyOrder.


Lemma assign_order (o : obj json) k v :
  own_order (keys o) -> own_order (keys (assign o k v)).
Proof.
  intros H. unfold assign.
  destruct (JsString.eqb k (js "__proto__") && negb (has_own o k)); [exact H|].
  now apply define_order.
Qed.

Lemma names_assign (o : obj json) k v :
  names (keys (assign o k v)) = names (keys o) \/
  (~ In k (keys o) /\ names (keys (assign o k v)) = names (keys o) ++ [k]).
Proof.
  unfold assign.
  destruct (JsString.eqb k (js "__proto__") && negb (has_own o k)); [now left|].
  apply names_define.
Qed.

Lemma In_keys_assign (o : obj json) k v x :
  In x (keys (assign o k v)) -> x = k \/ In x (keys o).
Proof.
  unfold assign.
  destruct (JsString.eqb k (js "__proto__") && negb (has_own o k)); [now right|].
  apply In_keys_define.
Qed.

Lemma sorted_snoc l k :
  StronglySorted str_lt l -> Forall (fun x => str_lt x k) l ->
  StronglySorted str_lt (l ++ [k]).
Proof.
  induction 1 as [|x l Hs IH Hx]; intros Hk; simpl.
  - repeat constructor.
  - inversion Hk; subst. constructor; [now apply IH|].
    apply Forall_app. split; [exact Hx | now repeat constructor].
Qed.

Lemma sorted_fold_order o ks : forall acc,
  own_order (keys acc) -> own_order (keys (fold_left (sorted_step o) ks acc)).
Proof.
  induction ks as [|k ks IH]; intros acc H; simpl; [exact H|].
  apply IH. unfold sorted_step. destruct (own_get o k); [|exact H].
  now apply assign_order.
Qed.

Lemma sorted_fold_names o ks : forall acc,
  StronglySorted str_lt ks ->
  StronglySorted str_lt (names (keys acc)) ->
  (forall a k, In a (keys acc) -> In k ks -> str_lt a k) ->
  StronglySorted str_lt (names (keys (fold_left (sorted_step o) ks acc))).
Proof.
  induction ks as [|k ks IH]; intros acc Hks Hacc Hlt; simpl; [exact Hacc|].
  inversion Hks as [|? ? Hks' Hk]; subst. rewrite Forall_forall in Hk.
  apply IH; [exact Hks' | |].
  - unfold sorted_step. destruct (own_get o k) as [v|]; [|exact Hacc].
    destruct (names_assign acc k v) as [->|[_ ->]]; [exact Hacc|].
    apply sorted_snoc; [exact Hacc|]. rewrite Forall_forall.
    intros a Ha. apply filter_In in Ha as [Ha _]. apply Hlt; [exact Ha | now left].
  - intros a k' Ha Hk'. unfold sorted_step in Ha.
    destruct (own_get o k) as [v|].
    + apply In_keys_assign in Ha. destruct Ha as [->|Ha].
      * now apply Hk.
      * apply Hlt; [exact Ha | now right].
    + apply Hlt; [exact Ha | now right].
Qed.

Lemma no_index_filter ks :
  Forall (fun k => is_index k = false) ks ->
  filter is_index ks = [] /\ names ks = ks.
Proof.
  unfold names. induction 1 as [|k ks Hk _ [IH1 IH2]]; simpl; [now split|].
  rewrite Hk. simpl. split; [exact IH1 | now f_equal].
Qed.

Lemma own_order_split ks :
  own_order ks -> ks = filter is_index ks ++ names ks.
Proof.
  induction 1 as [ks Hall|k n rest Hk Hall Hrest IH].
  - destruct (no_index_filter ks Hall) as [-> ->]. reflexivity.
  - unfold names in *. simpl.
    assert (is_index k = true) as -> by (apply is_index_true; now exists n).
    simpl. now f_equal.
Qed.

Lemma own_order_indices ks :
  own_order ks -> ascending index_ltb (filter is_index ks) = true.
Proof.
  induction 1 as [ks Hall|k n rest Hk Hall Hrest IH].
  - destruct (no_index_filter ks Hall) as [-> _]. reflexivity.
  - simpl. assert (is_index k = true) as -> by (apply is_index_true; now exists n).
    destruct (filter is_index rest) as [|k2 r] eqn:E; [reflexivity|].
    change (index_ltb k k2 && ascending index_ltb (k2 :: r) = true).
    rewrite IH, andb_true_r.
    assert (Hin : In k2 (filter is_index rest)) by (rewrite E; now left).
    apply filter_In in Hin as [Hin Hidx]. apply is_index_true in Hidx as [m Hm].
    rewrite Forall_forall in Hall. specialize (Hall k2 Hin m Hm).
    unfold index_ltb. rewrite Hk, Hm. now apply N.ltb_lt.
Qed.

Lemma keys_eqb_refl ks : keys_eqb ks ks = true.
Proof. unfold keys_eqb. now destruct (list_eq_dec (list_eq_dec N.eq_dec) ks ks). Qed.

Lemma own_order_spec ks :
  own_order ks -> StronglySorted str_lt (names ks) ->
  indices_then_ascending ks = true.
Proof.
  intros Ho Hn. unfold indices_then_ascending. fold (names ks).
  rewrite <- (own_order_split ks Ho), keys_eqb_refl.
  rewrite (own_order_indices ks Ho). now rewrite (sorted_ascending _ Hn).
Qed.

(** The keys of the object that the loop of [sortObjectKeys] builds. *)
Lemma sorted_object_order o :
  NoDup (keys o) -> indices_then_ascending (keys (sorted_object o)) = true.
Proof.
  intros Hnd. rewrite sorted_object_fold. apply own_order_spec.
  - apply sorted_fold_order. apply oo_names. constructor.
  - apply sorted_fold_names.
    + now apply sort_sorted.
    + constructor.
    + intros a k [].
Qed.

Lemma every_object_sortObjectKeys v :
  well_formed v = true ->
  every_object indices_then_ascending (sortObjectKeys v) = true.
Proof.
  induction v as [| b | text | s | l IH | o IH] using json_ind';
    intros Hwf; try reflexivity.
  - simpl. apply forallb_forall. intros x Hx.
    apply in_map_iff in Hx as (x0 & <- & Hx0).
    apply well_formed_arr in Hwf. rewrite Forall_forall in IH, Hwf. auto.
  - apply well_formed_obj in Hwf as [Hnd Hwf].
    rewrite sortObjectKeys_obj. cbn [every_object].
    rewrite sorted_object_order by now rewrite keys_map_values.
    apply forallb_forall. intros kv Hkv. apply In_sorted_object in Hkv.
    apply in_map_iff in Hkv as (kv0 & <- & Hkv0).
    rewrite Forall_forall in IH, Hwf. simpl. auto.
Qed.

Lemma every_object_impl (p q : list key -> bool) v :
  (forall ks, p ks = true -> q ks = true) ->
  every_object p v = true -> every_object q v = true.
Proof.
  intros Hpq.
  induction v as [| b | text | s | l IH | o IH] using json_ind';
    try reflexivity; simpl.
  - rewrite !forallb_forall. intros H x Hx.
    rewrite Forall_forall in IH. auto.
  - rewrite !andb_true_iff, !forallb_forall. intros [Hp H]. split; [auto|].
    intros kv Hkv. rewrite Forall_forall in IH. auto.
Qed.

Lemma In_copy (l : list (key * json)) kv : forall o,
  In kv (fold_left (fun copy kv => define copy (fst kv) (snd kv)) l o) ->
  In kv o \/ In kv l.
Proof.
  induction l as [|[k x] l IH]; intros o H; simpl in H; [now left|].
  apply IH in H. destruct H as [H|H]; [|right; now right].
  destruct kv as [k0 x0]. apply In_define in H. destruct H as [H|H]; [|now left].
  right. left. now symmetry.
Qed.

Lemma well_formed_filtered v excludeKeys :
  well_formed v = true ->
  well_formed (JObj (fold_left delete (alwaysExcluded ++ excludeKeys) (spread v))) = true.
Proof.
  intros Hwf. cbn [well_formed]. apply andb_true_iff. split.
  - apply distinct_NoDup, delete_all_NoDup.
    destruct v; try constructor.
    + apply indexed_NoDup.
    + apply indexed_NoDup.
    + apply copy_keys_NoDup.
  - apply forallb_forall. intros kv Hkv. apply In_delete_all in Hkv.
    destruct v as [| b | text | s | l | o]; try contradiction.
    + unfold spread, indexed in Hkv. destruct kv as [k x].
      apply in_combine_r in Hkv. apply in_map_iff in Hkv as (c & <- & _). reflexivity.
    + unfold spread, indexed in Hkv. destruct kv as [k x].
      apply in_combine_r in Hkv. apply well_formed_arr in Hwf.
      rewrite Forall_forall in Hwf. now apply Hwf.
    + unfold spread, entries in Hkv. apply In_copy in Hkv as [[]|Hkv].
      apply well_formed_obj in Hwf as [_ Hwf]. rewrite Forall_forall in Hwf.
      now apply Hwf.
Qed.

Lemma indices_then_ascending_names ks :
  indices_then_ascending ks = true -> ascending_without_indices ks = true.
Proof.
  unfold indices_then_ascending, ascending_without_indices, keys_ascending.
  rewrite !andb_true_iff. intros [[_ _] Hn].
  destruct (existsb is_index ks) eqn:E; [reflexivity|]. simpl.
  assert (H : filter (fun k => negb (is_index k)) ks = ks).
  { clear Hn. induction ks as [|k ks IH]; simpl in *; [reflexivity|].
    apply orb_false_iff in E as [-> E]. simpl. f_equal. auto. }
  now rewrite H in Hn.
Qed.


(** C3 as the specification words it does not hold: for the keys [10] and
    [2] the canonical text lists [2] before [10], while [10] is below [2]
    in lexicographic order. *)
Lemma canonical_keys_ascending_counterexample :
  well_formed Sample.ten_and_two = true /\
  stringify (canonical Sample.ten_and_two []) = jsq "{'2':'b','10':'a'}" /\
  JsString.ltb (js "10") (js "2") = true /\
  every_object keys_ascending (canonical Sample.ten_and_two []) = false.
Proof. vm_compute. auto. Qed.

(** C3 (amended): in the canonical value that [hashObject] serialises, every
    mapping, at the top and at every depth, has its array-index keys (the
    decimal texts of the integers up to [2^32 - 2]) first, in ascending
    numeric order, followed by its other keys in ascending lexicographic
    order; a mapping without array-index keys is therefore in ascending
    lexicographic order.  [JSON.stringify] writes the members in that
    order, [sortObjectKeys] keeps the elements of a sequence in place and
    returns scalars and [null] unchanged. *)
Theorem canonical_key_order (v : json) (excludeKeys : list key) :
  well_formed v = true ->
  every_object indices_then_ascending (canonical v excludeKeys) = true
  /\ every_object ascending_without_indices (canonical v excludeKeys) = true
  /\ (forall o,
        stringify (JObj o) =
        js "{" ++ join (js ",")
                    (map (fun kv => quote (fst kv) ++ js ":" ++ stringify (snd kv)) o)
        ++ js "}")
  /\ (forall l, sortObjectKeys (JArr l) = JArr (map sortObjectKeys l))
  /\ sortObjectKeys JNull = JNull
  /\ (forall b, sortObjectKeys (JBool b) = JBool b)
  /\ (forall text, sortObjectKeys (JNum text) = JNum text)
  /\ (forall s, sortObjectKeys (JStr s) = JStr s).
Proof.
  intros Hwf.
  assert (H : every_object indices_then_ascending (canonical v excludeKeys) = true).
  { unfold canonical. apply every_object_sortObjectKeys.
    now apply well_formed_filtered. }
  split; [exact H|]. split.
  - revert H. apply every_object_impl. apply indices_then_ascending_names.
  - repeat split.
Qed.

Lemma canonical_key_order_witness :
  every_object indices_then_ascending (canonical Sample.mixed_keys [js "slug"]) = true.
Proof.
  apply (canonical_key_order Sample.mixed_keys [js "slug"]). vm_compute. reflexivity.
Defined.

(** ** The builder *)

Ltac destruct_result :=
  match goal with
  | H : context [match ?r with Ok _ => _ | Err _ => _ end] |- _ =>
      destruct r eqn:?; try discriminate
  | H : context [if ?b then _ else _] |- _ =>
      destruct b eqn:?; try discriminate
  end.

(** C4: in every record that [generateChecksums] returns, [combined] is the
    digest of the serialisation of the returned [files] followed by the
    serialisation of the returned [media], an absent [media] being
    serialised as the empty mapping. *)
Theorem generateChecksums_combined
    (parse : list byte -> option json) (now : jsstring)
    (root : Fs.node) (contentDir : Fs.path) (checksums : Checksums) :
  generateChecksums parse now root contentDir = Ok checksums ->
  combined checksums =
  hashString (stringify (of_strings (or_empty (files checksums)))
              ++ stringify (of_strings (or_empty (media checksums))))
  /\ combined checksums =
     digestOfText (stableSerialize (or_empty (files checksums))
                   ++ stableSerialize (or_empty (media checksums))).
Proof.
  unfold generateChecksums, Result.bind. intros H.
  repeat destruct_result; injection H as <-; split; reflexivity.
Qed.


Lemma generateChecksums_combined_witness :
  match generateChecksums Sample.parse_metadata (js "2024-01-01T00:00:00.000Z")
          Sample.tree [js "post"] with
  | Ok checksums =>
      combined checksums =
      hashString (stringify (of_strings (or_empty (files checksums)))
                  ++ stringify (of_strings (or_empty (media checksums))))
  | Err _ => False
  end.
Proof.
  destruct (generateChecksums Sample.parse_metadata (js "2024-01-01T00:00:00.000Z")
              Sample.tree [js "post"]) as [checksums|e] eqn:E.
  - apply (generateChecksums_combined _ _ _ _ _ E).
  - vm_compute in E. discriminate.
Defined.

(** ** The full comparison *)

Lemma fold_push_filter {A : Type} (p : A -> bool) (f : A -> jsstring) l : forall acc,
  fold_left (fun acc x => if p x then push acc (f x) else acc) l acc
  = acc ++ map f (filter p l).
Proof.
  induction l as [|x l IH]; intros acc; simpl; [now rewrite app_nil_r|].
  rewrite IH. destruct (p x); [|reflexivity].
  unfold push. simpl. now rewrite <- app_assoc.
Qed.

Lemma compareChecksums_full fresh stored :
  combined fresh <> combined stored ->
  compareChecksums fresh (Some stored) =
  let changedFiles :=
    changed_entries (or_empty (files stored)) (or_empty (files fresh)) in
  let changedMedia :=
    new_entries (or_empty (media stored)) (keys (or_empty (media fresh)))
      (changed_entries (or_empty (media stored)) (or_empty (media fresh))) in
  let changed := negb (isEmpty changedFiles) || negb (isEmpty changedMedia) in
  {| changed := changed;
     reason := if changed then js "content-changed" else js "match";
     details_files := changedFiles;
     details_media := changedMedia |}.
Proof.
  intros H. apply eqb_neq in H. unfold compareChecksums. rewrite H.
  unfold entries, changed_entries, new_entries. rewrite !fold_push_filter.
  reflexivity.
Qed.

Lemma compareChecksums_details fresh stored :
  (details_files (compareChecksums fresh (Some stored)) = [] /\
   details_media (compareChecksums fresh (Some stored)) = []) \/
  (details_files (compareChecksums fresh (Some stored)) =
     changed_entries (or_empty (files stored)) (or_empty (files fresh)) /\
   details_media (compareChecksums fresh (Some stored)) =
     new_entries (or_empty (media stored)) (keys (or_empty (media fresh)))
       (changed_entries (or_empty (media stored)) (or_empty (media fresh)))).
Proof.
  destruct (list_eq_dec N.eq_dec (combined fresh) (combined stored)) as [E|E].
  - left. unfold compareChecksums. rewrite E, eqb_refl. now split.
  - right. rewrite (compareChecksums_full fresh stored E). now split.
Qed.

Lemma In_changed_entries remote exported f :
  In f (changed_entries remote exported) -> In f (keys exported).
Proof.
  unfold changed_entries, keys. intros H. apply in_map_iff in H as (fh & <- & H).
  apply filter_In in H as [H _]. now apply in_map.
Qed.

Lemma NoDup_map_filter {A B : Type} (f : A -> B) (p : A -> bool) l :
  NoDup (map f l) -> NoDup (map f (filter p l)).
Proof.
  induction l as [|x l IH]; simpl; [auto|]. intros H.
  inversion H as [|? ? Hx Hl]; subst. destruct (p x); simpl; [|auto].
  constructor; [|auto]. intros C. apply Hx.
  apply in_map_iff in C as (y & Hy & C). apply filter_In in C as [C _].
  rewrite <- Hy. now apply in_map.
Qed.

Lemma changed_entries_NoDup remote exported :
  NoDup (keys exported) -> NoDup (changed_entries remote exported).
Proof. apply NoDup_map_filter. Qed.

Lemma In_new_entries remote ks : forall acc f,
  In f (new_entries remote ks acc) -> In f acc \/ In f ks.
Proof.
  induction ks as [|k ks IH]; intros acc f H; simpl in H; [now left|].
  apply IH in H. destruct H as [H|H]; [|right; now right].
  destruct (falsy (get remote k)); [|now left].
  destruct (includes acc k); simpl in H; [now left|].
  unfold push in H. apply in_app_iff in H as [H|[<-|[]]]; [now left | right; now left].
Qed.

Lemma new_entries_NoDup remote ks : forall acc,
  NoDup acc -> NoDup (new_entries remote ks acc).
Proof.
  induction ks as [|k ks IH]; intros acc H; simpl; [exact H|].
  apply IH. destruct (falsy (get remote k)); [|exact H].
  destruct (includes acc k) eqn:E; simpl; [exact H|].
  apply includes_false in E. unfold push.
  apply NoDup_app; [exact H | repeat constructor; auto | ].
  intros x Hx [<-|[]]. contradiction.
Qed.

Lemma new_entries_keeps remote ks : forall acc f,
  In f acc -> In f (new_entries remote ks acc).
Proof.
  induction ks as [|k ks IH]; intros acc f H; simpl; [exact H|].
  apply IH. destruct (falsy (get remote k)); [|exact H].
  destruct (includes acc k); simpl; [exact H|].
  unfold push. apply in_app_iff. now left.
Qed.

Lemma new_entries_none remote ks acc :
  (forall k, In k ks -> falsy (get remote k) = false) ->
  new_entries remote ks acc = acc.
Proof.
  induction ks as [|k ks IH]; intros H; simpl; [reflexivity|].
  rewrite (H k) by now left. apply IH. intros k' Hk'. apply H. now right.
Qed.

Lemma changed_entries_none remote exported :
  (forall f h, In (f, h) exported -> own_get remote f = Some h) ->
  changed_entries remote exported = [].
Proof.
  intros H. unfold changed_entries.
  assert (E : filter (fun fh => differs (get remote (fst fh)) (snd fh)) exported = []).
  { induction exported as [|[f h] l IH]; simpl; [reflexivity|].
    unfold get at 1. rewrite (H f h) by now left. simpl. rewrite eqb_refl. simpl.
    apply IH. intros f' h' Hin. apply H. now right. }
  now rewrite E.
Qed.

Lemma In_changed_missing remote exported f :
  In f (keys exported) -> own_get remote f = None ->
  In f (changed_entries remote exported).
Proof.
  unfold keys, changed_entries. intros Hin Hget.
  apply in_map_iff in Hin as ([f' h] & <- & Hin). simpl in *.
  apply in_map_iff. exists (f', h). split; [reflexivity|].
  apply filter_In. split; [exact Hin|]. simpl. unfold get. rewrite Hget.
  now destruct (includes object_prototype_names f').
Qed.

(** C7: the comparison reports names of the fresh record only.  Every name
    in [details.files] is a key of the fresh [files], every name in
    [details.media] a key of the fresh [media]; a name that only the stored
    record has is in neither list.  So when the combined digests differ
    and every entry of the fresh record is found, equal, in the stored
    record (the digests being non-empty strings, as every digest is), the
    result is [changed = false] with the reason [match]. *)
Theorem compareChecksums_one_directional (fresh stored : Checksums) :
  (forall f, In f (details_files (compareChecksums fresh (Some stored))) ->
             In f (keys (or_empty (files fresh))))
  /\ (forall f, In f (details_media (compareChecksums fresh (Some stored))) ->
                In f (keys (or_empty (media fresh))))
  /\ (forall f, In f (keys (or_empty (files stored))) ->
                ~ In f (keys (or_empty (files fresh))) ->
                ~ In f (details_files (compareChecksums fresh (Some stored))))
  /\ (forall f, In f (keys (or_empty (media stored))) ->
                ~ In f (keys (or_empty (media fresh))) ->
                ~ In f (details_media (compareChecksums fresh (Some stored))))
  /\ (combined fresh <> combined stored ->
      (forall f h, In (f, h) (or_empty (files fresh)) ->
                   own_get (or_empty (files stored)) f = Some h) ->
      (forall f h, In (f, h) (or_empty (media fresh)) ->
                   own_get (or_empty (media stored)) f = Some h /\ h <> []) ->
      compareChecksums fresh (Some stored) =
      {| changed := false; reason := js "match";
         details_files := []; details_media := [] |}).
Proof.
  assert (Hfiles : forall f,
    In f (details_files (compareChecksums fresh (Some stored))) ->
    In f (keys (or_empty (files fresh)))).
  { intros f. destruct (compareChecksums_details fresh stored) as [[-> _]|[-> _]].
    - intros [].
    - apply In_changed_entries. }
  assert (Hmedia : forall f,
    In f (details_media (compareChecksums fresh (Some stored))) ->
    In f (keys (or_empty (media fresh)))).
  { intros f. destruct (compareChecksums_details fresh stored) as [[_ ->]|[_ ->]].
    - intros [].
    - intros H. apply In_new_entries in H as [H|H]; [|exact H].
      now apply In_changed_entries in H. }
  split; [exact Hfiles|]. split; [exact Hmedia|].
  split; [intros f _ Hf C; apply Hf, Hfiles, C|].
  split; [intros f _ Hf C; apply Hf, Hmedia, C|].
  intros Hc Hf Hm. rewrite (compareChecksums_full fresh stored Hc).
  rewrite (changed_entries_none _ _ Hf).
  rewrite (changed_entries_none (or_empty (media stored)) (or_empty (media fresh)))
    by (intros f h Hin; apply (Hm f h Hin)).
  rewrite new_entries_none; [reflexivity|].
  intros k Hk. unfold keys in Hk. apply in_map_iff in Hk as ([f h] & <- & Hin).
  destruct (Hm f h Hin) as [Hget Hne]. simpl. unfold get. rewrite Hget. simpl.
  destruct h; [contradiction | reflexivity].
Qed.


Lemma compareChecksums_one_directional_witness :
  compareChecksums Sample.fresh_subset (Some Sample.stored_superset) =
  {| changed := false; reason := js "match";
     details_files := []; details_media := [] |}.
Proof.
  apply (compareChecksums_one_directional Sample.fresh_subset Sample.stored_superset).
  - vm_compute. discriminate.
  - intros f h H. vm_compute in H.
    destruct H as [H|[H|[]]]; injection H as <- <-; vm_compute; reflexivity.
  - intros f h H. vm_compute in H.
    destruct H as [H|[]]; injection H as <- <-; split; vm_compute;
      [reflexivity | discriminate].
Defined.

Lemma distinct_app_one l k :
  distinct l = true -> includes l k = false -> distinct (l ++ [k]) = true.
Proof.
  rewrite !distinct_NoDup, includes_false. intros Hl Hk.
  apply NoDup_app; [exact Hl | repeat constructor; auto |].
  intros x Hx [<-|[]]. contradiction.
Qed.

(** C8: when the keys of the fresh [files] and [media] are distinct, as the
    keys of an object are, no name occurs twice in [details.files] or in
    [details.media]; and in the full comparison a media file of the fresh
    record that the stored record does not have is found by the first loop
    over the media, passes the test of the second loop as well (unless its
    name is a property of [Object.prototype]), and occurs in
    [details.media] exactly once. *)
Theorem compareChecksums_reports_once (fresh stored : Checksums) :
  distinct (keys (or_empty (files fresh))) = true ->
  distinct (keys (or_empty (media fresh))) = true ->
  distinct (details_files (compareChecksums fresh (Some stored))) = true
  /\ distinct (details_media (compareChecksums fresh (Some stored))) = true
  /\ (combined fresh <> combined stored ->
      forall f,
        In f (keys (or_empty (media fresh))) ->
        own_get (or_empty (media stored)) f = None ->
        In f (changed_entries (or_empty (media stored)) (or_empty (media fresh)))
        /\ (includes object_prototype_names f = false ->
            falsy (get (or_empty (media stored)) f) = true)
        /\ count_occ (list_eq_dec N.eq_dec)
             (details_media (compareChecksums fresh (Some stored))) f = 1%nat).
Proof.
  intros Hf Hm. apply distinct_NoDup in Hf, Hm.
  assert (Hnd : NoDup (details_files (compareChecksums fresh (Some stored))) /\
                NoDup (details_media (compareChecksums fresh (Some stored)))).
  { destruct (compareChecksums_details fresh stored) as [[-> ->]|[-> ->]].
    - split; constructor.
    - split; [now apply changed_entries_NoDup|].
      now apply new_entries_NoDup, changed_entries_NoDup. }
  destruct Hnd as [Hnd1 Hnd2].
  split; [now apply distinct_NoDup|]. split; [now apply distinct_NoDup|].
  intros Hc f Hin Hget.
  pose proof (In_changed_missing _ _ f Hin Hget) as Hfirst.
  split; [exact Hfirst|]. split.
  - intros Hp. unfold get. now rewrite Hget, Hp.
  - apply NoDup_count_occ'; [exact Hnd2|].
    rewrite (compareChecksums_full fresh stored Hc). simpl.
    now apply new_entries_keeps.
Qed.

Lemma compareChecksums_reports_once_witness :
  details_media (compareChecksums Sample.fresh_new_photo (Some Sample.stored_old))
  = [js "photo.jpg"] /\
  count_occ (list_eq_dec N.eq_dec)
    (details_media (compareChecksums Sample.fresh_new_photo (Some Sample.stored_old)))
    (js "photo.jpg") = 1%nat.
Proof.
  split; [vm_compute; reflexivity|].
  apply (compareChecksums_reports_once Sample.fresh_new_photo Sample.stored_old).
  - vm_compute. reflexivity.
  - vm_compute. reflexivity.
  - vm_compute. discriminate.
  - vm_compute. auto.
  - vm_compute. reflexivity.
Defined.

(** ** Digests *)

Lemma hex_length s : List.length (Sha256.hex s) = 64%nat.
Proof.
  destruct s as [[[[[[[a b] c] d] e] f] g] h]. unfold Sha256.hex.
  rewrite !length_app. reflexivity.
Qed.

(** Every digest the program computes is a string of 64 characters, so it
    is not the empty string. *)
Lemma hashString_length content : List.length (hashString content) = 64%nat.
Proof. apply hex_length. Qed.

Lemma hashFile_length root filePath h :
  hashFile root filePath = Ok h -> List.length h = 64%nat.
Proof.
  unfold hashFile, Result.bind. destruct (Fs.readFile root filePath); [|discriminate].
  intros [= <-]. apply hex_length.
Qed.

Lemma In_assign {V : Type} (o : obj V) k' v' k v :
  In (k, v) (assign o k' v') -> (k, v) = (k', v') \/ In (k, v) o.
Proof.
  unfold assign.
  destruct (JsString.eqb k' (js "__proto__") && negb (has_own o k')); [now right|].
  apply In_define.
Qed.

Lemma for_of_invariant {A S : Type} (P : S -> Prop) (body : S -> A -> result S) l :
  (forall s x s', P s -> body s x = Ok s' -> P s') ->
  forall s r, P s -> for_of l body s = Ok r -> P r.
Proof.
  intros Hbody. induction l as [|x l IH]; intros s r Hs H; simpl in H.
  - now injection H as <-.
  - unfold Result.bind in H. destruct (body s x) as [s'|e] eqn:E; [|discriminate].
    eapply IH; [|exact H]. eapply Hbody; eauto.
Qed.

Lemma media_loop_digests root mediaDir mediaFiles m :
  for_of mediaFiles
    (fun m file =>
       let filePath := Fs.join mediaDir file in
       isFile <- Fs.stat_isFile root filePath ;;
       if (isFile : bool)
       then h <- hashFile root filePath ;; Ok (assign m file h)
       else Ok m)
    [] = Ok m ->
  forall f h, In (f, h) m -> List.length h = 64%nat.
Proof.
  apply (for_of_invariant
           (fun m => forall f h, In (f, h) m -> List.length h = 64%nat)).
  - intros s x s' Hs Hstep f h Hin. cbv zeta in Hstep. unfold Result.bind in Hstep.
    destruct (Fs.stat_isFile root (Fs.join mediaDir x)) as [[|]|]; try discriminate.
    + destruct (hashFile root (Fs.join mediaDir x)) as [d|] eqn:Ed; [|discriminate].
      injection Hstep as <-. apply In_assign in Hin as [Hin|Hin].
      * injection Hin as -> ->. eapply hashFile_length; eauto.
      * eauto.
    + injection Hstep as <-. eauto.
  - intros f h [].
Qed.

(** The media digests of a record that [generateChecksums] returns are
    strings of 64 characters. *)
Lemma generateChecksums_media_digests parse now root contentDir checksums :
  generateChecksums parse now root contentDir = Ok checksums ->
  forall f h, In (f, h) (or_empty (media checksums)) -> List.length h = 64%nat.
Proof.
  unfold generateChecksums. intros H.
  match type of H with
  | Result.bind _ (fun files1 => Result.bind _ (fun files2 => Result.bind _
      (fun names => Result.bind _ (fun files3 => Result.bind ?M _)))) = _ =>
      destruct M as [[m|]|e] eqn:EM
  end.
  - assert (Hm : forall f h, In (f, h) m -> List.length h = 64%nat).
    { unfold Result.bind in EM.
      destruct (Fs.pathExists root (Fs.join contentDir (js "media"))); [|discriminate].
      destruct (Fs.readdir root (Fs.join contentDir (js "media"))) as [l|]; [|discriminate].
      match type of EM with
      | match ?loop with Ok _ => _ | Err _ => _ end = _ =>
          destruct loop as [m'|] eqn:El; [|discriminate]
      end.
      injection EM as <-. eapply media_loop_digests. exact El. }
    unfold Result.bind in H; repeat destruct_result; injection H as <-; exact Hm.
  - unfold Result.bind in H; repeat destruct_result; injection H as <-;
      intros f h [].
  - unfold Result.bind in H; repeat destruct_result.
Qed.

(** ** The scenarios of the specification *)

Example new_media_reported_once :
  let a := hashString (js "a") in
  let fresh := {| version := 1; generated := js "t1"; files := Some [];
                  media := Some [(js "photo.jpg", a)];
                  combined := hashString (js "1") |} in
  let stored := {| version := 1; generated := js "t0"; files := Some [];
                   media := None; combined := hashString (js "0") |} in
  compareChecksums fresh (Some stored) =
  {| changed := true; reason := js "content-changed";
     details_files := []; details_media := [js "photo.jpg"] |}.
Proof. vm_compute. reflexivity. Qed.

Example canonical_text_example :
  stringify (canonical
    (JObj [(js "title", JStr (js "Hi")); (js "id", JNum (js "1"));
           (js "meta", JObj [(js "b", JNull); (js "a", JArr [JBool true])]);
           (js "date", JStr (js "2024-01-01"))]) [])
  = jsq "{'meta':{'a':[true],'b':null},'title':'Hi'}".
Proof. vm_compute. reflexivity. Qed.

Example proto_field_not_serialised :
  stringify (canonical
    (JObj [(js "__proto__", JObj [(js "id", JNum (js "1"))]);
           (js "title", JStr (js "t"))]) [])
  = jsq "{'title':'t'}".
Proof. vm_compute. reflexivity. Qed.

Example generateChecksums_example :
  let parse := fun _ : list byte =>
    Some (JObj [(js "id", JNum (js "1")); (js "title", JStr (js "Hi"))]) in
  let text := fun s => Fs.File (utf8_encode (js s)) in
  let root :=
    Fs.Dir [(js "body.html", text "<p>Hi</p>");
            (js "seo.json", text "{}");
            (js "media", Fs.Dir [(js "photo.jpg", text "x"); (js "thumbs", Fs.Dir [])]);
            (js "metadata.json", text "{}");
            (js "media-mapping.json", text "{}")]%string in
  match generateChecksums parse (js "now") root [] with
  | Ok c => option_map keys (files c) = Some (map js ["body.html"; "metadata.json"; "seo.json"]%string)
            /\ option_map keys (media c) = Some [js "photo.jpg"]
  | Err _ => False
  end.
Proof. vm_compute. auto. Qed.

(** ** Reading a quoted string back *)

Lemma below_spec bits : forall p,
  below bits p = true -> forall n, n < 2 ^ N.of_nat bits -> p n = true.
Proof.
  induction bits as [|b IH]; intros p H n Hn.
  - simpl in Hn. assert (n = 0) by lia. subst. exact H.
  - cbn [below] in H. apply andb_true_iff in H as [H0 H1].
    rewrite Nat2N.inj_succ, N.pow_succ_r' in Hn.
    pose proof (N.div_mod n 2 ltac:(discriminate)) as Hd.
    assert (Hh : n / 2 < 2 ^ N.of_nat b)
      by (apply N.Div0.div_lt_upper_bound; lia).
    assert (Hm : n mod 2 = 0 \/ n mod 2 = 1).
    { pose proof (N.mod_lt n 2 ltac:(discriminate)) as Hlt.
      clear Hd. generalize dependent (n mod 2). intros m Hlt. lia. }
    destruct Hm as [Hm|Hm]; rewrite Hm in Hd.
    + rewrite Hd, N.add_0_r. exact (IH _ H0 _ Hh).
    + rewrite Hd. exact (IH _ H1 _ Hh).
Qed.

Lemma unhex4_hex4 c :
  c < 0x10000 ->
  exists h3 h2 h1 h0,
    hex4 c = [h3; h2; h1; h0] /\ unhex4 h3 h2 h1 h0 = c.
Proof.
  intros H.
  exists (nth 0 (hex4 c) 0), (nth 1 (hex4 c) 0), (nth 2 (hex4 c) 0),
         (nth 3 (hex4 c) 0).
  split; [reflexivity|].
  apply N.eqb_eq.
  apply (below_spec 16
           (fun c => unhex4 (nth 0 (hex4 c) 0) (nth 1 (hex4 c) 0)
                       (nth 2 (hex4 c) 0) (nth 3 (hex4 c) 0) =? c)).
  - vm_compute. reflexivity.
  - exact H.
Qed.

Lemma read_string_escape c t :
  c < 0x10000 ->
  read_string (unicode_escape c ++ t) = read_unit c (read_string t).
Proof.
  intros H. destruct (unhex4_hex4 c H) as (h3 & h2 & h1 & h0 & Hl & Hc).
  unfold unicode_escape. rewrite Hl.
  change (read_string (92 :: 117 :: h3 :: h2 :: h1 :: h0 :: t)
          = read_unit c (read_string t)).
  cbn [read_string]. change (92 =? 34) with false. change (92 =? 92) with true.
  change (117 =? 117) with true. cbv iota. now rewrite Hc.
Qed.

Lemma read_string_literal c t :
  c <> 34 -> c <> 92 -> read_string (c :: t) = read_unit c (read_string t).
Proof.
  intros H1 H2. cbn [read_string].
  apply N.eqb_neq in H1, H2. now rewrite H1, H2.
Qed.

Lemma surrogate_bounds c :
  is_high_surrogate c || is_low_surrogate c = true ->
  c < 0x10000 /\ c <> 34 /\ c <> 92.
Proof.
  unfold is_high_surrogate, is_low_surrogate. intros H.
  apply orb_true_iff in H as [H|H]; apply andb_true_iff in H as [H1 H2];
    apply N.leb_le in H1, H2; lia.
Qed.

Lemma read_string_unit c t :
  read_string (escape_unit c ++ t) = read_unit c (read_string t).
Proof.
  unfold escape_unit.
  destruct (N.eqb_spec c 8) as [->|H8]; [reflexivity|].
  destruct (N.eqb_spec c 9) as [->|H9]; [reflexivity|].
  destruct (N.eqb_spec c 10) as [->|H10]; [reflexivity|].
  destruct (N.eqb_spec c 12) as [->|H12]; [reflexivity|].
  destruct (N.eqb_spec c 13) as [->|H13]; [reflexivity|].
  destruct (N.eqb_spec c 34) as [->|H34]; [reflexivity|].
  destruct (N.eqb_spec c 92) as [->|H92]; [reflexivity|].
  destruct (N.ltb_spec c 32) as [Hlt|Hge].
  - apply read_string_escape. lia.
  - now apply read_string_literal.
Qed.

(** Two units at a time, for the surrogate pairs. *)
Lemma pair_induction {A : Type} (P : list A -> Prop) :
  P [] ->
  (forall a, P [a]) ->
  (forall a b l, P l -> P (b :: l) -> P (a :: b :: l)) ->
  forall l, P l.
Proof.
  intros H0 H1 H2 l.
  assert (H : P l /\ forall a, P (a :: l)).
  { induction l as [|b l [IHl IHc]]; [now split|].
    split; [apply IHc|]. intros a. apply H2; [exact IHl | apply IHc]. }
  apply H.
Qed.

Lemma quote_body_cons c rest :
  quote_body (c :: rest) =
  if is_high_surrogate c then
    match rest with
    | d :: rest' =>
        if is_low_surrogate d then c :: d :: quote_body rest'
        else unicode_escape c ++ quote_body rest
    | [] => unicode_escape c
    end
  else if is_low_surrogate c then unicode_escape c ++ quote_body rest
  else escape_unit c ++ quote_body rest.
Proof. reflexivity. Qed.

Lemma read_string_quote_body s : forall r,
  read_string (quote_body s ++ 34 :: r) = Some (s, r).
Proof.
  induction s as [|c|c d rest IH IHd] using pair_induction; intros r.
  - reflexivity.
  - cbn [quote_body].
    destruct (is_high_surrogate c) eqn:Eh;
      [|destruct (is_low_surrogate c) eqn:El].
    + destruct (surrogate_bounds c) as (Hb & _); [now rewrite Eh|].
      now rewrite read_string_escape.
    + destruct (surrogate_bounds c) as (Hb & _); [now rewrite El, orb_true_r|].
      rewrite <- app_assoc, read_string_escape by exact Hb. reflexivity.
    + rewrite <- app_assoc, read_string_unit. reflexivity.
  - rewrite quote_body_cons.
    destruct (is_high_surrogate c) eqn:Eh;
      [destruct (is_low_surrogate d) eqn:Eld|destruct (is_low_surrogate c) eqn:El].
    + destruct (surrogate_bounds c) as (_ & Hc1 & Hc2); [now rewrite Eh|].
      destruct (surrogate_bounds d) as (_ & Hd1 & Hd2); [now rewrite Eld, orb_true_r|].
      cbn [app]. rewrite !read_string_literal by assumption.
      now rewrite IH.
    + destruct (surrogate_bounds c) as (Hb & _); [now rewrite Eh|].
      rewrite <- app_assoc, read_string_escape by exact Hb.
      now rewrite IHd.
    + destruct (surrogate_bounds c) as (Hb & _); [now rewrite El, orb_true_r|].
      rewrite <- app_assoc, read_string_escape by exact Hb.
      now rewrite IHd.
    + rewrite <- app_assoc, read_string_unit. now rewrite IHd.
Qed.

Lemma quote_app s r : quote s ++ r = 34 :: quote_body s ++ 34 :: r.
Proof. unfold quote. cbn [app]. now rewrite <- app_assoc. Qed.

Lemma quote_inj s s' r r' :
  quote s ++ r = quote s' ++ r' -> s = s' /\ r = r'.
Proof.
  rewrite !quote_app. intros [= H].
  pose proof (read_string_quote_body s r) as Hs.
  rewrite H, read_string_quote_body in Hs.
  now injection Hs as <- <-.
Qed.

(** ** [JSON.stringify] is injective *)

Lemma join_more {A : Type} (enc : A -> jsstring) a l :
  join (js ",") (map enc (a :: l)) = enc a ++ more enc l.
Proof.
  revert a. induction l as [|b l IH]; intros a.
  - simpl. now rewrite app_nil_r.
  - change (join (js ",") (map enc (a :: b :: l)))
      with (enc a ++ js "," ++ join (js ",") (map enc (b :: l))).
    rewrite IH. reflexivity.
Qed.

Lemma closes_more {A : Type} (enc : A -> jsstring) l close r :
  closes [close] = true -> closes (more enc l ++ close :: r) = true.
Proof. intros H. destruct l; [exact H | reflexivity]. Qed.

Section Items.
Context {A : Type}.
Variable enc : A -> jsstring.
Variable ok : A -> Prop.
Variable close : code_unit.
Hypothesis close_closes : closes [close] = true.
Hypothesis close_not_comma : close <> 44.
Hypothesis enc_head : forall a, ok a -> exists c t, enc a = c :: t /\ c <> close.

Lemma more_inj l : Forall (delimited enc ok) l ->
  forall l' r r', Forall ok l' ->
    more enc l ++ close :: r = more enc l' ++ close :: r' ->
    l = l' /\ r = r'.
Proof.
  induction 1 as [|a l Ha Hl IH]; intros [|a' l'] r r' Hok H.
  - injection H as <-. now split.
  - simpl in H. injection H as H _. contradiction.
  - simpl in H. injection H as H _. symmetry in H. contradiction.
  - inversion Hok as [|? ? Hoka Hokl]; subst.
    unfold more in H. cbn [flat_map] in H. fold (more enc l) in H.
    fold (more enc l') in H. cbn [app] in H. injection H as H.
    rewrite <- !app_assoc in H.
    destruct (Ha a' _ _ Hoka (closes_more enc l close r close_closes)
                (closes_more enc l' close r' close_closes) H) as [<- H'].
    destruct (IH l' r r' Hokl H') as [<- <-]. now split.
Qed.

Lemma items_inj l : Forall ok l -> Forall (delimited enc ok) l ->
  forall l' r r', Forall ok l' ->
    join (js ",") (map enc l) ++ close :: r
    = join (js ",") (map enc l') ++ close :: r' ->
    l = l' /\ r = r'.
Proof.
  intros Hokl Hl l' r r' Hok H.
  destruct l as [|a l], l' as [|a' l'].
  - simpl in H. injection H as <-. now split.
  - rewrite join_more in H. inversion Hok as [|? ? Hoka _]; subst.
    destruct (enc_head a' Hoka) as (c & t & E & Hc).
    rewrite E in H. simpl in H. injection H as H _. symmetry in H. contradiction.
  - rewrite join_more in H. inversion Hokl as [|? ? Hoka _]; subst.
    destruct (enc_head a Hoka) as (c & t & E & Hc).
    rewrite E in H. simpl in H. injection H as H _. contradiction.
  - rewrite !join_more, <- !app_assoc in H.
    inversion Hl as [|? ? Ha Hl']; subst.
    inversion Hok as [|? ? Hoka Hokl']; subst.
    destruct (Ha a' _ _ Hoka (closes_more enc l close r close_closes)
                (closes_more enc l' close r' close_closes) H) as [<- H'].
    destruct (more_inj l Hl' l' r r' Hokl' H') as [<- <-]. now split.
Qed.

End Items.

Lemma number_char_not_close c t :
  number_char c = true -> closes (c :: t) = false.
Proof.
  unfold closes. intros H.
  destruct (N.eqb_spec c 44) as [->|_]; [discriminate H|].
  destruct (N.eqb_spec c 93) as [->|_]; [discriminate H|].
  destruct (N.eqb_spec c 125) as [->|_]; [discriminate H|].
  reflexivity.
Qed.

Lemma number_inj t : forall t' r r',
  forallb number_char t = true -> forallb number_char t' = true ->
  closes r = true -> closes r' = true ->
  t ++ r = t' ++ r' -> t = t' /\ r = r'.
Proof.
  induction t as [|c t IH]; intros [|c' t'] r r' Ht Ht' Hr Hr' H.
  - now split.
  - simpl in H, Ht'. subst r. apply andb_true_iff in Ht' as [Hc _].
    rewrite (number_char_not_close c' _ Hc) in Hr. discriminate.
  - simpl in H, Ht. subst r'. apply andb_true_iff in Ht as [Hc _].
    rewrite (number_char_not_close c _ Hc) in Hr'. discriminate.
  - simpl in H, Ht, Ht'. injection H as <- H.
    apply andb_true_iff in Ht as [_ Ht]. apply andb_true_iff in Ht' as [_ Ht'].
    destruct (IH t' r r' Ht Ht' Hr Hr' H) as [<- <-]. now split.
Qed.

Lemma is_number_text_chars t :
  is_number_text t = true -> forallb number_char t = true /\ t <> [].
Proof. destruct t; [discriminate|]. intros H. split; [exact H | discriminate]. Qed.

Lemma stringify_opener v :
  proper v = true -> exists c t, stringify v = c :: t /\ opener v c = true.
Proof.
  destruct v as [|[]|text|s|l|o]; intros H;
    try (eexists; eexists; split; [reflexivity|reflexivity]).
  destruct text as [|c text]; [discriminate|].
  exists c, text. split; [reflexivity|].
  simpl in H. now apply andb_true_iff in H as [H _].
Qed.

Lemma opener_kind v v' c :
  opener v c = true -> opener v' c = true -> kind v = kind v'.
Proof.
  destruct v as [|[]|text|s|l|o], v' as [|[]|text'|s'|l'|o'];
    cbn [opener kind]; intros H H';
    try reflexivity;
    try (apply N.eqb_eq in H; subst c; discriminate H');
    try (apply N.eqb_eq in H'; subst c; discriminate H).
Qed.

Lemma opener_not_close v c :
  opener v c = true -> c <> 44 /\ c <> 93 /\ c <> 125.
Proof.
  intros H.
  repeat split; intros ->; destruct v as [|[]|text|s|l|o]; discriminate H.
Qed.

Lemma stringify_arr_app l r :
  stringify (JArr l) ++ r = 91 :: join (js ",") (map stringify l) ++ 93 :: r.
Proof. cbn [stringify]. cbn [js app map list_ascii_of_string]. now rewrite <- app_assoc. Qed.

Lemma stringify_obj_app o r :
  stringify (JObj o) ++ r = 123 :: join (js ",") (map member o) ++ 125 :: r.
Proof.
  cbn [stringify]. cbn [js app map list_ascii_of_string]. now rewrite <- app_assoc.
Qed.

Lemma stringify_kind v v' r r' :
  proper v = true -> proper v' = true ->
  stringify v ++ r = stringify v' ++ r' -> kind v = kind v'.
Proof.
  intros Hp Hp' H.
  destruct (stringify_opener v Hp) as (c & t & E & O).
  destruct (stringify_opener v' Hp') as (c' & t' & E' & O').
  rewrite E, E' in H. injection H as <- _. exact (opener_kind v v' c O O').
Qed.

Lemma stringify_inj v : forall v' r r',
  proper v = true -> proper v' = true ->
  closes r = true -> closes r' = true ->
  stringify v ++ r = stringify v' ++ r' -> v = v' /\ r = r'.
Proof.
  induction v as [| b | text | s | l IH | o IH] using json_ind';
    intros v' r r' Hp Hp' Hr Hr' H;
    pose proof (stringify_kind _ _ _ _ Hp Hp' H) as Hk.
  - destruct v' as [|[]|text'|s'|l'|o']; try discriminate Hk.
    apply app_inv_head in H. now split.
  - destruct b, v' as [|[]|text'|s'|l'|o']; try discriminate Hk;
      apply app_inv_head in H; now split.
  - destruct v' as [|[]|text'|s'|l'|o']; try discriminate Hk.
    cbn [stringify] in H.
    apply is_number_text_chars in Hp as [Hp _].
    apply is_number_text_chars in Hp' as [Hp' _].
    destruct (number_inj _ _ _ _ Hp Hp' Hr Hr' H) as [<- <-]. now split.
  - destruct v' as [|[]|text'|s'|l'|o']; try discriminate Hk.
    cbn [stringify] in H. destruct (quote_inj _ _ _ _ H) as [<- <-]. now split.
  - destruct v' as [|[]|text'|s'|l'|o']; try discriminate Hk.
    rewrite !stringify_arr_app in H. injection H as H.
    cbn [proper] in Hp, Hp'. rewrite forallb_forall in Hp, Hp'.
    destruct (items_inj stringify (fun x => proper x = true) 93
                eq_refl ltac:(discriminate)) with (l := l) (l' := l') (r := r) (r' := r')
      as [<- <-]; [| | | |exact H|now split].
    + intros a Ha. destruct (stringify_opener a Ha) as (c & t & E & O).
      exists c, t. split; [exact E|]. now apply (opener_not_close a c).
    + apply Forall_forall. exact Hp.
    + rewrite Forall_forall in IH |- *. intros x Hx a' r0 r0' Ha' Hr0 Hr0' H0.
      exact (IH x Hx a' r0 r0' (Hp x Hx) Ha' Hr0 Hr0' H0).
    + apply Forall_forall. exact Hp'.
  - destruct v' as [|[]|text'|s'|l'|o']; try discriminate Hk.
    rewrite !stringify_obj_app in H. injection H as H.
    cbn [proper] in Hp, Hp'. rewrite forallb_forall in Hp, Hp'.
    destruct (items_inj member (fun kv => proper (snd kv) = true) 125
                eq_refl ltac:(discriminate)) with (l := o) (l' := o') (r := r) (r' := r')
      as [<- <-]; [| | | |exact H|now split].
    + intros a Ha. exists 34, (quote_body (fst a) ++ [34] ++ 58 :: stringify (snd a)).
      split; [|discriminate]. unfold member, quote. cbn [app].
      now rewrite <- !app_assoc.
    + apply Forall_forall. intros kv Hkv.
      specialize (Hp kv Hkv). now apply andb_true_iff in Hp as [_ Hp].
    + rewrite Forall_forall in IH |- *.
      intros [k x] Hx [k' x'] r0 r0' Ha' Hr0 Hr0' H0.
      unfold member in H0. cbn [fst snd] in *. rewrite <- !app_assoc in H0.
      destruct (quote_inj _ _ _ _ H0) as [<- H1]. injection H1 as H1.
      specialize (Hp (k, x) Hx). apply andb_true_iff in Hp as [_ Hpx].
      destruct (IH (k, x) Hx x' r0 r0' Hpx Ha' Hr0 Hr0' H1) as [<- <-].
      now split.
    + apply Forall_forall. intros kv Hkv.
      specialize (Hp' kv Hkv). now apply andb_true_iff in Hp' as [_ Hp'].
Qed.

Lemma stringify_injective v v' :
  proper v = true -> proper v' = true ->
  stringify v = stringify v' -> v = v'.
Proof.
  intros Hp Hp' H.
  destruct (stringify_inj v v' [] [] Hp Hp' eq_refl eq_refl) as [Hv _];
    [now rewrite !app_nil_r | exact Hv].
Qed.

(** ** UTF-8 is injective on strings without lone surrogates *)

Lemma utf8_encode_cons c rest :
  utf8_encode (c :: rest) =
  if c <? 0x80 then utf8_1 c ++ utf8_encode rest
  else if c <? 0x800 then utf8_2 c ++ utf8_encode rest
  else if is_high_surrogate c then
    match rest with
    | d :: rest' =>
        if is_low_surrogate d
        then utf8_4 (0x10000 + N.shiftl (c - 0xD800) 10 + (d - 0xDC00))
               ++ utf8_encode rest'
        else utf8_replacement ++ utf8_encode rest
    | [] => utf8_replacement
    end
  else if is_low_surrogate c then utf8_replacement ++ utf8_encode rest
  else utf8_3 c ++ utf8_encode rest.
Proof. reflexivity. Qed.

Lemma utf8_decode_1 b0 rest :
  Byte.to_N b0 < 0x80 ->
  utf8_decode (b0 :: rest) = Byte.to_N b0 :: utf8_decode rest.
Proof. intros H. cbn [utf8_decode]. apply N.ltb_lt in H. now rewrite H. Qed.

Lemma utf8_decode_2_bytes b0 b1 rest :
  0x80 <= Byte.to_N b0 -> Byte.to_N b0 < 0xE0 ->
  utf8_decode (b0 :: b1 :: rest)
  = utf8_decode_2 (Byte.to_N b0) (Byte.to_N b1) ++ utf8_decode rest.
Proof.
  intros H1 H2. cbn [utf8_decode].
  apply N.ltb_ge in H1. apply N.ltb_lt in H2. now rewrite H1, H2.
Qed.

Lemma utf8_decode_3_bytes b0 b1 b2 rest :
  0xE0 <= Byte.to_N b0 -> Byte.to_N b0 < 0xF0 ->
  utf8_decode (b0 :: b1 :: b2 :: rest)
  = utf8_decode_3 (Byte.to_N b0) (Byte.to_N b1) (Byte.to_N b2) ++ utf8_decode rest.
Proof.
  intros H1 H2. cbn [utf8_decode].
  assert (H0 : (Byte.to_N b0 <? 0x80) = false) by (apply N.ltb_ge; lia).
  assert (H3 : (Byte.to_N b0 <? 0xE0) = false) by (apply N.ltb_ge; lia).
  apply N.ltb_lt in H2. now rewrite H0, H3, H2.
Qed.

Lemma utf8_decode_4_bytes b0 b1 b2 b3 rest :
  0xF0 <= Byte.to_N b0 ->
  utf8_decode (b0 :: b1 :: b2 :: b3 :: rest)
  = utf8_decode_4 (Byte.to_N b0) (Byte.to_N b1) (Byte.to_N b2) (Byte.to_N b3)
      ++ utf8_decode rest.
Proof.
  intros H1. cbn [utf8_decode].
  assert (H0 : (Byte.to_N b0 <? 0x80) = false) by (apply N.ltb_ge; lia).
  assert (H3 : (Byte.to_N b0 <? 0xE0) = false) by (apply N.ltb_ge; lia).
  assert (H4 : (Byte.to_N b0 <? 0xF0) = false) by (apply N.ltb_ge; lia).
  now rewrite H0, H3, H4.
Qed.

Lemma utf8_1_back c :
  c < 0x80 -> Byte.to_N (byte_of_N c) = c.
Proof.
  intros H. apply N.eqb_eq.
  apply (below_spec 7 (fun c => Byte.to_N (byte_of_N c) =? c));
    [vm_compute; reflexivity | exact H].
Qed.

Lemma utf8_2_back c rest :
  0x80 <= c -> c < 0x800 ->
  utf8_decode (utf8_2 c ++ rest) = c :: utf8_decode rest.
Proof.
  intros Hlo Hhi.
  pose (b0 := fun c => Byte.to_N (byte_of_N (N.lor 0xC0 (N.shiftr c 6)))).
  pose (b1 := fun c => Byte.to_N (byte_of_N (N.lor 0x80 (N.land c 0x3F)))).
  assert (H : ((c <? 0x80)
               || ((0x80 <=? b0 c) && (b0 c <? 0xE0)
                   && ((b0 c - 0xC0) * 64 + (b1 c - 0x80) =? c))) = true).
  { apply (below_spec 11
             (fun c => (c <? 0x80)
                       || ((0x80 <=? b0 c) && (b0 c <? 0xE0)
                           && ((b0 c - 0xC0) * 64 + (b1 c - 0x80) =? c))));
      [vm_compute; reflexivity | exact Hhi]. }
  apply N.ltb_ge in Hlo. rewrite Hlo in H. cbn [orb] in H.
  apply andb_true_iff in H as [H H3]. apply andb_true_iff in H as [H1 H2].
  apply N.leb_le in H1. apply N.ltb_lt in H2. apply N.eqb_eq in H3.
  unfold utf8_2. cbn [app]. rewrite utf8_decode_2_bytes by assumption.
  unfold utf8_decode_2. fold (b0 c) (b1 c). now rewrite H3.
Qed.

Lemma utf8_3_back c rest :
  0x800 <= c -> c < 0x10000 ->
  utf8_decode (utf8_3 c ++ rest) = c :: utf8_decode rest.
Proof.
  intros Hlo Hhi.
  pose (b0 := fun c => Byte.to_N (byte_of_N (N.lor 0xE0 (N.shiftr c 12)))).
  pose (b1 := fun c =>
          Byte.to_N (byte_of_N (N.lor 0x80 (N.land (N.shiftr c 6) 0x3F)))).
  pose (b2 := fun c => Byte.to_N (byte_of_N (N.lor 0x80 (N.land c 0x3F)))).
  assert (H : ((c <? 0x800)
               || ((0xE0 <=? b0 c) && (b0 c <? 0xF0)
                   && (((b0 c - 0xE0) * 64 + (b1 c - 0x80)) * 64 + (b2 c - 0x80)
                       =? c))) = true).
  { apply (below_spec 16
             (fun c => (c <? 0x800)
                       || ((0xE0 <=? b0 c) && (b0 c <? 0xF0)
                           && (((b0 c - 0xE0) * 64 + (b1 c - 0x80)) * 64
                               + (b2 c - 0x80) =? c))));
      [vm_compute; reflexivity | exact Hhi]. }
  apply N.ltb_ge in Hlo. rewrite Hlo in H. cbn [orb] in H.
  apply andb_true_iff in H as [H H3]. apply andb_true_iff in H as [H1 H2].
  apply N.leb_le in H1. apply N.ltb_lt in H2. apply N.eqb_eq in H3.
  unfold utf8_3. cbn [app]. rewrite utf8_decode_3_bytes by assumption.
  unfold utf8_decode_3. fold (b0 c) (b1 c) (b2 c). now rewrite H3.
Qed.

Lemma continuation_byte x :
  Byte.to_N (byte_of_N (N.lor 0x80 (N.land x 0x3F))) = 0x80 + x mod 64.
Proof.
  change 0x3F with (N.ones 6). rewrite N.land_ones.
  change (2 ^ 6) with 64.
  assert (H : x mod 64 < 2 ^ N.of_nat 6) by (apply N.mod_lt; discriminate).
  apply N.eqb_eq.
  apply (below_spec 6
           (fun y => Byte.to_N (byte_of_N (N.lor 0x80 y)) =? 0x80 + y));
    [vm_compute; reflexivity | exact H].
Qed.

Lemma leading_byte_4 z :
  z < 8 -> Byte.to_N (byte_of_N (N.lor 0xF0 z)) = 0xF0 + z.
Proof.
  intros H. apply N.eqb_eq.
  apply (below_spec 3
           (fun z => Byte.to_N (byte_of_N (N.lor 0xF0 z)) =? 0xF0 + z));
    [vm_compute; reflexivity | exact H].
Qed.

Lemma base_64_digits n :
  ((n / 262144 * 64 + (n / 4096) mod 64) * 64 + (n / 64) mod 64) * 64 + n mod 64
  = n.
Proof.
  pose proof (N.div_mod n 64 ltac:(discriminate)) as H1.
  pose proof (N.div_mod (n / 64) 64 ltac:(discriminate)) as H2.
  pose proof (N.div_mod (n / 4096) 64 ltac:(discriminate)) as H3.
  rewrite N.Div0.div_div in H2. change (64 * 64) with 4096 in H2.
  rewrite N.Div0.div_div in H3. change (4096 * 64) with 262144 in H3.
  generalize dependent (n mod 64). generalize dependent ((n / 64) mod 64).
  generalize dependent ((n / 4096) mod 64). generalize dependent (n / 262144).
  generalize dependent (n / 4096). generalize dependent (n / 64).
  intros. lia.
Qed.

Lemma utf8_4_back c d rest :
  is_high_surrogate c = true -> is_low_surrogate d = true ->
  utf8_decode (utf8_4 (0x10000 + N.shiftl (c - 0xD800) 10 + (d - 0xDC00)) ++ rest)
  = c :: d :: utf8_decode rest.
Proof.
  unfold is_high_surrogate, is_low_surrogate. intros Hc Hd.
  apply andb_true_iff in Hc as [Hc1 Hc2]. apply andb_true_iff in Hd as [Hd1 Hd2].
  apply N.leb_le in Hc1, Hc2, Hd1, Hd2.
  rewrite N.shiftl_mul_pow2. change (2 ^ 10) with 1024.
  remember (0x10000 + (c - 0xD800) * 1024 + (d - 0xDC00)) as n eqn:En.
  assert (Hn : n / 262144 < 8) by (apply N.Div0.div_lt_upper_bound; lia).
  unfold utf8_4. cbn [app].
  rewrite utf8_decode_4_bytes
    by (rewrite N.shiftr_div_pow2, leading_byte_4 by exact Hn; apply N.le_add_r).
  rewrite !continuation_byte, !N.shiftr_div_pow2, leading_byte_4 by exact Hn.
  change (2 ^ 18) with 262144. change (2 ^ 12) with 4096. change (2 ^ 6) with 64.
  unfold utf8_decode_4.
  rewrite !(N.add_comm 0x80), (N.add_comm 0xF0), !N.add_sub.
  rewrite base_64_digits. cbv zeta.
  replace (n - 0x10000) with ((d - 0xDC00) + (c - 0xD800) * 0x400) by lia.
  rewrite N.div_add by discriminate. rewrite N.Div0.mod_add.
  rewrite N.div_small, N.mod_small by lia.
  cbn [app]. f_equal; [lia|]. f_equal. lia.
Qed.

Lemma utf8_unit_back c rest :
  c < 0x10000 -> is_high_surrogate c = false -> is_low_surrogate c = false ->
  utf8_decode (utf8_encode (c :: rest)) = c :: utf8_decode (utf8_encode rest).
Proof.
  intros Hc Hh Hl. rewrite utf8_encode_cons, Hh, Hl.
  destruct (N.ltb_spec c 0x80) as [H1|H1].
  - unfold utf8_1. cbn [app]. rewrite utf8_decode_1;
      rewrite utf8_1_back by exact H1; [reflexivity | exact H1].
  - destruct (N.ltb_spec c 0x800) as [H2|H2].
    + now apply utf8_2_back.
    + now apply utf8_3_back.
Qed.

Lemma high_surrogate_large c : is_high_surrogate c = true -> 0x800 <= c.
Proof.
  unfold is_high_surrogate. intros H. apply andb_true_iff in H as [H _].
  apply N.leb_le in H. lia.
Qed.

Lemma utf8_pair_back c d rest :
  is_high_surrogate c = true -> is_low_surrogate d = true ->
  utf8_decode (utf8_encode (c :: d :: rest))
  = c :: d :: utf8_decode (utf8_encode rest).
Proof.
  intros Hc Hd. rewrite utf8_encode_cons, Hc, Hd.
  pose proof (high_surrogate_large c Hc) as Hl.
  assert (H1 : (c <? 0x80) = false) by (apply N.ltb_ge; lia).
  assert (H2 : (c <? 0x800) = false) by (apply N.ltb_ge; lia).
  rewrite H1, H2. now apply utf8_4_back.
Qed.

Lemma utf8_decode_encode s :
  clean s = true -> utf8_decode (utf8_encode s) = s.
Proof.
  unfold clean.
  induction s as [|c|c d rest IH IHd] using pair_induction; intros H;
    apply andb_true_iff in H as [Ht Hp].
  - reflexivity.
  - cbn [is_text forallb] in Ht. apply andb_true_iff in Ht as [Hc _].
    apply N.ltb_lt in Hc. cbn [paired] in Hp.
    destruct (is_high_surrogate c) eqn:Eh; [discriminate|].
    destruct (is_low_surrogate c) eqn:El; [discriminate|].
    now rewrite utf8_unit_back.
  - cbn [is_text forallb] in Ht. apply andb_true_iff in Ht as [Hc Ht].
    pose proof Ht as Htd. apply andb_true_iff in Ht as [Hd Ht].
    apply N.ltb_lt in Hc. cbn [paired] in Hp.
    destruct (is_high_surrogate c) eqn:Eh.
    + apply andb_true_iff in Hp as [Hld Hp].
      rewrite utf8_pair_back by assumption.
      rewrite IH; [reflexivity|]. apply andb_true_iff. split; [exact Ht | exact Hp].
    + destruct (is_low_surrogate c) eqn:El; [discriminate|].
      cbn [negb andb] in Hp. fold (paired (d :: rest)) in Hp.
      rewrite utf8_unit_back by assumption.
      rewrite IHd; [reflexivity|]. apply andb_true_iff. split; [exact Htd | exact Hp].
Qed.

Lemma utf8_encode_injective s s' :
  clean s = true -> clean s' = true ->
  utf8_encode s = utf8_encode s' -> s = s'.
Proof.
  intros Hs Hs' H.
  rewrite <- (utf8_decode_encode s Hs), <- (utf8_decode_encode s' Hs').
  now rewrite H.
Qed.

(** ** The text of a value has no lone surrogate *)

Lemma paired_app a : forall b, paired a = true -> paired (a ++ b) = paired b.
Proof.
  induction a as [|c|c d l IH IHd] using pair_induction; intros b H.
  - reflexivity.
  - cbn [paired] in H. cbn [app paired].
    destruct (is_high_surrogate c); [discriminate|].
    destruct (is_low_surrogate c); [discriminate|]. reflexivity.
  - cbn [paired] in H. cbn [app paired].
    destruct (is_high_surrogate c).
    + apply andb_true_iff in H as [Hd H]. rewrite Hd. cbn [andb]. now apply IH.
    + destruct (is_low_surrogate c); [discriminate|]. cbn [negb andb] in *.
      change (paired ((d :: l) ++ b) = paired b). now apply IHd.
Qed.

Lemma clean_app a b : clean a = true -> clean b = true -> clean (a ++ b) = true.
Proof.
  unfold clean. intros Ha Hb.
  apply andb_true_iff in Ha as [Ha1 Ha2]. apply andb_true_iff in Hb as [Hb1 Hb2].
  apply andb_true_iff. split.
  - unfold is_text in *. rewrite forallb_app.
    apply andb_true_iff. split; assumption.
  - now rewrite (paired_app a b Ha2).
Qed.

Lemma clean_ascii s : forallb (fun c => c <? 0x80) s = true -> clean s = true.
Proof.
  induction s as [|c s IH]; [reflexivity|]. cbn [forallb]. intros H.
  apply andb_true_iff in H as [Hc Hs]. specialize (IH Hs).
  apply N.ltb_lt in Hc. unfold clean in *. apply andb_true_iff in IH as [IH1 IH2].
  cbn [is_text forallb paired]. fold (is_text s).
  assert (Hh : is_high_surrogate c = false).
  { unfold is_high_surrogate. apply andb_false_iff. left. apply N.leb_gt. lia. }
  assert (Hl : is_low_surrogate c = false).
  { unfold is_low_surrogate. apply andb_false_iff. left. apply N.leb_gt. lia. }
  rewrite Hh, Hl, IH1, IH2.
  assert (Hc' : (c <? 0x10000) = true) by (apply N.ltb_lt; lia).
  now rewrite Hc'.
Qed.

Lemma number_char_ascii c : number_char c = true -> (c <? 0x80) = true.
Proof.
  unfold number_char, is_digit. intros H. apply N.ltb_lt.
  repeat (apply orb_true_iff in H as [H|H]);
    try (apply N.eqb_eq in H; subst; reflexivity).
  apply andb_true_iff in H as [_ H]. apply N.leb_le in H. lia.
Qed.

Lemma clean_number t : forallb number_char t = true -> clean t = true.
Proof.
  intros H. apply clean_ascii. rewrite forallb_forall in H |- *.
  intros c Hc. now apply number_char_ascii, H.
Qed.

Lemma clean_unicode_escape c : c < 0x10000 -> clean (unicode_escape c) = true.
Proof.
  intros H.
  apply (below_spec 16 (fun c => clean (unicode_escape c)));
    [vm_compute; reflexivity | exact H].
Qed.

Lemma clean_escape_unit c :
  c < 0x10000 -> is_high_surrogate c = false -> is_low_surrogate c = false ->
  clean (escape_unit c) = true.
Proof.
  intros H Hh Hl.
  assert (Hb : is_high_surrogate c || is_low_surrogate c || clean (escape_unit c)
               = true).
  { apply (below_spec 16
             (fun c => is_high_surrogate c || is_low_surrogate c
                       || clean (escape_unit c)));
      [vm_compute; reflexivity | exact H]. }
  now rewrite Hh, Hl in Hb.
Qed.

Lemma clean_quote_body s : is_text s = true -> clean (quote_body s) = true.
Proof.
  induction s as [|c|c d rest IH IHd] using pair_induction; intros H.
  - reflexivity.
  - cbn [is_text forallb] in H. apply andb_true_iff in H as [Hc _].
    apply N.ltb_lt in Hc. rewrite quote_body_cons.
    destruct (is_high_surrogate c) eqn:Eh;
      [|destruct (is_low_surrogate c) eqn:El].
    + now apply clean_unicode_escape.
    + apply clean_app; [now apply clean_unicode_escape | reflexivity].
    + apply clean_app; [now apply clean_escape_unit | reflexivity].
  - cbn [is_text forallb] in H. apply andb_true_iff in H as [Hc H].
    pose proof H as Hd. apply andb_true_iff in H as [Hdu Hrest].
    apply N.ltb_lt in Hc. rewrite quote_body_cons.
    specialize (IH Hrest). specialize (IHd Hd).
    destruct (is_high_surrogate c) eqn:Eh;
      [destruct (is_low_surrogate d) eqn:Eld|destruct (is_low_surrogate c) eqn:El].
    + unfold clean in *. apply andb_true_iff in IH as [IH1 IH2].
      cbn [is_text forallb paired]. fold (is_text (quote_body rest)).
      apply N.ltb_lt in Hc. now rewrite Hc, Hdu, IH1, Eh, Eld, IH2.
    + apply clean_app; [now apply clean_unicode_escape | exact IHd].
    + apply clean_app; [now apply clean_unicode_escape | exact IHd].
    + apply clean_app; [now apply clean_escape_unit | exact IHd].
Qed.

Lemma clean_quote s : is_text s = true -> clean (quote s) = true.
Proof.
  intros H. unfold quote.
  apply clean_app; [reflexivity|]. apply clean_app; [|reflexivity].
  now apply clean_quote_body.
Qed.

Lemma clean_join {A : Type} (enc : A -> jsstring) l :
  Forall (fun a => clean (enc a) = true) l ->
  clean (join (js ",") (map enc l)) = true.
Proof.
  intros H. destruct H as [|a l Ha Hl]; [reflexivity|].
  rewrite join_more. apply clean_app; [exact Ha|].
  induction Hl as [|b l Hb Hl IH]; [reflexivity|].
  unfold more. cbn [flat_map]. fold (more enc l).
  change (clean ([44] ++ enc b ++ more enc l) = true).
  apply clean_app; [reflexivity|]. now apply clean_app.
Qed.

Lemma clean_stringify v : proper v = true -> clean (stringify v) = true.
Proof.
  induction v as [| b | text | s | l IH | o IH] using json_ind'; intros H.
  - reflexivity.
  - now destruct b.
  - apply is_number_text_chars in H as [H _]. now apply clean_number.
  - now apply clean_quote.
  - cbn [stringify]. cbn [proper] in H. rewrite forallb_forall in H.
    apply clean_app; [reflexivity|]. apply clean_app; [|reflexivity].
    apply clean_join. rewrite Forall_forall in IH |- *. auto.
  - cbn [stringify]. cbn [proper] in H. rewrite forallb_forall in H.
    apply clean_app; [reflexivity|]. apply clean_app; [|reflexivity].
    apply clean_join. rewrite Forall_forall in IH |- *.
    intros kv Hkv. specialize (H kv Hkv). apply andb_true_iff in H as [Hk Hx].
    apply clean_app; [now apply clean_quote|].
    apply clean_app; [reflexivity|]. now apply IH.
Qed.

(** The bytes that are hashed tell the values apart. *)
Lemma utf8_stringify_injective v v' :
  proper v = true -> proper v' = true ->
  utf8_encode (stringify v) = utf8_encode (stringify v') -> v = v'.
Proof.
  intros Hp Hp' H. apply stringify_injective; [exact Hp | exact Hp'|].
  apply utf8_encode_injective; auto using clean_stringify.
Qed.

(** ** Canonical values of values from [JSON.parse] *)

Lemma proper_obj o :
  proper (JObj o) = true <->
  forall kv, In kv o -> is_text (fst kv) = true /\ proper (snd kv) = true.
Proof.
  cbn [proper]. rewrite forallb_forall. split; intros H kv Hkv.
  - now apply andb_true_iff, H.
  - now apply andb_true_iff, H.
Qed.

Lemma proper_sortObjectKeys v :
  proper v = true -> proper (sortObjectKeys v) = true.
Proof.
  induction v as [| b | text | s | l IH | o IH] using json_ind'; intros H;
    try exact H.
  - cbn [sortObjectKeys proper] in *. rewrite forallb_forall in H |- *.
    intros y Hy. apply in_map_iff in Hy as (x & <- & Hx).
    rewrite Forall_forall in IH. auto.
  - rewrite sortObjectKeys_obj. rewrite proper_obj in H |- *.
    intros kv Hkv. apply In_sorted_object in Hkv. unfold map_values in Hkv.
    apply in_map_iff in Hkv as ([k x] & <- & Hx). cbn [fst snd].
    destruct (H _ Hx) as [Hk Hpx]. split; [exact Hk|].
    rewrite Forall_forall in IH. exact (IH _ Hx Hpx).
Qed.

Lemma proper_canonical o excludeKeys :
  proper (JObj o) = true -> proper (canonical (JObj o) excludeKeys) = true.
Proof.
  intros H. unfold canonical. apply proper_sortObjectKeys.
  rewrite proper_obj in H |- *. intros kv Hkv.
  apply In_delete_all in Hkv. unfold spread, entries in Hkv.
  apply In_copy in Hkv as [[]|Hkv]. now apply H.
Qed.

(** ** What lies on a path is kept *)

Lemma at_path_sortObjectKeys p : forall v,
  proto_free p = true ->
  at_path (sortObjectKeys v) p = option_map sortObjectKeys (at_path v p).
Proof.
  induction p as [|[k|i] p IH]; intros v Hp.
  - reflexivity.
  - cbn [proto_free forallb] in Hp. apply andb_true_iff in Hp as [Hk Hp].
    apply negb_true_iff in Hk.
    destruct v as [| b | text | s | l | o]; try reflexivity.
    rewrite sortObjectKeys_obj. cbn [at_path].
    rewrite own_get_sorted_object, Hk, own_get_map_values.
    destruct (own_get o k) as [x|]; [|reflexivity]. cbn [option_map].
    now apply IH.
  - cbn [proto_free forallb] in Hp.
    destruct v as [| b | text | s | l | o]; try reflexivity.
    cbn [sortObjectKeys at_path]. rewrite nth_error_map.
    destruct (nth_error l i) as [x|]; [|reflexivity]. cbn [option_map].
    now apply IH.
Qed.

Lemma at_path_canonical o excludeKeys k p :
  distinct (keys o) = true ->
  includes (alwaysExcluded ++ excludeKeys) k = false ->
  proto_free (Field k :: p) = true ->
  at_path (canonical (JObj o) excludeKeys) (Field k :: p)
  = option_map sortObjectKeys (at_path (JObj o) (Field k :: p)).
Proof.
  intros Hd Hk Hp.
  destruct (canonical_obj_lookup o excludeKeys Hd) as (c & Hc & Hget).
  cbn [proto_free forallb] in Hp. apply andb_true_iff in Hp as [Hkp Hp].
  apply negb_true_iff in Hkp.
  rewrite Hc. cbn [at_path]. rewrite Hget, Hkp, Hk. cbn [orb].
  destruct (own_get o k) as [x|]; [|reflexivity]. cbn [option_map].
  now apply at_path_sortObjectKeys.
Qed.

Lemma canonical_differs_on_path o o' excludeKeys k p :
  distinct (keys o) = true -> distinct (keys o') = true ->
  includes (alwaysExcluded ++ excludeKeys) k = false ->
  proto_free (Field k :: p) = true ->
  option_map sortObjectKeys (at_path (JObj o) (Field k :: p))
  <> option_map sortObjectKeys (at_path (JObj o') (Field k :: p)) ->
  canonical (JObj o) excludeKeys <> canonical (JObj o') excludeKeys.
Proof.
  intros Hd Hd' Hk Hp Hx Heq. apply Hx.
  rewrite <- (at_path_canonical o excludeKeys k p Hd Hk Hp).
  rewrite <- (at_path_canonical o' excludeKeys k p Hd' Hk Hp).
  now rewrite Heq.
Qed.

Lemma hashed_bytes_differ o o' excludeKeys :
  proper (JObj o) = true -> proper (JObj o') = true ->
  canonical (JObj o) excludeKeys <> canonical (JObj o') excludeKeys ->
  hashed_bytes (JObj o) excludeKeys <> hashed_bytes (JObj o') excludeKeys.
Proof.
  intros Hp Hp' Hc H. apply Hc.
  apply utf8_stringify_injective; auto using proper_canonical.
Qed.


(** * Further properties *)

(** ** What the comparison reports *)

Lemma differs_get (remote : obj jsstring) f h :
  differs (get remote f) h = true <-> own_get remote f <> Some h.
Proof.
  unfold get. destruct (own_get remote f) as [v|].
  - cbn [differs]. rewrite negb_true_iff, eqb_neq. split; congruence.
  - split; [discriminate|]. intros _.
    now destruct (includes object_prototype_names f).
Qed.

Lemma In_changed_entries_iff remote exported f :
  In f (changed_entries remote exported) <->
  exists h, In (f, h) exported /\ own_get remote f <> Some h.
Proof.
  unfold changed_entries. rewrite in_map_iff. split.
  - intros ([f' h] & <- & H). apply filter_In in H as [Hin Hd]. simpl in *.
    exists h. split; [exact Hin | now apply differs_get].
  - intros (h & Hin & Hd). exists (f, h). split; [reflexivity|].
    apply filter_In. split; [exact Hin | now apply differs_get].
Qed.

Lemma In_new_entries_iff remote ks : forall acc f,
  In f (new_entries remote ks acc) <->
  In f acc \/ (In f ks /\ falsy (get remote f) = true).
Proof.
  induction ks as [|k ks IH]; intros acc f; simpl.
  - tauto.
  - change (In f (new_entries remote ks
              (if falsy (get remote k)
               then (if negb (includes acc k) then push acc k else acc)
               else acc)) <->
            In f acc \/ ((k = f \/ In f ks) /\ falsy (get remote f) = true)).
    rewrite IH. destruct (falsy (get remote k)) eqn:Ek.
    + destruct (includes acc k) eqn:Ei; simpl.
      * apply includes_In in Ei. split; [tauto|].
        intros [H|[[<-|H] Hf]]; auto.
      * unfold push. rewrite in_app_iff. simpl. split.
        -- intros [[H|[<-|[]]]|H]; auto. tauto.
        -- intros [H|[[<-|H] Hf]]; auto.
    + split; [tauto|]. intros [H|[[<-|H] Hf]]; auto. congruence.
Qed.

Lemma falsy_get (remote : obj jsstring) f :
  falsy (get remote f) = true ->
  own_get remote f = Some [] \/ own_get remote f = None.
Proof.
  unfold get. destruct (own_get remote f) as [[|c v]|]; auto.
  cbn [falsy]. discriminate.
Qed.

(** X1: in the full comparison a name is in [details.files] exactly when
    it is a key of the fresh [files] whose digest the stored [files] does
    not hold under that name (missing or different); a name is in
    [details.media] exactly when it is a key of the fresh [media] whose
    digest the stored [media] does not hold, or holds as the empty
    string. *)
Theorem compareChecksums_reports_every_change (fresh stored : Checksums) :
  combined fresh <> combined stored ->
  (forall f,
     In f (details_files (compareChecksums fresh (Some stored))) <->
     exists h, In (f, h) (or_empty (files fresh)) /\
               own_get (or_empty (files stored)) f <> Some h)
  /\ (forall f,
        In f (details_media (compareChecksums fresh (Some stored))) <->
        exists h, In (f, h) (or_empty (media fresh)) /\
                  (own_get (or_empty (media stored)) f <> Some h \/
                   own_get (or_empty (media stored)) f = Some [])).
Proof.
  intros Hc. rewrite (compareChecksums_full fresh stored Hc). cbn [details_files details_media].
  split; intros f.
  - apply In_changed_entries_iff.
  - rewrite In_new_entries_iff, In_changed_entries_iff. split.
    + intros [(h & Hin & Hd)|[Hin Hf]].
      * exists h. auto.
      * unfold keys in Hin. apply in_map_iff in Hin as ([f' h] & <- & Hin). simpl in *.
        exists h. split; [exact Hin|].
        apply falsy_get in Hf as [Hf|Hf]; [now right | left; congruence].
    + intros (h & Hin & [Hd|He]).
      * left. exists h. auto.
      * right. split.
        -- apply (in_map fst) in Hin. exact Hin.
        -- unfold get. now rewrite He.
Qed.

Lemma compareChecksums_reports_every_change_witness :
  In (js "photo.jpg")
     (details_media (compareChecksums Sample.fresh_new_photo (Some Sample.stored_old))).
Proof.
  assert (Hc : combined Sample.fresh_new_photo <> combined Sample.stored_old)
    by (vm_compute; discriminate).
  destruct (compareChecksums_reports_every_change
              Sample.fresh_new_photo Sample.stored_old Hc) as [_ Hm].
  apply (proj2 (Hm (js "photo.jpg"))).
  exists Sample.digest_b. split.
  - vm_compute. auto.
  - left. vm_compute. discriminate.
Defined.

Lemma new_entries_redundant remote ks acc :
  (forall k, In k ks -> falsy (get remote k) = true -> In k acc) ->
  new_entries remote ks acc = acc.
Proof.
  revert acc. induction ks as [|k ks IH]; intros acc H; [reflexivity|].
  change (new_entries remote ks
            (if falsy (get remote k)
             then (if negb (includes acc k) then push acc k else acc)
             else acc) = acc).
  destruct (falsy (get remote k)) eqn:Ek.
  - assert (Hin : In k acc) by (apply H; [now left | exact Ek]).
    apply includes_In in Hin. rewrite Hin. simpl.
    apply IH. intros k' Hk'. apply H. now right.
  - apply IH. intros k' Hk'. apply H. now right.
Qed.

(** X2: when no digest of the stored [media] is the empty string, the
    second loop over the media adds nothing: [details.media] is what the
    comparison computes as [details.files] for the two [media] maps put in
    the place of the [files] maps. *)
Theorem compareChecksums_media_as_files (fresh stored : Checksums) :
  (forall f, own_get (or_empty (media stored)) f <> Some []) ->
  details_media (compareChecksums fresh (Some stored)) =
  details_files (compareChecksums (set_files fresh (media fresh))
                                  (Some (set_files stored (media stored)))).
Proof.
  intros Hne.
  destruct (list_eq_dec N.eq_dec (combined fresh) (combined stored)) as [E|E].
  - unfold compareChecksums, set_files. cbn [combined]. now rewrite E, eqb_refl.
  - rewrite (compareChecksums_full fresh stored E).
    rewrite (compareChecksums_full (set_files fresh (media fresh))
               (set_files stored (media stored)) E).
    cbn [details_files details_media set_files files].
    apply new_entries_redundant. intros k Hk Hf.
    apply falsy_get in Hf as [Hf|Hf]; [now apply Hne in Hf|].
    now apply In_changed_missing.
Qed.

Lemma compareChecksums_media_as_files_witness :
  details_media (compareChecksums Sample.fresh_new_photo (Some Sample.stored_old)) =
  details_files
    (compareChecksums
       (set_files Sample.fresh_new_photo (media Sample.fresh_new_photo))
       (Some (set_files Sample.stored_old (media Sample.stored_old)))).
Proof.
  apply (compareChecksums_media_as_files Sample.fresh_new_photo Sample.stored_old).
  intros f H. unfold Sample.stored_old, Sample.record in H. cbn [media or_empty own_get] in H.
  destruct (JsString.eqb f (js "logo.png")); [|discriminate].
  vm_compute in H. discriminate.
Defined.

Lemma isEmpty_false l : isEmpty l = false <-> l <> [].
Proof. destruct l; simpl; split; congruence. Qed.

(** X3: in every result of [compareChecksums], [changed] is true exactly
    when there is no stored record or one of the two lists is not empty;
    the reason is [content-changed] exactly when one of the lists is not
    empty, and a result with [changed] false has the reason
    [combined-match] or [match]. *)
Theorem compareChecksums_result_consistent
    (fresh : Checksums) (stored : option Checksums) :
  (changed (compareChecksums fresh stored) = true <->
   stored = None \/
   details_files (compareChecksums fresh stored) <> [] \/
   details_media (compareChecksums fresh stored) <> [])
  /\ (reason (compareChecksums fresh stored) = js "content-changed" <->
      details_files (compareChecksums fresh stored) <> [] \/
      details_media (compareChecksums fresh stored) <> [])
  /\ (changed (compareChecksums fresh stored) = false ->
      reason (compareChecksums fresh stored) = js "combined-match" \/
      reason (compareChecksums fresh stored) = js "match").
Proof.
  destruct stored as [stored|].
  - destruct (list_eq_dec N.eq_dec (combined fresh) (combined stored)) as [E|E].
    + unfold compareChecksums. rewrite E, eqb_refl.
      cbn [changed reason details_files details_media].
      split; [|split].
      * split; [discriminate | intros [H|[H|H]]; congruence].
      * split; [intros H; vm_compute in H; discriminate | intros [H|H]; congruence].
      * intros _. now left.
    + rewrite (compareChecksums_full fresh stored E).
      cbn [changed reason details_files details_media].
      set (cf := changed_entries _ _). set (cm := new_entries _ _ _).
      destruct cf as [|f cf'], cm as [|m cm']; cbn [isEmpty negb orb];
        (split; [|split]);
        first
          [ discriminate
          | intros _; now right
          | split; [discriminate | intros [H|[H|H]]; congruence]
          | split; [intros H; vm_compute in H; discriminate | intros [H|H]; congruence]
          | split; [intros _ | reflexivity];
            first [ left; discriminate
                  | right; left; discriminate
                  | right; right; discriminate
                  | right; discriminate ] ].
  - cbn [compareChecksums changed reason details_files details_media].
    split; [|split].
    + split; auto.
    + split; [intros H; vm_compute in H; discriminate | intros [H|H]; congruence].
    + discriminate.
Qed.

Lemma compareChecksums_result_consistent_witness :
  reason (compareChecksums Sample.fresh_ab (Some Sample.stored_ba))
    = js "combined-match"
  \/ reason (compareChecksums Sample.fresh_ab (Some Sample.stored_ba))
       = js "match".
Proof.
  destruct (compareChecksums_result_consistent
              Sample.fresh_ab (Some Sample.stored_ba)) as [_ [_ H]].
  apply H. vm_compute. reflexivity.
Defined.


(** ** The canonical form is unique *)

Lemma sorted_perm_unique {A : Type} (R : A -> A -> Prop) :
  (forall a b, R a b -> R b a -> False) ->
  forall l l', StronglySorted R l -> StronglySorted R l' -> Permutation l l' -> l = l'.
Proof.
  intros Hasym. induction l as [|a l IH]; intros l' Hs Hs' Hp.
  - apply Permutation_nil in Hp. now subst.
  - destruct l' as [|b l'].
    { apply Permutation_sym, Permutation_nil in Hp. discriminate. }
    inversion Hs as [|? ? Hsl Ha]; subst.
    inversion Hs' as [|? ? Hsl' Hb]; subst.
    assert (a = b) as ->.
    { assert (Hin : In a (b :: l')) by (eapply Permutation_in; [exact Hp | now left]).
      assert (Hin' : In b (a :: l))
        by (eapply Permutation_in; [apply Permutation_sym; exact Hp | now left]).
      destruct Hin as [->|Hin]; [reflexivity|].
      destruct Hin' as [->|Hin']; [reflexivity|].
      rewrite Forall_forall in Ha, Hb.
      exfalso. apply (Hasym a b); auto. }
    f_equal. apply IH; auto. eapply Permutation_cons_inv; exact Hp.
Qed.

Lemma perm_filter {A : Type} (p : A -> bool) l l' :
  Permutation l l' -> Permutation (filter p l) (filter p l').
Proof.
  induction 1 as [|x l l' _ IH|x y l|l l' l'' _ IH1 _ IH2]; simpl.
  - constructor.
  - destruct (p x); [now constructor | exact IH].
  - destruct (p x), (p y); try reflexivity. apply perm_swap.
  - now transitivity (filter p l').
Qed.

Lemma index_lt_asym a b : index_lt a b -> index_lt b a -> False.
Proof.
  unfold index_lt, index_ltb.
  destruct (array_index a) as [n|], (array_index b) as [m|]; try discriminate.
  rewrite !N.ltb_lt. lia.
Qed.

Lemma own_order_indices_sorted ks :
  own_order ks -> StronglySorted index_lt (filter is_index ks).
Proof.
  induction 1 as [ks Hall|k n rest Hk Hall Hrest IH].
  - destruct (no_index_filter ks Hall) as [-> _]. constructor.
  - simpl. assert (is_index k = true) as -> by (apply is_index_true; now exists n).
    constructor; [exact IH|]. rewrite Forall_forall in *.
    intros x Hx. apply filter_In in Hx as [Hx Hi].
    apply is_index_true in Hi as [m Hm]. specialize (Hall x Hx m Hm).
    unfold index_lt, index_ltb. rewrite Hk, Hm. now apply N.ltb_lt.
Qed.

(** Two lists of the same keys, both in the order of a canonical object,
    are the same list. *)
Lemma canonical_keys_unique ks ks' :
  own_order ks -> StronglySorted str_lt (names ks) ->
  own_order ks' -> StronglySorted str_lt (names ks') ->
  Permutation ks ks' -> ks = ks'.
Proof.
  intros Ho Hn Ho' Hn' Hp.
  rewrite (own_order_split ks Ho), (own_order_split ks' Ho'). f_equal.
  - apply (sorted_perm_unique index_lt index_lt_asym).
    + now apply own_order_indices_sorted.
    + now apply own_order_indices_sorted.
    + now apply perm_filter.
  - apply sorted_perm_eq; auto. now apply perm_filter.
Qed.

Lemma entries_by_lookups {V : Type} (c : obj V) : forall c',
  keys c = keys c' -> NoDup (keys c) ->
  (forall k, own_get c k = own_get c' k) -> c = c'.
Proof.
  induction c as [|[k v] c IH]; intros [|[k' v'] c'] Hk Hnd Hget;
    try discriminate; [reflexivity|].
  simpl in Hk. injection Hk as <- Hk. inversion Hnd as [|? ? Hfresh Hnd']; subst.
  pose proof (Hget k) as Hkk. simpl in Hkk. rewrite eqb_refl in Hkk.
  injection Hkk as <-. f_equal. apply IH; auto.
  intros x. specialize (Hget x). simpl in Hget.
  destruct (JsString.eqb x k) eqn:E; [|exact Hget].
  apply eqb_eq in E. subst x.
  assert (H1 : own_get c k = None) by now apply own_get_None.
  assert (H2 : own_get c' k = None).
  { apply own_get_None. unfold keys in *. now rewrite <- Hk. }
  congruence.
Qed.

Lemma sorted_object_shape o :
  NoDup (keys o) ->
  own_order (keys (sorted_object o)) /\
  StronglySorted str_lt (names (keys (sorted_object o))).
Proof.
  intros Hnd. rewrite sorted_object_fold. split.
  - apply sorted_fold_order. apply oo_names. constructor.
  - apply sorted_fold_names.
    + now apply sort_sorted.
    + constructor.
    + intros a k [].
Qed.

(** The object built depends only on the fields other than [__proto__]. *)
Lemma sorted_object_by_lookups a b :
  NoDup (keys a) -> NoDup (keys b) ->
  (forall k, k <> proto -> own_get a k = own_get b k) ->
  sorted_object a = sorted_object b.
Proof.
  intros Ha Hb Hget.
  assert (Hsame : forall k, own_get (sorted_object a) k = own_get (sorted_object b) k).
  { intros k. rewrite !own_get_sorted_object.
    destruct (JsString.eqb k proto) eqn:E; [reflexivity|].
    apply Hget. now apply eqb_neq. }
  destruct (sorted_object_shape a Ha) as [Hoa Hna].
  destruct (sorted_object_shape b Hb) as [Hob Hnb].
  apply entries_by_lookups; [|apply sorted_object_NoDup|exact Hsame].
  apply canonical_keys_unique; auto.
  apply Permutation_map, same_lookups_perm; auto using sorted_object_NoDup.
Qed.

(** An object already in canonical order, without a field [__proto__], is
    rebuilt as it is. *)
Lemma sorted_object_fixed c :
  NoDup (keys c) -> own_order (keys c) -> StronglySorted str_lt (names (keys c)) ->
  own_get c proto = None ->
  sorted_object c = c.
Proof.
  intros Hnd Ho Hn Hp.
  assert (Hsame : forall k, own_get (sorted_object c) k = own_get c k).
  { intros k. rewrite own_get_sorted_object.
    destruct (JsString.eqb k proto) eqn:E; [|reflexivity].
    apply eqb_eq in E. now subst. }
  destruct (sorted_object_shape c Hnd) as [Ho' Hn'].
  apply entries_by_lookups; [|apply sorted_object_NoDup|exact Hsame].
  apply canonical_keys_unique; auto.
  apply Permutation_map, same_lookups_perm; auto using sorted_object_NoDup.
Qed.

Lemma map_values_fixed (f : json -> json) c :
  (forall kv, In kv c -> f (snd kv) = snd kv) -> map_values f c = c.
Proof.
  intros H. unfold map_values. rewrite <- (map_id c) at 2.
  apply map_ext_in. intros [k x] Hin. simpl. f_equal. apply (H _ Hin).
Qed.

Lemma sortObjectKeys_idempotent v :
  well_formed v = true -> sortObjectKeys (sortObjectKeys v) = sortObjectKeys v.
Proof.
  induction v as [| b | text | s | l IH | o IH] using json_ind';
    intros Hwf; try reflexivity.
  - simpl. f_equal. rewrite map_map. apply map_ext_in. intros x Hx.
    apply well_formed_arr in Hwf. rewrite Forall_forall in IH, Hwf. auto.
  - apply well_formed_obj in Hwf as [Hnd Hwf].
    rewrite sortObjectKeys_obj.
    set (c := sorted_object (map_values sortObjectKeys o)).
    rewrite sortObjectKeys_obj. f_equal.
    assert (Hnd' : NoDup (keys (map_values sortObjectKeys o)))
      by now rewrite keys_map_values.
    rewrite map_values_fixed.
    + destruct (sorted_object_shape _ Hnd') as [Ho Hn].
      apply sorted_object_fixed.
      * apply sorted_object_NoDup.
      * exact Ho.
      * exact Hn.
      * unfold c. rewrite own_get_sorted_object. now rewrite eqb_refl.
    + intros kv Hkv. apply In_sorted_object in Hkv.
      apply in_map_iff in Hkv as (kv0 & <- & Hkv0). simpl.
      rewrite Forall_forall in IH, Hwf. auto.
Qed.

Lemma spread_NoDup v : well_formed v = true -> NoDup (keys (spread v)).
Proof.
  intros Hwf. destruct v; try constructor.
  - apply indexed_NoDup.
  - apply indexed_NoDup.
  - apply copy_keys_NoDup.
Qed.

Lemma canonical_obj v excludeKeys :
  canonical v excludeKeys =
  JObj (sorted_object (map_values sortObjectKeys
          (fold_left delete (alwaysExcluded ++ excludeKeys) (spread v)))).
Proof. reflexivity. Qed.

(** X4: canonicalisation is idempotent.  For every structured value
    (distinct keys in every mapping), [sortObjectKeys] returns its own
    result unchanged, the canonical value of a canonical value is itself,
    and hashing the canonical value gives the digest of the value. *)
Theorem canonical_idempotent (v : json) (excludeKeys : list key) :
  well_formed v = true ->
  sortObjectKeys (sortObjectKeys v) = sortObjectKeys v
  /\ canonical (canonical v excludeKeys) excludeKeys = canonical v excludeKeys
  /\ hashObject (canonical v excludeKeys) excludeKeys = hashObject v excludeKeys.
Proof.
  intros Hwf. split; [now apply sortObjectKeys_idempotent|].
  assert (H : canonical (canonical v excludeKeys) excludeKeys = canonical v excludeKeys).
  { pose (fv := fold_left delete (alwaysExcluded ++ excludeKeys) (spread v)).
    pose (c := sorted_object (map_values sortObjectKeys fv)).
    assert (Hc : canonical v excludeKeys = JObj c) by reflexivity.
    assert (Hfix : sortObjectKeys (JObj c) = JObj c).
    { rewrite <- Hc. unfold canonical.
      apply sortObjectKeys_idempotent. now apply well_formed_filtered. }
    rewrite Hc. transitivity (sortObjectKeys (JObj c)); [|exact Hfix].
    unfold canonical. apply canonical_by_lookups.
    - apply delete_all_NoDup, copy_keys_NoDup.
    - apply sorted_object_NoDup.
    - intros k. f_equal. rewrite own_get_delete_all. unfold spread, entries.
      rewrite copy_lookups by apply sorted_object_NoDup.
      destruct (includes (alwaysExcluded ++ excludeKeys) k) eqn:E; [|reflexivity].
      unfold c. rewrite own_get_sorted_object, own_get_map_values.
      unfold fv. rewrite own_get_delete_all, E.
      now destruct (JsString.eqb k proto). }
  split; [exact H|]. unfold hashObject. now rewrite H.
Qed.

Lemma canonical_idempotent_witness :
  hashObject (canonical Sample.mixed_keys [js "title"]) [js "title"]
  = hashObject Sample.mixed_keys [js "title"].
Proof.
  apply (canonical_idempotent Sample.mixed_keys [js "title"]).
  vm_compute. reflexivity.
Defined.

(** X5: [excludeKeys] counts as a set.  For every structured value, two
    exclusion lists that name the same keys once [id], [date], [modified],
    [guid] and [link] are added give the same digest: the order of the
    list, repetitions, and naming an always-excluded key change nothing. *)
Theorem hashObject_excludeKeys_set (v : json) (excludeKeys excludeKeys' : list key) :
  well_formed v = true ->
  (forall k, In k (alwaysExcluded ++ excludeKeys) <->
             In k (alwaysExcluded ++ excludeKeys')) ->
  hashObject v excludeKeys = hashObject v excludeKeys'.
Proof.
  intros Hwf Hset. unfold hashObject, canonical. do 2 f_equal.
  apply canonical_by_lookups.
  - now apply delete_all_NoDup, spread_NoDup.
  - now apply delete_all_NoDup, spread_NoDup.
  - intros k. rewrite !own_get_delete_all.
    assert (E : includes (alwaysExcluded ++ excludeKeys) k =
                includes (alwaysExcluded ++ excludeKeys') k).
    { destruct (includes (alwaysExcluded ++ excludeKeys') k) eqn:E'.
      - apply includes_In. apply Hset. now apply includes_In.
      - apply includes_false. intros C. apply Hset in C.
        apply includes_In in C. congruence. }
    now rewrite E.
Qed.

Lemma hashObject_excludeKeys_set_witness :
  hashObject Sample.post [js "slug"; js "meta"]
  = hashObject Sample.post [js "meta"; js "id"; js "slug"; js "meta"].
Proof.
  apply (hashObject_excludeKeys_set Sample.post).
  - vm_compute. reflexivity.
  - intros k. unfold alwaysExcluded. cbn [map app In]. tauto.
Defined.

Lemma sortObjectKeys_by_lookups a b :
  NoDup (keys a) -> NoDup (keys b) ->
  (forall k, k <> proto ->
     option_map sortObjectKeys (own_get a k) = option_map sortObjectKeys (own_get b k)) ->
  sortObjectKeys (JObj a) = sortObjectKeys (JObj b).
Proof.
  intros Ha Hb Hget. rewrite !sortObjectKeys_obj. f_equal.
  apply sorted_object_by_lookups; rewrite ?keys_map_values; auto.
  intros k Hk. rewrite !own_get_map_values. now apply Hget.
Qed.

(** X6: a field named [__proto__] never reaches the digest.  The object
    that [sortObjectKeys] returns for a mapping has distinct keys and holds
    every field of the mapping with its canonical value, except a field
    [__proto__], for which the assignment [sorted[key] = ...] creates no
    property; so a mapping with distinct keys and the same mapping without
    its field [__proto__] have the same canonical value and the same
    digest. *)
Theorem sortObjectKeys_drops_proto (o : obj json) (excludeKeys : list key) :
  (exists c, sortObjectKeys (JObj o) = JObj c /\ NoDup (keys c) /\
             forall k, own_get c k =
                       if JsString.eqb k (js "__proto__") then None
                       else option_map sortObjectKeys (own_get o k))
  /\ (distinct (keys o) = true ->
      sortObjectKeys (JObj o) = sortObjectKeys (JObj (delete o (js "__proto__")))
      /\ hashObject (JObj o) excludeKeys
         = hashObject (JObj (delete o (js "__proto__"))) excludeKeys).
Proof.
  split.
  - exists (sorted_object (map_values sortObjectKeys o)).
    split; [reflexivity|]. split; [apply sorted_object_NoDup|].
    intros k. now rewrite own_get_sorted_object, own_get_map_values.
  - intros Hd. apply distinct_NoDup in Hd.
    assert (Hd' : NoDup (keys (delete o (js "__proto__")))) by now apply delete_NoDup.
    split.
    + apply sortObjectKeys_by_lookups; auto.
      intros k Hk. rewrite own_get_delete.
      apply eqb_neq in Hk. rewrite eqb_sym in Hk. fold proto. now rewrite Hk.
    + unfold hashObject, canonical. do 2 f_equal.
      apply sortObjectKeys_by_lookups.
      * apply delete_all_NoDup, copy_keys_NoDup.
      * apply delete_all_NoDup, copy_keys_NoDup.
      * intros k Hk. rewrite !own_get_delete_all. unfold spread, entries.
        rewrite !copy_lookups by assumption. rewrite own_get_delete.
        apply eqb_neq in Hk. rewrite eqb_sym in Hk. fold proto. now rewrite Hk.
Qed.

Lemma sortObjectKeys_drops_proto_witness :
  hashObject (JObj [(js "title", JStr (js "t"));
                    (js "__proto__", JObj [(js "id", JNum (js "1"))])]) []
  = hashObject (JObj (delete [(js "title", JStr (js "t"));
                              (js "__proto__", JObj [(js "id", JNum (js "1"))])]
                             (js "__proto__"))) [].
Proof.
  apply (proj2 (sortObjectKeys_drops_proto
    [(js "title", JStr (js "t")); (js "__proto__", JObj [(js "id", JNum (js "1"))])] [])).
  vm_compute. reflexivity.
Defined.


(** ** The exclusion is at the top level only *)

Lemma proto_free_id k p :
  proto_free (Field k :: p) = true ->
  proto_free (Field k :: p ++ [Field (js "id")]) = true.
Proof.
  unfold proto_free. rewrite app_comm_cons, forallb_app. intros ->. reflexivity.
Qed.





(** ** The steps of the builder *)

Lemma generateChecksums_parts parse now root contentDir :
  generateChecksums parse now root contentDir =
  (files1 <- body_part root contentDir ;;
   files2 <- metadata_part parse root contentDir files1 ;;
   names <- Fs.readdir root contentDir ;;
   files3 <- for_of names (extension_step root contentDir) files2 ;;
   media0 <- media_part root contentDir ;;
   Ok {| version := 1;
         generated := now;
         files := Some files3;
         media := media0;
         combined :=
           hashString (stringify (of_strings files3)
                       ++ stringify (of_strings (or_empty media0))) |}).
Proof. reflexivity. Qed.

Lemma for_of_ext {A S : Type} (f g : S -> A -> result S) l :
  (forall s x, In x l -> f s x = g s x) -> forall s, for_of l f s = for_of l g s.
Proof.
  induction l as [|x l IH]; intros H s; simpl; [reflexivity|].
  rewrite (H s x) by now left. destruct (g s x) as [s'|e]; simpl; [|reflexivity].
  apply IH. intros s0 y Hy. apply H. now right.
Qed.

Lemma resolve_app root p : forall n q,
  Fs.resolve root p = Some n -> Fs.resolve root (p ++ q) = Fs.resolve n q.
Proof.
  revert root. induction p as [|x p IH]; intros root n q H; simpl in *.
  - now injection H as <-.
  - destruct root as [c|l]; [discriminate|].
    destruct (Fs.child l x) as [y|]; [|discriminate]. now apply IH.
Qed.

Lemma resolve_app_none root p : forall q,
  Fs.resolve root p = None -> Fs.resolve root (p ++ q) = None.
Proof.
  revert root. induction p as [|x p IH]; intros root q H; simpl in *.
  - discriminate.
  - destruct root as [c|l]; [reflexivity|].
    destruct (Fs.child l x) as [y|]; [|reflexivity]. now apply IH.
Qed.

Section Local.
Variables (root : Fs.node) (contentDir : Fs.path) (n : Fs.node).
Hypothesis Hn : Fs.resolve root contentDir = Some n.

Lemma pathExists_local q :
  Fs.pathExists root (contentDir ++ q) = Fs.pathExists n q.
Proof. unfold Fs.pathExists. now rewrite (resolve_app _ _ _ q Hn). Qed.

Lemma readFile_local q : Fs.readFile root (contentDir ++ q) = Fs.readFile n q.
Proof. unfold Fs.readFile. now rewrite (resolve_app _ _ _ q Hn). Qed.

Lemma readdir_local q : Fs.readdir root (contentDir ++ q) = Fs.readdir n q.
Proof. unfold Fs.readdir. now rewrite (resolve_app _ _ _ q Hn). Qed.

Lemma stat_local q : Fs.stat_isFile root (contentDir ++ q) = Fs.stat_isFile n q.
Proof. unfold Fs.stat_isFile. now rewrite (resolve_app _ _ _ q Hn). Qed.

Lemma hashFile_local q : hashFile root (contentDir ++ q) = hashFile n q.
Proof. unfold hashFile. now rewrite readFile_local. Qed.

Lemma readJson_local parse q :
  readJson parse root (contentDir ++ q) = readJson parse n q.
Proof. unfold readJson. now rewrite readFile_local. Qed.

Lemma body_part_local : body_part root contentDir = body_part n [].
Proof.
  unfold body_part, Fs.join. now rewrite pathExists_local, hashFile_local.
Qed.

Lemma metadata_part_local parse files1 :
  metadata_part parse root contentDir files1 = metadata_part parse n [] files1.
Proof.
  unfold metadata_part, Fs.join. now rewrite pathExists_local, readJson_local.
Qed.

Lemma extension_step_local found file :
  extension_step root contentDir found file = extension_step n [] found file.
Proof.
  unfold extension_step, Fs.join. now rewrite stat_local, hashFile_local.
Qed.

Lemma media_step_local m file :
  media_step root (contentDir ++ [js "media"]) m file =
  media_step n [js "media"] m file.
Proof.
  unfold media_step, Fs.join. rewrite <- app_assoc.
  now rewrite stat_local, hashFile_local.
Qed.

Lemma media_part_local : media_part root contentDir = media_part n [].
Proof.
  unfold media_part, Fs.join. cbn [app].
  rewrite pathExists_local, readdir_local.
  destruct (Fs.pathExists n [js "media"]); [|reflexivity].
  destruct (Fs.readdir n [js "media"]) as [mediaFiles|e]; [|reflexivity].
  cbn [Result.bind]. f_equal.
  apply for_of_ext. intros s x _. apply media_step_local.
Qed.

Lemma generateChecksums_local parse now :
  generateChecksums parse now root contentDir = generateChecksums parse now n [].
Proof.
  rewrite !generateChecksums_parts.
  rewrite body_part_local. destruct (body_part n []) as [files1|e]; [|reflexivity].
  cbn [Result.bind]. rewrite metadata_part_local.
  destruct (metadata_part parse n [] files1) as [files2|e]; [|reflexivity].
  cbn [Result.bind].
  rewrite <- (app_nil_r contentDir) at 1. rewrite readdir_local.
  destruct (Fs.readdir n []) as [names|e]; [|reflexivity].
  cbn [Result.bind].
  rewrite (for_of_ext (extension_step root contentDir) (extension_step n []))
    by (intros; apply extension_step_local).
  now rewrite media_part_local.
Qed.

End Local.

Lemma generateChecksums_missing parse now root contentDir :
  Fs.resolve root contentDir = None ->
  generateChecksums parse now root contentDir = Err ENOENT.
Proof.
  intros H. rewrite generateChecksums_parts.
  unfold body_part, metadata_part, Fs.pathExists, Fs.join.
  rewrite !(resolve_app_none _ _ _ H). cbn [Result.bind].
  unfold Fs.readdir. now rewrite H.
Qed.

(** X7: [generateChecksums] reads the content directory and nothing else:
    two calls on file systems that hold the same tree at their content
    directories (or both hold nothing there) return the same result. *)
Theorem generateChecksums_reads_contentDir_only
    (parse : list byte -> option json) (now : jsstring)
    (root root' : Fs.node) (contentDir contentDir' : Fs.path) :
  Fs.resolve root contentDir = Fs.resolve root' contentDir' ->
  generateChecksums parse now root contentDir =
  generateChecksums parse now root' contentDir'.
Proof.
  intros H. destruct (Fs.resolve root' contentDir') as [n|] eqn:E.
  - rewrite (generateChecksums_local root contentDir n H).
    now rewrite (generateChecksums_local root' contentDir' n E).
  - now rewrite !generateChecksums_missing.
Qed.

Lemma generateChecksums_reads_contentDir_only_witness :
  generateChecksums Sample.parse_metadata (js "t") Sample.tree [js "post"] =
  generateChecksums Sample.parse_metadata (js "t") sample_site [js "export"; js "42"].
Proof.
  apply (generateChecksums_reads_contentDir_only Sample.parse_metadata (js "t")
           Sample.tree sample_site [js "post"] [js "export"; js "42"]).
  vm_compute. reflexivity.
Defined.


(** ** The builder on a directory *)

Section AssignAny.
Context {V : Type}.
Implicit Types (o : obj V) (k : key) (v : V).

Lemma own_get_assign_any o k' v k :
  NoDup (keys o) -> has_own o proto = false ->
  own_get (assign o k' v) k =
  if JsString.eqb k k' && negb (JsString.eqb k proto) then Some v else own_get o k.
Proof.
  intros Hnd Hp. unfold assign. fold proto.
  destruct (JsString.eqb k' proto) eqn:E.
  - apply eqb_eq in E. subst k'. rewrite Hp. simpl.
    destruct (JsString.eqb k proto); reflexivity.
  - simpl. rewrite own_get_define by exact Hnd.
    destruct (JsString.eqb k k') eqn:E2; [|reflexivity].
    apply eqb_eq in E2. subst. now rewrite E.
Qed.

Lemma assign_NoDup_any o k v : NoDup (keys o) -> NoDup (keys (assign o k v)).
Proof.
  intros H. unfold assign.
  destruct (JsString.eqb k (js "__proto__") && negb (has_own o k)); [exact H|].
  now apply keys_define_NoDup.
Qed.

Lemma assign_no_proto_any o k v :
  NoDup (keys o) -> has_own o proto = false -> has_own (assign o k v) proto = false.
Proof.
  intros Hnd Hp. unfold has_own. rewrite own_get_assign_any by assumption.
  rewrite eqb_refl, andb_false_r. exact Hp.
Qed.

End AssignAny.

Lemma plain_nil : plain [].
Proof. split; [constructor | reflexivity]. Qed.

Lemma plain_assign o k v : plain o -> plain (assign o k v).
Proof.
  intros [H1 H2]. split; [now apply assign_NoDup_any | now apply assign_no_proto_any].
Qed.

Lemma child_In l x : In x (map fst l) -> exists n, Fs.child l x = Some n.
Proof.
  induction l as [|[y n] l IH]; simpl; [tauto|].
  destruct (JsString.eqb x y) eqn:E; [eauto|].
  intros [H|H]; [|auto]. apply eqb_neq in E. congruence.
Qed.

Lemma child_None l x : Fs.child l x = None <-> ~ In x (map fst l).
Proof.
  induction l as [|[y n] l IH]; simpl; [tauto|].
  destruct (JsString.eqb x y) eqn:E.
  - apply eqb_eq in E. subst. split; [discriminate | intros C; exfalso; auto].
  - apply eqb_neq in E. rewrite IH. split; [intros H [C|C]; congruence | tauto].
Qed.

Lemma child_entry l e :
  NoDup (map fst l) -> In e l -> Fs.child l (fst e) = Some (snd e).
Proof.
  induction l as [|[y n] l IH]; simpl; [tauto|].
  intros Hnd [H|H]; inversion Hnd as [|? ? Hy Hnd']; subst.
  - simpl. now rewrite eqb_refl.
  - destruct (JsString.eqb (fst e) y) eqn:E; [|now apply IH].
    apply eqb_eq in E. subst. exfalso. apply Hy. now apply in_map.
Qed.

Lemma resolve_child l x : Fs.resolve (Fs.Dir l) [x] = Fs.child l x.
Proof. simpl. now destruct (Fs.child l x). Qed.

Lemma body_part_dir l :
  body_part (Fs.Dir l) [] =
  match Fs.child l (js "body.html") with
  | Some (Fs.File content) =>
      Ok (assign [] (js "body.html") (digestOfBytes content))
  | Some (Fs.Dir _) => Err EISDIR
  | None => Ok []
  end.
Proof.
  unfold body_part, hashFile, Fs.pathExists, Fs.readFile, Fs.join. cbn [app].
  rewrite resolve_child. now destruct (Fs.child l (js "body.html")) as [[c|d]|].
Qed.

Lemma metadata_part_dir parse l files1 :
  metadata_part parse (Fs.Dir l) [] files1 =
  match Fs.child l (js "metadata.json") with
  | Some (Fs.File b) =>
      match parse b with
      | Some metadata => Ok (assign files1 (js "metadata.json") (hashObject metadata []))
      | None => Err SyntaxError
      end
  | Some (Fs.Dir _) => Err EISDIR
  | None => Ok files1
  end.
Proof.
  unfold metadata_part, readJson, Fs.pathExists, Fs.readFile, Fs.join. cbn [app].
  rewrite resolve_child.
  destruct (Fs.child l (js "metadata.json")) as [[b|d]|]; try reflexivity.
  cbn [Result.bind]. now destruct (parse b).
Qed.

Lemma extension_step_dir l found file :
  In file (map fst l) ->
  extension_step (Fs.Dir l) [] found file =
  Ok (by_name extension_entry l found file).
Proof.
  intros Hin. apply child_In in Hin as [n Hn].
  unfold extension_step, by_name, extension_entry, hashFile,
    Fs.stat_isFile, Fs.readFile, Fs.join.
  cbn [app fst snd]. rewrite resolve_child, Hn.
  destruct (is_extension file); [|reflexivity].
  now destruct n.
Qed.

Lemma for_of_pure {A S : Type} (body : S -> A -> result S) (f : S -> A -> S) l :
  (forall s x, In x l -> body s x = Ok (f s x)) ->
  forall s, for_of l body s = Ok (fold_left f l s).
Proof.
  induction l as [|x l IH]; intros H s; simpl; [reflexivity|].
  rewrite (H s x) by now left. cbn [Result.bind].
  apply IH. intros s0 y Hy. apply H. now right.
Qed.

(** The loop over the directory never fails: it reads regular files it has
    just listed. *)
Lemma extension_loop_dir l names files2 :
  incl names (map fst l) ->
  for_of names (extension_step (Fs.Dir l) []) files2 =
  Ok (fold_left (by_name extension_entry l) names files2).
Proof.
  intros H. apply for_of_pure. intros s x Hx. apply extension_step_dir. auto.
Qed.

Lemma media_step_dir l ml m file :
  Fs.child l (js "media") = Some (Fs.Dir ml) ->
  In file (map fst ml) ->
  media_step (Fs.Dir l) [js "media"] m file = Ok (by_name media_entry ml m file).
Proof.
  intros Hm Hin. apply child_In in Hin as [n Hn].
  unfold media_step, by_name, media_entry, hashFile,
    Fs.stat_isFile, Fs.readFile, Fs.join.
  cbn [app fst snd Fs.resolve]. rewrite Hm, Hn. now destruct n.
Qed.

Lemma media_part_dir l :
  media_part (Fs.Dir l) [] =
  match Fs.child l (js "media") with
  | Some (Fs.Dir ml) =>
      Ok (Some (fold_left (by_name media_entry ml) (map fst ml) []))
  | Some (Fs.File _) => Err ENOTDIR
  | None => Ok None
  end.
Proof.
  unfold media_part, Fs.pathExists, Fs.readdir, Fs.join. cbn [app].
  rewrite resolve_child.
  destruct (Fs.child l (js "media")) as [[c|ml]|] eqn:Em; try reflexivity.
  cbn [Result.bind].
  rewrite (for_of_pure _ (by_name media_entry ml)).
  - reflexivity.
  - intros s x Hx. now apply media_step_dir.
Qed.

Lemma by_name_entries step l : NoDup (map fst l) ->
  forall l0 s, incl l0 l ->
  fold_left (by_name step l) (map fst l0) s = fold_left step l0 s.
Proof.
  intros Hnd. induction l0 as [|e l0 IH]; intros s Hincl; simpl; [reflexivity|].
  unfold by_name at 2. rewrite (child_entry l e Hnd) by (apply Hincl; now left).
  destruct e as [x n]. simpl. apply IH. intros y Hy. apply Hincl. now right.
Qed.

(** The whole of [generateChecksums] on a directory, step by step. *)
Lemma generateChecksums_dir parse now l :
  generateChecksums parse now (Fs.Dir l) [] =
  (files1 <- body_part (Fs.Dir l) [] ;;
   files2 <- metadata_part parse (Fs.Dir l) [] files1 ;;
   media0 <- media_part (Fs.Dir l) [] ;;
   let files3 := fold_left (by_name extension_entry l) (map fst l) files2 in
   Ok {| version := 1;
         generated := now;
         files := Some files3;
         media := media0;
         combined :=
           hashString (stringify (of_strings files3)
                       ++ stringify (of_strings (or_empty media0))) |}).
Proof.
  rewrite generateChecksums_parts.
  destruct (body_part (Fs.Dir l) []) as [files1|e]; [|reflexivity].
  cbn [Result.bind].
  destruct (metadata_part parse (Fs.Dir l) [] files1) as [files2|e]; [|reflexivity].
  cbn [Result.bind]. unfold Fs.readdir. cbn [Fs.resolve Result.bind].
  rewrite extension_loop_dir by apply incl_refl. reflexivity.
Qed.

(** X8: [generateChecksums] returns a record only for a content directory
    that is a directory, whose [body.html] is not a directory, whose
    [metadata.json] is absent or a regular file that parses, and whose
    [media] is absent or a directory.  For a content directory that is
    missing or a regular file, a [body.html] or [metadata.json] that is a
    directory, a [metadata.json] that does not parse, or a [media] that is
    a regular file, the call throws and no partial record is returned. *)
Theorem generateChecksums_returns_only_if
    (parse : list byte -> option json) (now : jsstring)
    (root : Fs.node) (contentDir : Fs.path) (checksums : Checksums) :
  generateChecksums parse now root contentDir = Ok checksums ->
  exists l,
    Fs.resolve root contentDir = Some (Fs.Dir l)
    /\ (forall d, Fs.child l (js "body.html") <> Some (Fs.Dir d))
    /\ (forall d, Fs.child l (js "metadata.json") <> Some (Fs.Dir d))
    /\ (forall b, Fs.child l (js "metadata.json") = Some (Fs.File b) ->
                  parse b <> None)
    /\ (forall c, Fs.child l (js "media") <> Some (Fs.File c)).
Proof.
  intros H. destruct (Fs.resolve root contentDir) as [[c|l]|] eqn:En.
  - rewrite (generateChecksums_local root contentDir _ En),
      generateChecksums_parts in H. discriminate.
  - exists l. split; [reflexivity|].
    rewrite (generateChecksums_local root contentDir _ En),
      generateChecksums_dir, body_part_dir in H.
    destruct (Fs.child l (js "body.html")) as [[c|d]|]; [|discriminate H|];
      cbn [Result.bind] in H; rewrite metadata_part_dir, media_part_dir in H;
      (destruct (Fs.child l (js "metadata.json")) as [[b|d']|];
       [destruct (parse b) eqn:Ep; [|discriminate H] | discriminate H |];
       cbn [Result.bind] in H;
       (destruct (Fs.child l (js "media")) as [[c'|ml]|]; [discriminate H| |]);
       clear H; repeat split; intros; congruence).
  - rewrite generateChecksums_missing in H by exact En. discriminate.
Qed.

Lemma generateChecksums_returns_only_if_witness :
  exists l, Fs.resolve Sample.tree [js "post"] = Some (Fs.Dir l)
            /\ forall c, Fs.child l (js "media") <> Some (Fs.File c).
Proof.
  destruct (generateChecksums Sample.parse_metadata (js "t") Sample.tree [js "post"])
    as [checksums|e] eqn:E.
  - destruct (generateChecksums_returns_only_if _ _ _ _ _ E)
      as (l & Hl & _ & _ & _ & Hm).
    exists l. split; [exact Hl | exact Hm].
  - vm_compute in E. discriminate.
Defined.


(** ** What the builder records *)

Lemma is_extension_not_proto f :
  is_extension f = true -> JsString.eqb f proto = false.
Proof.
  intros H. destruct (JsString.eqb f proto) eqn:E; [|reflexivity].
  apply eqb_eq in E. subst f. vm_compute in H. discriminate.
Qed.

Lemma plain_get_assign o k' v k :
  plain o ->
  own_get (assign o k' v) k =
  if JsString.eqb k k' && negb (JsString.eqb k proto) then Some v else own_get o k.
Proof. intros [H1 H2]. now apply own_get_assign_any. Qed.

Lemma plain_extension_entry s e : plain s -> plain (extension_entry s e).
Proof.
  intros H. unfold extension_entry. destruct (is_extension (fst e)); [|exact H].
  destruct (snd e); [now apply plain_assign | exact H].
Qed.

Lemma plain_media_entry s e : plain s -> plain (media_entry s e).
Proof.
  intros H. unfold media_entry. destruct (snd e); [now apply plain_assign | exact H].
Qed.

Lemma plain_fold {E : Type} (step : obj jsstring -> E -> obj jsstring) l :
  (forall s e, plain s -> plain (step s e)) ->
  forall s, plain s -> plain (fold_left step l s).
Proof.
  intros Hstep. induction l as [|e l IH]; intros s Hs; simpl; auto.
Qed.

Lemma extension_entries_get l : NoDup (map fst l) ->
  forall s f, plain s ->
  own_get (fold_left extension_entry l s) f =
  match (if is_extension f then file_bytes (Fs.child l f) else None) with
  | Some content => Some (digestOfBytes content)
  | None => own_get s f
  end.
Proof.
  induction l as [|[x n] l IH]; intros Hnd s f Hs.
  - simpl. now destruct (is_extension f).
  - inversion Hnd as [|? ? Hx Hnd']; subst. cbn [fold_left].
    rewrite (IH Hnd') by now apply plain_extension_entry.
    cbn [Fs.child]. destruct (JsString.eqb f x) eqn:E.
    + apply eqb_eq in E. subst x.
      assert (Fs.child l f = None) as -> by now apply child_None.
      assert (Hn : (if is_extension f then file_bytes None else None) = None)
        by now destruct (is_extension f).
      rewrite Hn. unfold extension_entry. cbn [fst snd].
      destruct (is_extension f) eqn:Ef; [|reflexivity].
      destruct n as [c|d]; cbn [file_bytes]; [|reflexivity].
      rewrite plain_get_assign by exact Hs.
      now rewrite eqb_refl, (is_extension_not_proto f Ef).
    + destruct (if is_extension f then file_bytes (Fs.child l f) else None);
        [reflexivity|].
      unfold extension_entry. cbn [fst snd].
      destruct (is_extension x); [|reflexivity].
      destruct n as [c|d]; [|reflexivity].
      rewrite plain_get_assign by exact Hs. now rewrite E.
Qed.

Lemma media_entries_get ml : NoDup (map fst ml) ->
  forall s f, plain s ->
  own_get (fold_left media_entry ml s) f =
  match (if JsString.eqb f proto then None else file_bytes (Fs.child ml f)) with
  | Some content => Some (digestOfBytes content)
  | None => own_get s f
  end.
Proof.
  induction ml as [|[x n] l IH]; intros Hnd s f Hs.
  - simpl. now destruct (JsString.eqb f proto).
  - inversion Hnd as [|? ? Hx Hnd']; subst. cbn [fold_left].
    rewrite (IH Hnd') by now apply plain_media_entry.
    cbn [Fs.child]. destruct (JsString.eqb f x) eqn:E.
    + apply eqb_eq in E. subst x.
      assert (Fs.child l f = None) as -> by now apply child_None.
      assert (Hn : (if JsString.eqb f proto then None else file_bytes None) = None)
        by now destruct (JsString.eqb f proto).
      rewrite Hn. unfold media_entry. cbn [fst snd].
      destruct n as [c|d]; cbn [file_bytes].
      * rewrite plain_get_assign by exact Hs. rewrite eqb_refl.
        destruct (JsString.eqb f proto) eqn:Ep; [|reflexivity].
        simpl. apply eqb_eq in Ep. subst f. destruct Hs as [_ Hp].
        unfold has_own in Hp. now destruct (own_get s proto).
      * destruct (JsString.eqb f proto); [|reflexivity].
        reflexivity.
    + destruct (if JsString.eqb f proto then None else file_bytes (Fs.child l f));
        [reflexivity|].
      unfold media_entry. cbn [fst snd].
      destruct n as [c|d]; [|reflexivity].
      rewrite plain_get_assign by exact Hs. now rewrite E.
Qed.

Lemma body_not_proto : JsString.eqb (js "body.html") proto = false.
Proof. vm_compute. reflexivity. Qed.

Lemma metadata_not_proto : JsString.eqb (js "metadata.json") proto = false.
Proof. vm_compute. reflexivity. Qed.

Lemma metadata_not_body : JsString.eqb (js "metadata.json") (js "body.html") = false.
Proof. vm_compute. reflexivity. Qed.

Lemma first_files_get parse l files1 files2 :
  body_part (Fs.Dir l) [] = Ok files1 ->
  metadata_part parse (Fs.Dir l) [] files1 = Ok files2 ->
  plain files2 /\
  forall f, own_get files2 f =
    if JsString.eqb f (js "body.html")
    then option_map digestOfBytes (file_bytes (Fs.child l (js "body.html")))
    else if JsString.eqb f (js "metadata.json")
    then match file_bytes (Fs.child l (js "metadata.json")) with
         | Some b => option_map (fun metadata => hashObject metadata []) (parse b)
         | None => None
         end
    else None.
Proof.
  rewrite body_part_dir, metadata_part_dir. intros H1 H2.
  assert (Hf1 : plain files1 /\ forall f, own_get files1 f =
            if JsString.eqb f (js "body.html")
            then option_map digestOfBytes (file_bytes (Fs.child l (js "body.html")))
            else None).
  { destruct (Fs.child l (js "body.html")) as [[c|d]|]; try discriminate;
      injection H1 as <-.
    - split; [apply plain_assign, plain_nil|]. intros f.
      rewrite plain_get_assign by apply plain_nil.
      destruct (JsString.eqb f (js "body.html")) eqn:E; [|reflexivity].
      apply eqb_eq in E. subst f. now rewrite body_not_proto.
    - split; [apply plain_nil|]. intros f.
      now destruct (JsString.eqb f (js "body.html")). }
  destruct Hf1 as [Hp1 Hg1].
  destruct (Fs.child l (js "metadata.json")) as [[b|d]|]; try discriminate.
  - destruct (parse b) as [md|] eqn:Ep; [|discriminate]. injection H2 as <-.
    split; [now apply plain_assign|]. intros f.
    rewrite plain_get_assign by exact Hp1. rewrite Hg1.
    destruct (JsString.eqb f (js "metadata.json")) eqn:E.
    + apply eqb_eq in E. subst f.
      rewrite metadata_not_proto, metadata_not_body. cbn [file_bytes].
      now rewrite Ep.
    + reflexivity.
  - injection H2 as <-. split; [exact Hp1|]. intros f. rewrite Hg1.
    destruct (JsString.eqb f (js "body.html")); [reflexivity|].
    now destruct (JsString.eqb f (js "metadata.json")).
Qed.

Lemma distinct_names (l : list (jsstring * Fs.node)) :
  distinct (map fst l) = true -> NoDup (map fst l).
Proof. apply distinct_NoDup. Qed.

(** X9: the [files] map of a record that [generateChecksums] returns for a
    content directory (with distinct names) has distinct keys and holds
    exactly: under [body.html] the digest of the bytes of that file, under
    [metadata.json] the [hashObject] digest of the parsed document, under
    every other name ending in [.json], [media-mapping.json] and
    [checksums.json] apart, the digest of the bytes of that regular file;
    and nothing under any other name. *)
Theorem generateChecksums_files
    (parse : list byte -> option json) (now : jsstring)
    (root : Fs.node) (contentDir : Fs.path)
    (l : list (jsstring * Fs.node)) (checksums : Checksums) :
  Fs.resolve root contentDir = Some (Fs.Dir l) ->
  distinct (map fst l) = true ->
  generateChecksums parse now root contentDir = Ok checksums ->
  exists recorded,
    files checksums = Some recorded /\
    distinct (keys recorded) = true /\
    forall f, own_get recorded f = expected_file parse l f.
Proof.
  intros Hl Hd H. apply distinct_names in Hd.
  rewrite (generateChecksums_local root contentDir _ Hl) in H.
  rewrite generateChecksums_dir in H.
  destruct (body_part (Fs.Dir l) []) as [files1|] eqn:E1; [|discriminate].
  cbn [Result.bind] in H.
  destruct (metadata_part parse (Fs.Dir l) [] files1) as [files2|] eqn:E2;
    [|discriminate].
  cbn [Result.bind] in H.
  destruct (media_part (Fs.Dir l) []) as [media0|]; [|discriminate].
  cbn [Result.bind] in H. injection H as <-. cbn [files].
  destruct (first_files_get parse l files1 files2 E1 E2) as [Hp Hg].
  rewrite (by_name_entries extension_entry l Hd l files2) by apply incl_refl.
  eexists. split; [reflexivity|]. split.
  - apply distinct_NoDup.
    apply (plain_fold extension_entry l plain_extension_entry files2 Hp).
  - intros f. rewrite (extension_entries_get l Hd files2 f Hp), Hg.
    unfold expected_file.
    destruct (JsString.eqb f (js "body.html")) eqn:Eb.
    + apply eqb_eq in Eb. subst f.
      assert (is_extension (js "body.html") = false) as ->
        by (vm_compute; reflexivity).
      reflexivity.
    + destruct (JsString.eqb f (js "metadata.json")) eqn:Em.
      * apply eqb_eq in Em. subst f.
        assert (is_extension (js "metadata.json") = false) as ->
          by (vm_compute; reflexivity).
        reflexivity.
      * destruct (is_extension f); [|reflexivity].
        now destruct (file_bytes (Fs.child l f)).
Qed.

Lemma generateChecksums_files_witness :
  exists recorded checksums,
    generateChecksums Sample.parse_metadata (js "t") Sample.tree [js "post"]
      = Ok checksums /\
    files checksums = Some recorded /\
    own_get recorded (js "metadata.json") = Some (hashObject Sample.metadata []) /\
    own_get recorded (js "checksums.json") = None.
Proof.
  destruct (generateChecksums Sample.parse_metadata (js "t") Sample.tree [js "post"])
    as [checksums|e] eqn:E; [|vm_compute in E; discriminate].
  destruct (generateChecksums_files Sample.parse_metadata (js "t")
              Sample.tree [js "post"] _ checksums eq_refl eq_refl E)
    as (recorded & Hf & _ & Hget).
  exists recorded, checksums.
  split; [reflexivity|]. split; [exact Hf|].
  split; rewrite Hget; vm_compute; reflexivity.
Defined.

(** X10: the [media] map of a record that [generateChecksums] returns is
    absent exactly when the content directory has no entry [media]; for a
    directory [media] (with distinct names) it has distinct keys and holds
    under the name of every regular file in it the digest of its bytes, and
    nothing under any other name; subdirectories are skipped, and a file
    named [__proto__] is not recorded. *)
Theorem generateChecksums_media
    (parse : list byte -> option json) (now : jsstring)
    (root : Fs.node) (contentDir : Fs.path)
    (l : list (jsstring * Fs.node)) (checksums : Checksums) :
  Fs.resolve root contentDir = Some (Fs.Dir l) ->
  generateChecksums parse now root contentDir = Ok checksums ->
  (media checksums = None <-> Fs.child l (js "media") = None)
  /\ forall ml,
       Fs.child l (js "media") = Some (Fs.Dir ml) ->
       distinct (map fst ml) = true ->
       exists recorded,
         media checksums = Some recorded /\
         distinct (keys recorded) = true /\
         forall f, own_get recorded f = expected_media ml f.
Proof.
  intros Hl H.
  rewrite (generateChecksums_local root contentDir _ Hl) in H.
  rewrite generateChecksums_dir in H.
  destruct (body_part (Fs.Dir l) []) as [files1|]; [|discriminate].
  cbn [Result.bind] in H.
  destruct (metadata_part parse (Fs.Dir l) [] files1) as [files2|]; [|discriminate].
  cbn [Result.bind] in H. rewrite media_part_dir in H.
  destruct (Fs.child l (js "media")) as [[c|ml]|] eqn:Em; try discriminate;
    cbn [Result.bind] in H; injection H as <-; cbn [media].
  - split; [split; discriminate|]. intros ml' [= <-] Hd. apply distinct_names in Hd.
    rewrite (by_name_entries media_entry ml Hd ml []) by apply incl_refl.
    eexists. split; [reflexivity|]. split.
    + apply distinct_NoDup.
      apply (plain_fold media_entry ml plain_media_entry [] plain_nil).
    + intros f. rewrite (media_entries_get ml Hd [] f plain_nil).
      unfold expected_media. fold proto.
      destruct (JsString.eqb f proto); [reflexivity|].
      now destruct (file_bytes (Fs.child ml f)).
  - split; [split; reflexivity|]. discriminate.
Qed.

Lemma generateChecksums_media_witness :
  exists recorded checksums,
    generateChecksums Sample.parse_metadata (js "t") Sample.tree [js "post"]
      = Ok checksums /\
    media checksums = Some recorded /\
    own_get recorded (js "photo.jpg") = Some (digestOfBytes [x89; x50; x4e; x47]) /\
    own_get recorded (js "thumbs") = None.
Proof.
  destruct (generateChecksums Sample.parse_metadata (js "t") Sample.tree [js "post"])
    as [checksums|e] eqn:E; [|vm_compute in E; discriminate].
  destruct (generateChecksums_media Sample.parse_metadata (js "t")
              Sample.tree [js "post"] _ checksums eq_refl E) as [_ Hm].
  destruct (Hm _ eq_refl eq_refl) as (recorded & Hf & _ & Hget).
  exists recorded, checksums.
  split; [reflexivity|]. split; [exact Hf|].
  split; rewrite Hget; vm_compute; reflexivity.
Defined.


(** ** The format of the digests *)

Lemma nibble_bound x : N.land x 0xF < 16.
Proof.
  change 0xF with (N.ones 4). rewrite N.land_ones.
  apply N.mod_lt. discriminate.
Qed.

Lemma hex_digit_is_hex n : n < 16 -> is_hex (Sha256.hex_digit n) = true.
Proof.
  intros H. unfold Sha256.hex_digit, is_hex.
  destruct (N.ltb_spec n 10).
  - apply orb_true_iff. left. apply andb_true_iff. split; apply N.leb_le; lia.
  - apply orb_true_iff. right. apply andb_true_iff. split; apply N.leb_le; lia.
Qed.

Lemma hex_word_is_hex w : forallb is_hex (Sha256.hex_word w) = true.
Proof.
  unfold Sha256.hex_word. apply forallb_forall. intros c Hc.
  apply in_map_iff in Hc as (i & <- & _). apply hex_digit_is_hex, nibble_bound.
Qed.

Lemma hex_is_digest s : is_digest (Sha256.hex s) = true.
Proof.
  unfold is_digest. rewrite hex_length. simpl.
  destruct s as [[[[[[[a b] c] d] e] f] g] h]. unfold Sha256.hex.
  rewrite !forallb_app, !hex_word_is_hex. reflexivity.
Qed.

(** X11: every digest the three hash entry points return is a string of
    64 characters among [0-9a-f]: [hashString] and [hashObject] on every
    input, [hashFile] whenever the file can be read. *)
Theorem hash_entry_points_digest :
  (forall content, is_digest (hashString content) = true)
  /\ (forall v excludeKeys, is_digest (hashObject v excludeKeys) = true)
  /\ (forall root filePath h,
        hashFile root filePath = Ok h -> is_digest h = true).
Proof.
  split; [|split].
  - intros content. apply hex_is_digest.
  - intros v excludeKeys. apply hex_is_digest.
  - intros root filePath h. unfold hashFile, Result.bind.
    destruct (Fs.readFile root filePath); [|discriminate].
    intros [= <-]. apply hex_is_digest.
Qed.

Lemma hash_entry_points_digest_witness :
  is_digest (hashString (js "<p>Hi</p>")) = true.
Proof.
  apply (proj2 (proj2 hash_entry_points_digest)
           Sample.tree [js "post"; js "body.html"]).
  vm_compute. reflexivity.
Defined.

Lemma fold_left_invariant {S E : Type} (P : S -> Prop) (step : S -> E -> S) l :
  (forall s e, P s -> P (step s e)) -> forall s, P s -> P (fold_left step l s).
Proof.
  intros Hstep. induction l as [|e l IH]; intros s Hs; simpl; auto.
Qed.

Lemma all_digests_assign o k h :
  all_digests o -> is_digest h = true -> all_digests (assign o k h).
Proof.
  intros Ho Hh f h' Hin. apply In_assign in Hin as [Hin|Hin].
  - now injection Hin as -> ->.
  - eauto.
Qed.

Lemma all_digests_by_name step l :
  (forall s e, all_digests s -> all_digests (step s e)) ->
  forall s x, all_digests s -> all_digests (by_name step l s x).
Proof.
  intros H s x Hs. unfold by_name. destruct (Fs.child l x); auto.
Qed.

Lemma all_digests_extension_entry s e :
  all_digests s -> all_digests (extension_entry s e).
Proof.
  intros H. unfold extension_entry. destruct (is_extension (fst e)); [|exact H].
  destruct (snd e); [|exact H]. apply all_digests_assign; [exact H|apply hex_is_digest].
Qed.

Lemma all_digests_media_entry s e :
  all_digests s -> all_digests (media_entry s e).
Proof.
  intros H. unfold media_entry.
  destruct (snd e); [|exact H]. apply all_digests_assign; [exact H|apply hex_is_digest].
Qed.

Lemma generateChecksums_is_dir parse now root contentDir checksums :
  generateChecksums parse now root contentDir = Ok checksums ->
  exists l, Fs.resolve root contentDir = Some (Fs.Dir l).
Proof.
  intros H. destruct (Fs.resolve root contentDir) as [[c|l]|] eqn:En.
  - rewrite (generateChecksums_local root contentDir _ En),
      generateChecksums_parts in H. discriminate.
  - now exists l.
  - rewrite generateChecksums_missing in H by exact En. discriminate.
Qed.

(** X12: in every record that [generateChecksums] returns, [version] is 1,
    [generated] is the time of the call, [files] is present, and
    [combined] and every value of [files] and of [media] are digests of 64
    characters among [0-9a-f]. *)
Theorem generateChecksums_record_shape
    (parse : list byte -> option json) (now : jsstring)
    (root : Fs.node) (contentDir : Fs.path) (checksums : Checksums) :
  generateChecksums parse now root contentDir = Ok checksums ->
  version checksums = 1
  /\ generated checksums = now
  /\ files checksums <> None
  /\ is_digest (combined checksums) = true
  /\ (forall f h, In (f, h) (or_empty (files checksums)) -> is_digest h = true)
  /\ (forall f h, In (f, h) (or_empty (media checksums)) -> is_digest h = true).
Proof.
  intros H. destruct (generateChecksums_is_dir _ _ _ _ _ H) as [l Hl].
  rewrite (generateChecksums_local root contentDir _ Hl) in H.
  rewrite generateChecksums_dir, body_part_dir in H.
  assert (H1 : exists files1, all_digests files1 /\
            (files2 <- metadata_part parse (Fs.Dir l) [] files1 ;;
             media0 <- media_part (Fs.Dir l) [] ;;
             let files3 := fold_left (by_name extension_entry l) (map fst l) files2 in
             Ok {| version := 1; generated := now; files := Some files3;
                   media := media0;
                   combined := hashString (stringify (of_strings files3)
                                 ++ stringify (of_strings (or_empty media0))) |})
            = Ok checksums).
  { destruct (Fs.child l (js "body.html")) as [[c|d]|]; try discriminate;
      cbn [Result.bind] in H; eexists; (split; [|exact H]).
    - apply all_digests_assign; [intros f h []|apply hex_is_digest].
    - intros f h []. }
  clear H. destruct H1 as (files1 & Hd1 & H). rewrite metadata_part_dir in H.
  assert (H2 : exists files2, all_digests files2 /\
            (media0 <- media_part (Fs.Dir l) [] ;;
             let files3 := fold_left (by_name extension_entry l) (map fst l) files2 in
             Ok {| version := 1; generated := now; files := Some files3;
                   media := media0;
                   combined := hashString (stringify (of_strings files3)
                                 ++ stringify (of_strings (or_empty media0))) |})
            = Ok checksums).
  { destruct (Fs.child l (js "metadata.json")) as [[b|d]|]; try discriminate.
    - destruct (parse b); [|discriminate]. cbn [Result.bind] in H.
      eexists. split; [|exact H].
      apply all_digests_assign; [exact Hd1|apply hex_is_digest].
    - eexists. split; [|exact H]. exact Hd1. }
  clear H. destruct H2 as (files2 & Hd2 & H). rewrite media_part_dir in H.
  assert (Hd3 : all_digests (fold_left (by_name extension_entry l) (map fst l) files2)).
  { apply fold_left_invariant; [|exact Hd2]. intros s x.
    apply all_digests_by_name. apply all_digests_extension_entry. }
  destruct (Fs.child l (js "media")) as [[c|ml]|]; try discriminate;
    cbn [Result.bind] in H; injection H as <-;
    cbn [version generated files media combined or_empty];
    (split; [reflexivity|]); (split; [reflexivity|]); (split; [discriminate|]);
    (split; [apply hex_is_digest|]); (split; [exact Hd3|]).
  - apply fold_left_invariant; [|intros f h []]. intros s x.
    apply all_digests_by_name. apply all_digests_media_entry.
  - intros f h [].
Qed.

Lemma generateChecksums_record_shape_witness :
  match generateChecksums Sample.parse_metadata (js "t") Sample.tree [js "post"] with
  | Ok checksums => is_digest (combined checksums) = true
  | Err _ => False
  end.
Proof.
  destruct (generateChecksums Sample.parse_metadata (js "t") Sample.tree [js "post"])
    as [checksums|e] eqn:E.
  - apply (generateChecksums_record_shape _ _ _ _ _ E).
  - vm_compute in E. discriminate.
Defined.

(** ** What the builder ignores *)

Lemma child_filter_named (p : jsstring * Fs.node -> bool) l x :
  (forall n, p (x, n) = true) -> Fs.child (filter p l) x = Fs.child l x.
Proof.
  intros Hp. induction l as [|[y n] l IH]; simpl; [reflexivity|].
  destruct (p (y, n)) eqn:E; simpl.
  - destruct (JsString.eqb x y); [reflexivity | exact IH].
  - destruct (JsString.eqb x y) eqn:Exy; [|exact IH].
    apply eqb_eq in Exy. subst y. rewrite Hp in E. discriminate.
Qed.

Lemma child_same_relevant l l' x :
  (forall n, relevant (x, n) = true) ->
  filter relevant l = filter relevant l' -> Fs.child l x = Fs.child l' x.
Proof.
  intros Hx H. rewrite <- (child_filter_named relevant l x Hx).
  rewrite <- (child_filter_named relevant l' x Hx). now rewrite H.
Qed.

Lemma fold_left_filter {S E : Type} (p : E -> bool) (step : S -> E -> S) l :
  (forall s e, p e = false -> step s e = s) ->
  forall s, fold_left step l s = fold_left step (filter p l) s.
Proof.
  intros H. induction l as [|e l IH]; intros s; simpl; [reflexivity|].
  destruct (p e) eqn:Ep; simpl; [apply IH|]. rewrite (H s e Ep). apply IH.
Qed.

Lemma extension_entry_irrelevant s e : relevant e = false -> extension_entry s e = s.
Proof.
  unfold relevant, extension_entry. intros H.
  apply orb_false_iff in H as [_ H].
  destruct (is_extension (fst e)); [|reflexivity].
  destruct (snd e); [discriminate | reflexivity].
Qed.

(** X13: [generateChecksums] looks only at [body.html], [metadata.json],
    [media] and the regular files whose name ends in [.json]
    ([media-mapping.json] and [checksums.json] apart).  Two content
    directories (with distinct names) that hold the same such entries in
    the same order give the same result, whatever else they hold: saving
    [checksums.json] or a media mapping into the directory, or any file
    with another suffix, changes nothing. *)
Theorem generateChecksums_ignores_other_entries
    (parse : list byte -> option json) (now : jsstring)
    (root root' : Fs.node) (contentDir contentDir' : Fs.path)
    (l l' : list (jsstring * Fs.node)) :
  Fs.resolve root contentDir = Some (Fs.Dir l) ->
  Fs.resolve root' contentDir' = Some (Fs.Dir l') ->
  distinct (map fst l) = true ->
  distinct (map fst l') = true ->
  filter relevant l = filter relevant l' ->
  generateChecksums parse now root contentDir =
  generateChecksums parse now root' contentDir'.
Proof.
  intros Hl Hl' Hd Hd' Hsame. apply distinct_names in Hd, Hd'.
  rewrite (generateChecksums_local root contentDir _ Hl).
  rewrite (generateChecksums_local root' contentDir' _ Hl').
  rewrite !generateChecksums_dir.
  rewrite !body_part_dir, !media_part_dir.
  rewrite (child_same_relevant l l' (js "body.html")) by (auto; intros; reflexivity).
  rewrite (child_same_relevant l l' (js "media")) by (auto; intros; reflexivity).
  destruct (Fs.child l' (js "body.html")) as [[c|d]|]; try reflexivity;
    cbn [Result.bind]; rewrite !metadata_part_dir;
    rewrite (child_same_relevant l l' (js "metadata.json"))
      by (auto; intros; reflexivity);
    (destruct (Fs.child l' (js "metadata.json")) as [[b|d']|]; try reflexivity;
     [destruct (parse b); try reflexivity|];
     cbn [Result.bind];
     rewrite (by_name_entries extension_entry l Hd l) by apply incl_refl;
     rewrite (by_name_entries extension_entry l' Hd' l') by apply incl_refl;
     rewrite (fold_left_filter relevant extension_entry l extension_entry_irrelevant);
     rewrite (fold_left_filter relevant extension_entry l' extension_entry_irrelevant);
     rewrite Hsame; reflexivity).
Qed.

Lemma generateChecksums_ignores_other_entries_witness :
  generateChecksums Sample.parse_metadata (js "t") Sample.tree [js "post"] =
  generateChecksums Sample.parse_metadata (js "t") sample_post_saved [].
Proof.
  apply (generateChecksums_ignores_other_entries Sample.parse_metadata (js "t")
           Sample.tree sample_post_saved [js "post"] [] _ _ eq_refl eq_refl).
  - vm_compute. reflexivity.
  - vm_compute. reflexivity.
  - vm_compute. reflexivity.
Defined.


(** ** A re-export that changes dynamic fields only *)

Lemma child_app_other pre post k n n' x :
  x <> k ->
  Fs.child (pre ++ (k, n) :: post) x = Fs.child (pre ++ (k, n') :: post) x.
Proof.
  intros Hx. induction pre as [|[y m] pre IH]; simpl.
  - apply eqb_neq in Hx. now rewrite Hx.
  - destruct (JsString.eqb x y); [reflexivity | exact IH].
Qed.

Lemma child_app_at pre post k n :
  ~ In k (map fst pre) -> Fs.child (pre ++ (k, n) :: post) k = Some n.
Proof.
  induction pre as [|[y m] pre IH]; simpl; intros H.
  - now rewrite eqb_refl.
  - destruct (JsString.eqb k y) eqn:E.
    + apply eqb_eq in E. subst. exfalso. auto.
    + apply IH. tauto.
Qed.

Lemma generateChecksums_at_time parse now now' root contentDir checksums :
  generateChecksums parse now root contentDir = Ok checksums ->
  generateChecksums parse now' root contentDir = Ok (set_generated checksums now').
Proof.
  rewrite !generateChecksums_parts. unfold Result.bind.
  destruct (body_part root contentDir) as [files1|]; [|discriminate].
  destruct (metadata_part parse root contentDir files1) as [files2|]; [|discriminate].
  destruct (Fs.readdir root contentDir) as [names|]; [|discriminate].
  destruct (for_of names (extension_step root contentDir) files2) as [files3|];
    [|discriminate].
  destruct (media_part root contentDir) as [media0|]; [|discriminate].
  now intros [= <-].
Qed.

Lemma NoDup_middle {A : Type} (pre post : list A) k :
  NoDup (pre ++ k :: post) -> ~ In k pre.
Proof.
  intros H C. apply NoDup_remove_2 in H. apply H. apply in_app_iff. now left.
Qed.

Lemma generateChecksums_same_metadata_digest parse now pre post b1 b2 md1 md2 :
  NoDup (map fst (pre ++ (js "metadata.json", Fs.File b1) :: post)) ->
  parse b1 = Some md1 -> parse b2 = Some md2 ->
  hashObject md1 [] = hashObject md2 [] ->
  generateChecksums parse now
    (Fs.Dir (pre ++ (js "metadata.json", Fs.File b1) :: post)) [] =
  generateChecksums parse now
    (Fs.Dir (pre ++ (js "metadata.json", Fs.File b2) :: post)) [].
Proof.
  intros Hnd Hp1 Hp2 Hh.
  assert (Hpre : ~ In (js "metadata.json") (map fst pre)).
  { rewrite map_app in Hnd. simpl in Hnd. now apply NoDup_middle in Hnd. }
  set (l1 := pre ++ (js "metadata.json", Fs.File b1) :: post).
  set (l2 := pre ++ (js "metadata.json", Fs.File b2) :: post).
  assert (Hother : forall x, x <> js "metadata.json" -> Fs.child l1 x = Fs.child l2 x)
    by (intros x Hx; now apply child_app_other).
  assert (Hnames : map fst l1 = map fst l2)
    by (unfold l1, l2; now rewrite !map_app).
  assert (Hfold : forall s,
    fold_left (by_name extension_entry l1) (map fst l1) s =
    fold_left (by_name extension_entry l2) (map fst l2) s).
  { intros s. rewrite Hnames. apply fold_left_ext. intros a x.
    unfold by_name.
    destruct (list_eq_dec N.eq_dec x (js "metadata.json")) as [->|Hx].
    - unfold l1, l2. now rewrite !child_app_at by exact Hpre.
    - now rewrite (Hother x Hx). }
  assert (Hmeta : forall s,
    metadata_part parse (Fs.Dir l1) [] s = metadata_part parse (Fs.Dir l2) [] s).
  { intros s. rewrite !metadata_part_dir. unfold l1, l2.
    rewrite !child_app_at by exact Hpre. now rewrite Hp1, Hp2, Hh. }
  assert (Hmedia : media_part (Fs.Dir l1) [] = media_part (Fs.Dir l2) []).
  { rewrite !media_part_dir.
    now rewrite (Hother (js "media")) by (intros C; vm_compute in C; discriminate). }
  assert (Hbody : body_part (Fs.Dir l1) [] = body_part (Fs.Dir l2) []).
  { rewrite !body_part_dir.
    now rewrite (Hother (js "body.html")) by (intros C; vm_compute in C; discriminate). }
  rewrite !generateChecksums_dir, Hbody.
  destruct (body_part (Fs.Dir l2) []) as [files1|]; [|reflexivity].
  cbn [Result.bind]. rewrite Hmeta.
  destruct (metadata_part parse (Fs.Dir l2) [] files1) as [files2|]; [|reflexivity].
  cbn [Result.bind]. rewrite Hmedia.
  destruct (media_part (Fs.Dir l2) []) as [media0|]; [|reflexivity].
  cbn [Result.bind]. cbv zeta. now rewrite Hfold.
Qed.

(** X14: a re-export in which only dynamic fields of the metadata changed
    is seen as unchanged.  If two content directories (distinct names)
    differ only in the bytes of [metadata.json], and the two documents
    parse to mappings that agree on every key but [id], [date], [modified],
    [guid] and [link], then whenever [generateChecksums] returns a record
    for the first it returns for the second the same record, the time of
    generation apart, and [compareChecksums] of the second against the
    first answers [changed = false] by the combined digest. *)
Theorem generateChecksums_dynamic_metadata
    (parse : list byte -> option json) (now now' : jsstring)
    (root root' : Fs.node) (contentDir contentDir' : Fs.path)
    (pre post : list (jsstring * Fs.node)) (b b' : list byte)
    (o o' : obj json) (checksums : Checksums) :
  Fs.resolve root contentDir
    = Some (Fs.Dir (pre ++ (js "metadata.json", Fs.File b) :: post)) ->
  Fs.resolve root' contentDir'
    = Some (Fs.Dir (pre ++ (js "metadata.json", Fs.File b') :: post)) ->
  distinct (map fst (pre ++ (js "metadata.json", Fs.File b) :: post)) = true ->
  parse b = Some (JObj o) -> parse b' = Some (JObj o') ->
  distinct (keys o) = true -> distinct (keys o') = true ->
  (forall k, includes alwaysExcluded k = false -> own_get o k = own_get o' k) ->
  generateChecksums parse now root contentDir = Ok checksums ->
  generateChecksums parse now' root' contentDir'
    = Ok (set_generated checksums now')
  /\ compareChecksums (set_generated checksums now') (Some checksums) =
     {| changed := false; reason := js "combined-match";
        details_files := []; details_media := [] |}.
Proof.
  intros Hl Hl' Hd Hp Hp' Ho Ho' Hsame H. split.
  - apply generateChecksums_at_time with (now := now).
    rewrite (generateChecksums_local root' contentDir' _ Hl').
    rewrite (generateChecksums_local root contentDir _ Hl) in H.
    rewrite <- H. symmetry.
    apply (generateChecksums_same_metadata_digest parse now pre post b b'
             (JObj o) (JObj o')); auto.
    + now apply distinct_NoDup.
    + unfold hashObject. now rewrite (canonical_excluded o o' []).
  - unfold compareChecksums, set_generated. cbn [combined]. now rewrite eqb_refl.
Qed.

Lemma generateChecksums_dynamic_metadata_witness :
  match generateChecksums sample_parse (js "t0") Sample.tree [js "post"] with
  | Ok checksums =>
      generateChecksums sample_parse (js "t1") sample_reexport []
      = Ok (set_generated checksums (js "t1"))
  | Err _ => False
  end.
Proof.
  destruct (generateChecksums sample_parse (js "t0") Sample.tree [js "post"])
    as [checksums|e] eqn:E; [|vm_compute in E; discriminate].
  refine (proj1 (generateChecksums_dynamic_metadata sample_parse (js "t0") (js "t1")
           Sample.tree sample_reexport [js "post"] []
           [(js "body.html", Sample.text "<p>Hi</p>");
            (js "checksums.json", Sample.text "{}");
            (js "media", Fs.Dir [(js "photo.jpg", Fs.File [x89; x50; x4e; x47]);
                                 (js "thumbs", Fs.Dir [])])]
           [(js "seo.json", Sample.text "{}"); (js "notes.txt", Sample.text "n")]
           _ _ _ _ checksums eq_refl eq_refl eq_refl eq_refl eq_refl eq_refl eq_refl
           _ E)).
  intros k Hk. unfold alwaysExcluded in Hk. cbn [map includes existsb] in Hk.
  repeat (apply orb_false_iff in Hk; destruct Hk as [? Hk]).
  cbn [own_get].
  repeat match goal with H : JsString.eqb _ _ = false |- _ => rewrite H; clear H end.
  reflexivity.
Defined.


(** ** The REST plugin *)

Section PluginFacts.
Import Plugin.
Context {V : Type}.

Lemma array_get_set (a : parray V) k v x :
  array_get (array_set a k v) x =
  if String.eqb x k then Some v else array_get a x.
Proof.
  induction a as [|[k' v'] a IH]; simpl.
  - reflexivity.
  - destruct (String.eqb k k') eqn:E; simpl.
    + apply String.eqb_eq in E. subst k'. now destruct (String.eqb x k).
    + rewrite IH. destruct (String.eqb x k') eqn:E'; [|reflexivity].
      apply String.eqb_eq in E'. subst k'.
      rewrite String.eqb_sym in E. now rewrite E.
Qed.

Lemma array_keys_set_fresh (a : parray V) k v :
  ~ In k (array_keys a) -> array_keys (array_set a k v) = array_keys a ++ [k].
Proof.
  unfold array_keys. induction a as [|[k' v'] a IH]; simpl; intros H.
  - reflexivity.
  - destruct (String.eqb k k') eqn:E.
    + apply String.eqb_eq in E. subst. exfalso. auto.
    + simpl. f_equal. apply IH. tauto.
Qed.

Lemma array_get_None (a : parray V) k :
  array_get a k = None <-> ~ In k (array_keys a).
Proof.
  unfold array_keys. induction a as [|[k' v'] a IH]; simpl; [tauto|].
  destruct (String.eqb k k') eqn:E.
  - apply String.eqb_eq in E. subst. split; [discriminate | intros C; exfalso; auto].
  - apply String.eqb_neq in E. rewrite IH. split; [intros H [C|C]; congruence | tauto].
Qed.

End PluginFacts.

Lemma strpos_zero_prefix key needle :
  Plugin.is_zero (Plugin.strpos key needle) = String.prefix needle key.
Proof.
  unfold Plugin.strpos. destruct key as [|c key]; simpl.
  - now destruct needle.
  - destruct needle as [|d needle]; [reflexivity|].
    destruct (Ascii.ascii_dec d c) as [->|Hne];
      [|destruct (String.index 0 (String d needle) key); reflexivity].
    destruct (String.prefix needle key); [reflexivity|].
    now destruct (String.index 0 (String c needle) key).
Qed.

Lemma hidden_prefix key :
  Plugin.hidden key = String.prefix "_edit_" key || String.prefix "_wp_" key.
Proof. unfold Plugin.hidden. now rewrite !strpos_zero_prefix. Qed.

Section PluginCallbacks.
Import Plugin.
Variable value : Type.
Variable maybe_unserialize : string -> value.

Lemma filtered_fold (keep : string -> bool) (meta : parray (list string)) :
  NoDup (array_keys meta) ->
  forall result,
    (forall k, In k (array_keys result) -> ~ In k (array_keys meta)) ->
    let final :=
      fold_left
        (fun result kv =>
           if keep (fst kv) then array_set result (fst kv) (expose value maybe_unserialize (snd kv))
           else result)
        meta result in
    array_keys final = array_keys result ++ filter keep (array_keys meta)
    /\ forall k, array_get final k =
         match array_get result k with
         | Some v => Some v
         | None => if keep k
                   then option_map (expose value maybe_unserialize) (array_get meta k)
                   else None
         end.
Proof.
  induction meta as [|[k vs] meta IH]; intros Hnd result Hfresh; cbn zeta.
  - simpl. rewrite app_nil_r. split; [reflexivity|]. intros k.
    destruct (array_get result k); [reflexivity|]. now destruct (keep k).
  - inversion Hnd as [|? ? Hk Hnd']; subst. cbn [fold_left fst snd].
    assert (Hk' : ~ In k (array_keys result)).
    { intros C. apply (Hfresh k C). now left. }
    destruct (keep k) eqn:Ek.
    + destruct (IH Hnd' (array_set result k (expose value maybe_unserialize vs)))
        as [IHk IHg].
      { intros x Hx C. rewrite array_keys_set_fresh in Hx by exact Hk'.
        apply in_app_iff in Hx as [Hx|[<-|[]]]; [|contradiction].
        apply (Hfresh x Hx). now right. }
      split.
      * rewrite IHk, array_keys_set_fresh by exact Hk'.
        simpl. rewrite Ek. now rewrite <- app_assoc.
      * intros x. rewrite IHg, array_get_set. simpl.
        destruct (String.eqb x k) eqn:Ex.
        -- apply String.eqb_eq in Ex. subst x.
           apply array_get_None in Hk'. now rewrite Hk', Ek.
        -- reflexivity.
    + destruct (IH Hnd' result) as [IHk IHg].
      { intros x Hx C. apply (Hfresh x Hx). now right. }
      split.
      * rewrite IHk. simpl. now rewrite Ek.
      * intros x. rewrite IHg. simpl.
        destruct (String.eqb x k) eqn:Ex; [|reflexivity].
        apply String.eqb_eq in Ex. subst x. rewrite Ek.
        now destruct (array_get result k).
Qed.

(** X15: the field [all_meta] of a post or a page never exposes a meta key
    that starts with [_edit_] or [_wp_], and exposes every other key, in the
    order of [get_post_meta]: a key with exactly one value as that value
    unserialized, any other key as the array of its unserialized values. *)
Theorem get_callback_filters
    (get_post_meta : nat -> parray (list string)) (post_id : nat) :
  NoDup (array_keys (get_post_meta post_id)) ->
  array_keys (get_callback value maybe_unserialize get_post_meta post_id)
  = filter (fun k => negb (String.prefix "_edit_" k || String.prefix "_wp_" k))
      (array_keys (get_post_meta post_id))
  /\ forall k,
       array_get (get_callback value maybe_unserialize get_post_meta post_id) k =
       if String.prefix "_edit_" k || String.prefix "_wp_" k then None
       else option_map (expose value maybe_unserialize)
              (array_get (get_post_meta post_id) k).
Proof.
  intros Hnd. unfold get_callback. cbv zeta.
  assert (E : forall result kv,
    (if hidden (fst kv) then result
     else array_set result (fst kv) (expose value maybe_unserialize (snd kv))) =
    (if negb (hidden (fst kv))
     then array_set result (fst kv) (expose value maybe_unserialize (snd kv))
     else result))
    by (intros result kv; now destruct (hidden (fst kv))).
  rewrite (fold_left_ext _ _ (get_post_meta post_id) E).
  destruct (filtered_fold (fun k => negb (hidden k)) _ Hnd [])
    as [Hk Hg]; [intros k []|].
  cbv zeta in Hk, Hg. split.
  - rewrite Hk. simpl. apply filter_ext. intros k. now rewrite hidden_prefix.
  - intros k. rewrite Hg. simpl. rewrite hidden_prefix.
    now destruct (String.prefix "_edit_" k || String.prefix "_wp_" k).
Qed.

(** X16: the field [all_meta] of a custom post type exposes every meta key,
    those that start with [_edit_] or [_wp_] too, in the order of
    [get_post_meta] and in the same form as for posts. *)
Theorem get_callback_custom_exposes_all
    (get_post_meta : nat -> parray (list string)) (post_id : nat) :
  NoDup (array_keys (get_post_meta post_id)) ->
  array_keys (get_callback_custom value maybe_unserialize get_post_meta post_id)
  = array_keys (get_post_meta post_id)
  /\ forall k,
       array_get (get_callback_custom value maybe_unserialize get_post_meta post_id) k =
       option_map (expose value maybe_unserialize)
         (array_get (get_post_meta post_id) k).
Proof.
  intros Hnd. unfold get_callback_custom. cbv zeta.
  destruct (filtered_fold (fun _ => true) _ Hnd []) as [Hk Hg]; [intros k []|].
  cbv zeta in Hk, Hg. split.
  - rewrite Hk. simpl. clear. induction (array_keys (get_post_meta post_id));
      simpl; [reflexivity | now f_equal].
  - intros k. now rewrite Hg.
Qed.

End PluginCallbacks.

Lemma sample_meta_NoDup : NoDup (Plugin.array_keys (Plugin.sample_meta 7)).
Proof.
  unfold Plugin.array_keys, Plugin.sample_meta. simpl.
  repeat constructor; simpl; intuition discriminate.
Qed.

Lemma get_callback_filters_witness :
  Plugin.array_keys (Plugin.get_callback string (fun s => s) Plugin.sample_meta 7)
  = ["subtitle"; "gallery"; "my_edit_note"]%string
  /\ Plugin.array_get
       (Plugin.get_callback string (fun s => s) Plugin.sample_meta 7)
       "_wp_page_template"%string = None.
Proof.
  destruct (get_callback_filters string (fun s => s) Plugin.sample_meta 7
              sample_meta_NoDup) as [Hk Hg].
  split; [rewrite Hk | rewrite Hg]; reflexivity.
Defined.

Lemma get_callback_custom_exposes_all_witness :
  Plugin.array_get
    (Plugin.get_callback_custom string (fun s => s) Plugin.sample_meta 7)
    "_edit_lock"%string
  = Some (Plugin.One string "1700000000:1"%string).
Proof.
  destruct (get_callback_custom_exposes_all string (fun s => s)
              Plugin.sample_meta 7 sample_meta_NoDup) as [_ Hg].
  rewrite Hg. reflexivity.
Defined.

(** X17: once the action has run, [post] and [page] have the filtering
    callback whatever post types exist, and a custom post type has a
    callback, the unfiltered one, exactly when it is one of the four named
    types and exists. *)
Theorem registered_fields (post_type_exists : string -> bool) :
  Plugin.array_get (Plugin.registered post_type_exists) "post"%string = Some Plugin.Filtered
  /\ Plugin.array_get (Plugin.registered post_type_exists) "page"%string = Some Plugin.Filtered
  /\ forall t, t <> "post"%string -> t <> "page"%string ->
       Plugin.array_get (Plugin.registered post_type_exists) t =
       if existsb (String.eqb t) Plugin.custom_post_types && post_type_exists t
       then Some Plugin.Unfiltered else None.
Proof.
  unfold Plugin.registered, Plugin.custom_post_types. cbn [fold_left].
  destruct (post_type_exists "wpcf7_contact_form"%string) eqn:E1,
           (post_type_exists "acf-field-group"%string) eqn:E2,
           (post_type_exists "wpforms"%string) eqn:E3,
           (post_type_exists "frm_form"%string) eqn:E4;
    (split; [reflexivity|]); (split; [reflexivity|]);
    intros t Hp Hq; apply String.eqb_neq in Hp, Hq;
    cbn [app Plugin.array_get existsb]; rewrite Hp, Hq;
    destruct (String.eqb t "wpcf7_contact_form"%string) eqn:T1;
    try (apply String.eqb_eq in T1; subst t; cbn; rewrite ?E1; reflexivity);
    destruct (String.eqb t "acf-field-group"%string) eqn:T2;
    try (apply String.eqb_eq in T2; subst t; cbn; rewrite ?E2; reflexivity);
    destruct (String.eqb t "wpforms"%string) eqn:T3;
    try (apply String.eqb_eq in T3; subst t; cbn; rewrite ?E3; reflexivity);
    destruct (String.eqb t "frm_form"%string) eqn:T4;
    try (apply String.eqb_eq in T4; subst t; cbn; rewrite ?E4; reflexivity);
    reflexivity.
Qed.

Lemma registered_fields_witness :
  Plugin.array_get (Plugin.registered (fun t => String.eqb t "wpforms"%string)) "wpforms"%string
  = Some Plugin.Unfiltered.
Proof.
  rewrite (proj2 (proj2 (registered_fields (fun t => String.eqb t "wpforms"%string)))
             "wpforms"%string); [reflexivity | discriminate | discriminate].
Defined.
